(** * ComplianceShield: the rule-evaluation engine of the server

    A shallow embedding of the scanner's core: the colour-contrast
    utilities, the page fetcher, the scan engine with its scoring and
    classification, the scan-history diff, and the monitor registry with its
    scheduler, together with the endpoints around them (scan, history,
    trend, monitors, alert preferences, badge) and the alert subscriptions
    of [routes/webhook.js]. Every definition follows the JavaScript function
    of the same name. The repository keeps several copies of the server; the
    definitions follow the most recent one (the only one with the history
    diff and the monthly interval), and [Monitor.intervalMs_older] records
    the one expression on which the older copies of the scheduler differ.

    The platform appears as data or as section variables: cheerio's
    selectors give a [Scan.Document], Node's [URL] and [http] modules, the
    clock, [uuidv4] and the file system are parameters of the sections that
    use them.

    Conventions.
    - JavaScript strings are [string]s of code units below 256.
    - An attribute read with [$(el).attr(name)] is an [option string]:
      [None] is [undefined], and only a non-empty string is truthy.
    - A function that can throw returns a [Completion].
    - Time stamps are integers (milliseconds since the epoch), the value
      that [toISOString] and [new Date] carry back and forth.
    - The colorimetry is stated over the real numbers, with the end of
      the binary64 range ([Infinity] and [NaN]) where the contrast check
      meets it; the rounding of binary64 arithmetic is not part of that
      model.  The score, which the source computes in binary64 as well,
      is modelled with the primitive floats bit for bit. *)

From Stdlib Require Import ZArith List String Ascii Bool Lia Permutation.
From Stdlib Require Import Reals Lra Floats.
From Equations Require Import Equations.
From Equations.Prop Require Import Logic.
Import ListNotations.

Open Scope string_scope.
Open Scope list_scope.
Open Scope Z_scope.

(* ------------------------------------------------------------------ *)
(** ** Completions: values or thrown exceptions *)

Inductive Completion (A : Type) : Type :=
| Normal (a : A)
| Throw (message : string).
Arguments Normal {A} a.
Arguments Throw {A} message.

Definition bind {A B : Type} (c : Completion A) (k : A -> Completion B)
  : Completion B :=
  match c with
  | Normal a => k a
  | Throw m => Throw m
  end.

Notation "x <- c ;; k" := (bind c (fun x => k))
  (at level 61, c at next level, right associativity).

(** [Array.prototype.map] with a callback that may throw: the first throw
    aborts the traversal. *)
Fixpoint mapM {A B : Type} (f : A -> Completion B) (l : list A)
  : Completion (list B) :=
  match l with
  | [] => Normal []
  | x :: xs => y <- f x ;; ys <- mapM f xs ;; Normal (y :: ys)
  end.

(* ------------------------------------------------------------------ *)
(** ** The string primitives the source relies on *)

Module JsString.

Definition code (c : ascii) : nat := nat_of_ascii c.

Definition between (lo hi n : nat) : bool :=
  (Nat.leb lo n && Nat.leb n hi)%bool.

(** [\s] of a regular expression and the characters [trim] strips:
    TAB, LF, VT, FF, CR, space and the no-break space. *)
Definition is_space (c : ascii) : bool :=
  (between 9 13 (code c) || Nat.eqb (code c) 32 || Nat.eqb (code c) 160)%bool.

Definition is_digit (c : ascii) : bool := between 48 57 (code c).

(** [[0-9a-f]] *)
Definition is_lower_hex (c : ascii) : bool :=
  (is_digit c || between 97 102 (code c))%bool.

(** Case folding of the [i] flag: only the letters A-Z fold. *)
Definition fold_char (c : ascii) : ascii :=
  if between 65 90 (code c) then ascii_of_nat (code c + 32) else c.

(** [String.prototype.toLowerCase] on code units below 256. *)
Definition lower_char (c : ascii) : ascii :=
  if (between 65 90 (code c)
      || (between 192 222 (code c) && negb (Nat.eqb (code c) 215)))%bool
  then ascii_of_nat (code c + 32) else c.

Fixpoint toLowerCase (s : string) : string :=
  match s with
  | EmptyString => EmptyString
  | String c s' => String (lower_char c) (toLowerCase s')
  end.

Fixpoint skip_ws (s : string) : string :=
  match s with
  | String c s' => if is_space c then skip_ws s' else s
  | EmptyString => EmptyString
  end.

Fixpoint rev_onto (s acc : string) : string :=
  match s with
  | EmptyString => acc
  | String c s' => rev_onto s' (String c acc)
  end.

Definition reverse (s : string) : string := rev_onto s EmptyString.

Definition trim (s : string) : string :=
  reverse (skip_ws (reverse (skip_ws s))).

Definition is_empty (s : string) : bool :=
  match s with EmptyString => true | _ => false end.

(** [s.substring(0, n)] *)
Fixpoint take (n : nat) (s : string) : string :=
  match n, s with
  | S n', String c s' => String c (take n' s')
  | _, _ => EmptyString
  end.

Fixpoint drop (n : nat) (s : string) : string :=
  match n, s with
  | S n', String _ s' => drop n' s'
  | _, _ => s
  end.

(** [strip_prefix p s] is the rest of [s] after the literal [p]. *)
Fixpoint strip_prefix (p s : string) : option string :=
  match p, s with
  | EmptyString, _ => Some s
  | String a p', String c s' =>
      if Ascii.eqb a c then strip_prefix p' s' else None
  | String _ _, EmptyString => None
  end.

(** The same under the [i] flag; [p] is given in lower case. *)
Fixpoint strip_prefix_ci (p s : string) : option string :=
  match p, s with
  | EmptyString, _ => Some s
  | String a p', String c s' =>
      if Ascii.eqb a (fold_char c) then strip_prefix_ci p' s' else None
  | String _ _, EmptyString => None
  end.

(** The longest prefix without [stop], and what follows it. *)
Fixpoint span_until (stop : ascii) (s : string) : string * string :=
  match s with
  | EmptyString => (EmptyString, EmptyString)
  | String c s' =>
      if Ascii.eqb c stop then (EmptyString, s)
      else let (v, rest) := span_until stop s' in (String c v, rest)
  end.

(** The longest prefix of decimal digits, and what follows it. *)
Fixpoint span_digits (s : string) : string * string :=
  match s with
  | EmptyString => (EmptyString, EmptyString)
  | String c s' =>
      if is_digit c
      then let (v, rest) := span_digits s' in (String c v, rest)
      else (EmptyString, s)
  end.

(** The last white-space character of the leading white space of [s]. *)
Fixpoint last_leading_space (s : string) : option ascii :=
  match s with
  | String c s' =>
      if is_space c
      then match last_leading_space s' with
           | Some d => Some d
           | None => Some c
           end
      else None
  | EmptyString => None
  end.

Fixpoint all_chars (p : ascii -> bool) (s : string) : bool :=
  match s with
  | EmptyString => true
  | String c s' => (p c && all_chars p s')%bool
  end.

Definition hex_digit_value (c : ascii) : Z :=
  if is_digit c then Z.of_nat (code c) - 48
  else if between 97 102 (code c) then Z.of_nat (code c) - 87
  else if between 65 70 (code c) then Z.of_nat (code c) - 55
  else 0.

(** [parseInt(s, 16)] on a string of hexadecimal digits. *)
Fixpoint parse_hex_from (acc : Z) (s : string) : Z :=
  match s with
  | EmptyString => acc
  | String c s' => parse_hex_from (16 * acc + hex_digit_value c) s'
  end.
Definition parseInt16 (s : string) : Z := parse_hex_from 0 s.

(** [parseInt(s)] on a non-empty string of decimal digits (the exact
    integer; beyond 2^53 the source has the nearest binary64 number). *)
Fixpoint parse_dec_from (acc : Z) (s : string) : Z :=
  match s with
  | EmptyString => acc
  | String c s' => parse_dec_from (10 * acc + (Z.of_nat (code c) - 48)) s'
  end.
Definition parseInt10 (s : string) : Z := parse_dec_from 0 s.

(** [s] between double quotes. *)
Definition quoted (s : string) : string :=
String (ascii_of_nat 34) (s ++ String (ascii_of_nat 34) EmptyString).

(** JavaScript truthiness of an attribute value. *)
Definition truthy (a : option string) : bool :=
  match a with
  | Some (String _ _) => true
  | _ => false
  end.

(** [a || d] for an attribute with a string default. *)
Definition or_default (a : option string) (d : string) : string :=
  match a with
  | Some (String c s) => String c s
  | _ => d
  end.

End JsString.

(* ------------------------------------------------------------------ *)
(** ** WCAG_RULES: the rule catalogue *)

Module Catalogue.

Inductive Impact := critical | serious | moderate | minor.

Inductive Level := A | AA.

(** The keys of [WCAG_RULES]. *)
Inductive RuleId :=
| missing_alt | empty_alt | missing_lang | missing_title | missing_heading
| skipped_heading | missing_form_label | empty_link | empty_button
| missing_viewport | no_skip_link | missing_landmark | low_contrast_text
| autoplay_media | tabindex_positive | missing_table_header | meta_refresh
| inline_styles_text | color_contrast_inline | keyboard_trap
| missing_focus_style | generic_link_text | missing_keyboard_access.

(** A catalogue entry; the [description] and [url] texts are left out. *)
Record Rule := {
  id : string;
  name : string;
  wcag : string;
  level : Level;
  principle : string;
  impact : Impact
}.

Definition mk := Build_Rule.

Definition WCAG_RULES (k : RuleId) : Rule :=
  match k with
  | missing_alt => mk "missing-alt" "Images missing alt text"
      "WCAG 2.1 SC 1.1.1" A "Perceivable" critical
  | empty_alt => mk "empty-alt"
      "Images with empty alt on non-decorative elements"
      "WCAG 2.1 SC 1.1.1" A "Perceivable" serious
  | missing_lang => mk "missing-lang" "Missing page language"
      "WCAG 2.1 SC 3.1.1" A "Understandable" serious
  | missing_title => mk "missing-title" "Missing page title"
      "WCAG 2.1 SC 2.4.2" A "Operable" serious
  | missing_heading => mk "missing-heading" "No heading structure"
      "WCAG 2.1 SC 1.3.1" A "Perceivable" moderate
  | skipped_heading => mk "skipped-heading" "Skipped heading levels"
      "WCAG 2.1 SC 1.3.1" A "Perceivable" moderate
  | missing_form_label => mk "missing-form-label"
      "Form inputs without labels"
      "WCAG 2.1 SC 1.3.1 / 4.1.2" A "Perceivable" critical
  | empty_link => mk "empty-link" "Links with no accessible text"
      "WCAG 2.1 SC 2.4.4" A "Operable" serious
  | empty_button => mk "empty-button" "Buttons with no accessible text"
      "WCAG 2.1 SC 4.1.2" A "Robust" critical
  | missing_viewport => mk "missing-viewport" "Missing viewport meta tag"
      "WCAG 2.1 SC 1.4.10" AA "Perceivable" moderate
  | no_skip_link => mk "no-skip-link" "No skip navigation link"
      "WCAG 2.1 SC 2.4.1" A "Operable" moderate
  | missing_landmark => mk "missing-landmark"
      "No ARIA landmarks or semantic HTML5"
      "WCAG 2.1 SC 1.3.1" A "Perceivable" moderate
  | low_contrast_text => mk "low-contrast-text"
      "Potential low contrast text"
      "WCAG 2.1 SC 1.4.3" AA "Perceivable" serious
  | autoplay_media => mk "autoplay-media" "Auto-playing media"
      "WCAG 2.1 SC 1.4.2" A "Perceivable" serious
  | tabindex_positive => mk "tabindex-positive" "Positive tabindex values"
      "WCAG 2.1 SC 2.4.3" A "Operable" moderate
  | missing_table_header => mk "missing-table-header"
      "Data tables without headers"
      "WCAG 2.1 SC 1.3.1" A "Perceivable" serious
  | meta_refresh => mk "meta-refresh" "Meta refresh redirect"
      "WCAG 2.1 SC 2.2.1" A "Operable" critical
  | inline_styles_text => mk "inline-styles-text"
      "Inline text styling (potential contrast issues)"
      "WCAG 2.1 SC 1.4.3" AA "Perceivable" minor
  | color_contrast_inline => mk "color-contrast-inline"
      "Inline color contrast issues"
      "WCAG 2.1 SC 1.4.3" AA "Perceivable" serious
  | keyboard_trap => mk "keyboard-trap" "Potential keyboard trap"
      "WCAG 2.1 SC 2.1.2" A "Operable" critical
  | missing_focus_style => mk "missing-focus-style"
      "Focus styles suppressed"
      "WCAG 2.1 SC 2.4.7" AA "Operable" serious
  | generic_link_text => mk "generic-link-text"
      "Generic or ambiguous link text"
      "WCAG 2.1 SC 2.4.4" A "Operable" moderate
  | missing_keyboard_access => mk "missing-keyboard-access"
      "Non-interactive elements with click handlers"
      "WCAG 2.1 SC 2.1.1" A "Operable" serious
  end.

Definition all_rules : list RuleId :=
  [ missing_alt; empty_alt; missing_lang; missing_title; missing_heading;
    skipped_heading; missing_form_label; empty_link; empty_button;
    missing_viewport; no_skip_link; missing_landmark; low_contrast_text;
    autoplay_media; tabindex_positive; missing_table_header; meta_refresh;
    inline_styles_text; color_contrast_inline; keyboard_trap;
    missing_focus_style; generic_link_text; missing_keyboard_access ].

Definition impact_eqb (a b : Impact) : bool :=
  match a, b with
  | critical, critical | serious, serious
  | moderate, moderate | minor, minor => true
  | _, _ => false
  end.

End Catalogue.

(* ------------------------------------------------------------------ *)
(** ** Colour-contrast utilities *)

Module Color.
Import JsString.

Record RGB := { r : Z; g : Z; b : Z }.

(** What [namedColors[key]] evaluates to. *)
Inductive Property :=
| OwnString (hex : string)   (** a named colour *)
| OwnNull                    (** [transparent: null] *)
| Inherited                  (** a member of [Object.prototype] *)
| Undefined.

Definition namedColors_own : list (string * option string) :=
  [ ("white", Some "#ffffff"); ("black", Some "#000000");
    ("red", Some "#ff0000"); ("green", Some "#008000");
    ("blue", Some "#0000ff"); ("yellow", Some "#ffff00");
    ("gray", Some "#808080"); ("grey", Some "#808080");
    ("silver", Some "#c0c0c0"); ("orange", Some "#ffa500");
    ("purple", Some "#800080"); ("navy", Some "#000080");
    ("teal", Some "#008080"); ("maroon", Some "#800000");
    ("lime", Some "#00ff00"); ("aqua", Some "#00ffff");
    ("fuchsia", Some "#ff00ff"); ("olive", Some "#808000");
    ("darkgray", Some "#a9a9a9"); ("lightgray", Some "#d3d3d3");
    ("transparent", None) ].

(** [namedColors] is an object literal, so a key that is not its own is
    looked up on [Object.prototype]. *)
Definition Object_prototype_keys : list string :=
  [ "constructor"; "__proto__"; "hasOwnProperty"; "isPrototypeOf";
    "propertyIsEnumerable"; "toLocaleString"; "toString"; "valueOf";
    "__defineGetter__"; "__defineSetter__"; "__lookupGetter__";
    "__lookupSetter__" ].

Fixpoint assoc (k : string) (l : list (string * option string))
  : option (option string) :=
  match l with
  | [] => None
  | (k', v) :: l' => if String.eqb k k' then Some v else assoc k l'
  end.

Definition namedColors (k : string) : Property :=
  match assoc k namedColors_own with
  | Some (Some hex) => OwnString hex
  | Some None => OwnNull
  | None =>
      if existsb (String.eqb k) Object_prototype_keys
      then Inherited else Undefined
  end.

(** [colorStr.match(/^#([0-9a-f]{3,8})$/)]: the captured digits. *)
Definition hexMatch (colorStr : string) : option string :=
  match colorStr with
  | String "#" hex =>
      if (Nat.leb 3 (String.length hex) && Nat.leb (String.length hex) 8
          && all_chars is_lower_hex hex)%bool
      then Some hex else None
  | _ => None
  end.

(** [hex[0]+hex[0]+hex[1]+hex[1]+hex[2]+hex[2]] *)
Definition expand3 (hex : string) : string :=
  match hex with
  | String a (String b (String c EmptyString)) =>
      String a (String a (String b (String b (String c (String c EmptyString)))))
  | _ => hex
  end.

(** [hex.substr(i, 2)] *)
Definition substr2 (i : nat) (hex : string) : string := take 2 (drop i hex).

(** The pattern [rgba?\(\s*(\d+)\s*,\s*(\d+)\s*,\s*(\d+)] tried at the
    start of [s]. *)
Definition rgb_at (s : string) : option (string * string * string) :=
  match strip_prefix "rgb" s with
  | None => None
  | Some s1 =>
      let s2 := match s1 with String "a" s' => s' | _ => s1 end in
      match s2 with
      | String "(" s3 =>
          let (d1, s4) := span_digits (skip_ws s3) in
          if is_empty d1 then None else
          match skip_ws s4 with
          | String "," s5 =>
              let (d2, s6) := span_digits (skip_ws s5) in
              if is_empty d2 then None else
              match skip_ws s6 with
              | String "," s7 =>
                  let (d3, _) := span_digits (skip_ws s7) in
                  if is_empty d3 then None else Some (d1, d2, d3)
              | _ => None
              end
          | _ => None
          end
      | _ => None
      end
  end.

(** [colorStr.match(...)] without anchor: the leftmost position wins. *)
Fixpoint rgbMatch (s : string) : option (string * string * string) :=
  match rgb_at s with
  | Some m => Some m
  | None =>
      match s with
      | String _ s' => rgbMatch s'
      | EmptyString => None
      end
  end.

(** The part of [parseColor] after the named-colour table. *)
Definition parseColor_notation (colorStr : string) : option RGB :=
  let fromRgb :=
    match rgbMatch colorStr with
    | Some (d1, d2, d3) =>
        Some {| r := parseInt10 d1; g := parseInt10 d2; b := parseInt10 d3 |}
    | None => None
    end in
  match hexMatch colorStr with
  | Some hex0 =>
      let hex := if Nat.eqb (String.length hex0) 3 then expand3 hex0 else hex0 in
      if (Nat.eqb (String.length hex) 6 || Nat.eqb (String.length hex) 8)%bool
      then Some {| r := parseInt16 (substr2 0 hex);
                   g := parseInt16 (substr2 2 hex);
                   b := parseInt16 (substr2 4 hex) |}
      else fromRgb
  | None => fromRgb
  end.

(** [parseColor(colorStr)]: a colour, [null], or the [TypeError] of
    calling [match] on a value that is not a string. *)
Definition parseColor (colorStr : string) : Completion (option RGB) :=
  if is_empty colorStr then Normal None else
  let colorStr := toLowerCase (trim colorStr) in
  match namedColors colorStr with
  | OwnString hex => Normal (parseColor_notation hex)
  | OwnNull => Normal None
  | Inherited => Throw "TypeError: colorStr.match is not a function"
  | Undefined => Normal (parseColor_notation colorStr)
  end.

Open Scope R_scope.

(** One channel of [relativeLuminance]. *)
Definition linearize (v : R) : R :=
  if Rle_dec v 0.03928 then v / 12.92
  else Rpower ((v + 0.055) / 1.055) 2.4.

Definition relativeLuminance (c : RGB) : R :=
  0.2126 * linearize (IZR (r c) / 255)
  + 0.7152 * linearize (IZR (g c) / 255)
  + 0.0722 * linearize (IZR (b c) / 255).

Definition contrastRatio (c1 c2 : RGB) : R :=
  let l1 := relativeLuminance c1 in
  let l2 := relativeLuminance c2 in
  let lighter := Rmax l1 l2 in
  let darker := Rmin l1 l2 in
  (lighter + 0.05) / (darker + 0.05).

(** The range of binary64 ends below [2 ^ 1024].  Where the gamma curve
    of a channel reaches that, [Math.pow] gives [Infinity], and so does
    [relativeLuminance], its other two terms being finite and not
    negative. *)
Definition channel_finite (v : Z) : bool :=
  if Rlt_dec (linearize (IZR v / 255)) (2 ^ 1024) then true else false.

Definition luminance_finite (c : RGB) : bool :=
  (channel_finite (r c) && channel_finite (g c) && channel_finite (b c))%bool.

(** [contrastRatio(c1, c2) < t] as the source decides it: with an
    infinite luminance the ratio is [Infinity] or, both being infinite,
    [NaN], and neither is below [t]. *)
Definition ratio_below (c1 c2 : RGB) (t : R) : bool :=
  if (luminance_finite c1 && luminance_finite c2)%bool
  then if Rlt_dec (contrastRatio c1 c2) t then true else false
  else false.

Close Scope R_scope.

End Color.

(* ------------------------------------------------------------------ *)
(** ** The scan engine *)

Module Scan.
Import JsString Catalogue Color.

(** *** What cheerio hands to the rule blocks

    Each record lists what one rule block reads from an element, each
    list is the result of one selector in document order. *)

Record Img := {
  img_alt : option string;
  img_src : option string;
  img_role : option string
}.

(** [h_level] is [parseInt(el.tagName[1])]. *)
Record Heading := { h_level : nat; h_text : string }.

(** [fc_label_for] is [$(`label[for=id]`).length > 0] and [fc_in_label]
    is [$(el).closest('label').length > 0]. *)
Record FormControl := {
  fc_tagName : string;
  fc_type : option string;
  fc_id : option string;
  fc_name : option string;
  fc_aria_label : option string;
  fc_aria_labelledby : option string;
  fc_title : option string;
  fc_label_for : bool;
  fc_in_label : bool
}.

(** [a_has_img_alt] is [$(el).find('img[alt]').length > 0]. *)
Record Link := {
  a_text : string;
  a_href : option string;
  a_aria_label : option string;
  a_aria_labelledby : option string;
  a_title : option string;
  a_has_img_alt : bool
}.

Record Button := {
  b_tagName : string;
  b_text : string;
  b_aria_label : option string;
  b_value : option string;
  b_title : option string
}.

(** [t_value] is [parseInt] of the attribute, [None] for [NaN]. *)
Record Tabbed := { t_tagName : string; t_value : option Z }.

Record Table := { td_count : nat; th_count : nat }.

Record Styled := { s_style : string; s_text : string }.

Record KeyHandled := {
  k_tagName : string;
  k_onkeydown : option string;
  k_onkeypress : option string
}.

Record FocusStyled := { f_tagName : string; f_style : string }.

Record Clickable := {
  c_tagName : string;
  c_role : option string;
  c_tabindex : option string;
  c_onkeydown : option string;
  c_onkeypress : option string;
  c_onkeyup : option string;
  c_text : string
}.

Record Document := {
  imgs : list Img;                       (* $('img') *)
  html_lang : option string;             (* $('html').attr('lang') *)
  html_xml_lang : option string;         (* $('html').attr('xml:lang') *)
  title_text : string;                   (* $('title').text() *)
  headings : list Heading;               (* $('h1,h2,h3,h4,h5,h6') *)
  controls : list FormControl;           (* $('input, select, textarea') *)
  links : list Link;                     (* $('a') *)
  buttons : list Button;                 (* $('button, [role=button], ...') *)
  viewport : option string;              (* meta[name=viewport] content *)
  role_navigation : nat;                 (* $('[role=navigation]').length *)
  main_count : nat;                      (* $('main, [role=main]').length *)
  nav_count : nat;                       (* $('nav, [role=navigation]') *)
  header_count : nat;                    (* $('header, [role=banner]') *)
  footer_count : nat;                    (* $('footer, [role=contentinfo]') *)
  autoplay : list string;                (* tag names of media[autoplay] *)
  tabindexed : list Tabbed;              (* $('[tabindex]') *)
  tables : list Table;                   (* $('table') *)
  metaRefresh : nat;                     (* $('meta[http-equiv=refresh]') *)
  styled : list Styled;                  (* $('[style]') *)
  key_handled : list KeyHandled;         (* $('[onkeydown], [onkeypress]') *)
  focusNoneMatches : list string;        (* stylesheetText.match(/.../gi) *)
  focus_styled : list FocusStyled;       (* $('a[style], button[style], ...') *)
  clickable : list Clickable;            (* $('[onclick]') *)
  form_count : nat                       (* $('form').length *)
}.

(** *** Findings *)

(** The values a template literal of an excerpt interpolates (for a
    contrast excerpt without the ratio printed by [toFixed(1)]). *)
Inductive Excerpt :=
| ExText (text : string)
| ExImg (src : string) (emptyAlt : bool)
| ExSkipped (prev cur : nat) (text : string)
| ExControl (tagName name : string)
| ExLink (href : string)
| ExTag (tagName : string)
| ExTabindex (tagName : string) (val : Z)
| ExContrast (text fg bg : string)
| ExFocusRule (selector : string)
| ExGeneric (text href : string)
| ExNoKeyboard (tag text : string) (noTabindex : bool).

Inductive Details :=
| DCount (n : nat) (what : string)
| DText (text : string).

(** [{ ...rule, elements, count, context }] *)
Record Issue := {
  i_rule : Rule;
  elements : list Excerpt;
  count : nat;
  context : string
}.

(** [{ ...rule, details }] *)
Record Warning := { w_rule : Rule; details : Details }.

(** [{ id, name, wcag, level }] *)
Record Pass := {
  p_id : string;
  p_name : string;
  p_wcag : string;
  p_level : Level
}.

(** The three arrays the rule blocks push to. *)
Record ScanState := {
  issues : list Issue;
  warnings : list Warning;
  passes : list Pass
}.

Definition initial : ScanState :=
  {| issues := []; warnings := []; passes := [] |}.

Definition addIssue (ruleId : RuleId) (els : list Excerpt) (s : ScanState)
  : ScanState :=
  let rule := WCAG_RULES ruleId in
  {| issues := issues s ++ [ {| i_rule := rule;
                                elements := firstn 5 els;
                                count := List.length els;
                                context := "" |} ];
     warnings := warnings s;
     passes := passes s |}.

Definition addWarning (ruleId : RuleId) (dt : Details) (s : ScanState)
  : ScanState :=
  let rule := WCAG_RULES ruleId in
  {| issues := issues s;
     warnings := warnings s ++ [ {| w_rule := rule; details := dt |} ];
     passes := passes s |}.

Definition addPass (ruleId : RuleId) (s : ScanState) : ScanState :=
  let rule := WCAG_RULES ruleId in
  {| issues := issues s;
     warnings := warnings s;
     passes := passes s ++ [ {| p_id := id rule; p_name := name rule;
                                p_wcag := wcag rule; p_level := level rule |} ] |}.

(** *** Pattern matching on attribute text *)

(** An unanchored pattern: [m] tried at every position, left to right. *)
Fixpoint search (m : string -> bool) (s : string) : bool :=
  (m s || match s with
          | String _ s' => search m s'
          | EmptyString => false
          end)%bool.

Definition has_prefix_ci (p s : string) : bool :=
  match strip_prefix_ci p s with Some _ => true | None => false end.

(** [s.includes(p)] *)
Definition includes (p s : string) : bool :=
  search (fun t => match strip_prefix p t with Some _ => true | None => false end) s.

(** [s.match(/p/i)] for a literal [p] in lower case. *)
Definition includes_ci (p s : string) : bool := search (has_prefix_ci p) s.

Definition next_is (c : ascii) (s : string) : bool :=
  match s with String c' _ => Ascii.eqb c c' | EmptyString => false end.

(** [style.match(/color\s*:/i)] *)
Definition color_colon (style : string) : bool :=
  search (fun t => match strip_prefix_ci "color" t with
                   | Some rest => next_is ":" (skip_ws rest)
                   | None => false
                   end) style.

(** [/box-shadow|border/i] *)
Definition has_replacement (s : string) : bool :=
  (includes_ci "box-shadow" s || includes_ci "border" s)%bool.

(** [style.match(/outline\s*:\s*(none|0)/i)] *)
Definition outline_none (style : string) : bool :=
  search (fun t =>
    match strip_prefix_ci "outline" t with
    | Some rest =>
        match skip_ws rest with
        | String ":" v =>
            (has_prefix_ci "none" (skip_ws v) || next_is "0" (skip_ws v))%bool
        | _ => false
        end
    | None => false
    end) style.

(** The capture [\s*([^;]+)] after the colon of a declaration: the value
    up to the next semicolon; when only white space precedes the
    semicolon the pattern backtracks and captures its last character. *)
Definition capture_value (s : string) : option string :=
  match fst (span_until ";" (skip_ws s)) with
  | String c v => Some (String c v)
  | EmptyString =>
      match last_leading_space s with
      | Some c => Some (String c EmptyString)
      | None => None
      end
  end.

(** [\s*color\s*:\s*([^;]+)] tried right after [^] or a semicolon. *)
Definition color_decl_at (s : string) : option string :=
  match strip_prefix_ci "color" (skip_ws s) with
  | Some rest =>
      match skip_ws rest with
      | String ":" v => capture_value v
      | _ => None
      end
  | None => None
  end.

Fixpoint color_after_semicolon (s : string) : option string :=
  match s with
  | EmptyString => None
  | String c s' =>
      match (if Ascii.eqb c ";" then color_decl_at s' else None) with
      | Some v => Some v
      | None => color_after_semicolon s'
      end
  end.

(** [style.match(/(?:^|;)\s*color\s*:\s*([^;]+)/i)], the capture. *)
Definition colorMatch (style : string) : option string :=
  match color_decl_at style with
  | Some v => Some v
  | None => color_after_semicolon style
  end.

(** [background(?:-color)?\s*:\s*([^;]+)] tried at the start of [s]. *)
Definition background_decl_at (s : string) : option string :=
  match strip_prefix_ci "background" s with
  | Some rest =>
      let rest' := match strip_prefix_ci "-color" rest with
                   | Some r => r
                   | None => rest
                   end in
      match skip_ws rest' with
      | String ":" v => capture_value v
      | _ => None
      end
  | None => None
  end.

(** [style.match(/background(?:-color)?\s*:\s*([^;]+)/i)], the capture. *)
Fixpoint bgMatch (style : string) : option string :=
  match background_decl_at style with
  | Some v => Some v
  | None =>
      match style with
      | String _ s' => bgMatch s'
      | EmptyString => None
      end
  end.

(** [a || b] on attribute values. *)
Definition js_or (a b : option string) : option string :=
  if truthy a then a else b.


(** *** The rule blocks of [scanHTML], in source order *)

Definition nonempty {X : Type} (l : list X) : bool :=
  Nat.ltb 0 (List.length l).

(* 1. Images without alt *)
Definition imgsNoAlt (d : Document) : list Excerpt :=
  flat_map (fun el =>
    let src := or_default (img_src el) "" in
    match img_alt el with
    | None => [ExImg (take 80 src) false]
    | Some _ => []
    end) (imgs d).

Definition imgsEmptyAlt (d : Document) : list Excerpt :=
  flat_map (fun el =>
    let src := or_default (img_src el) "" in
    match img_alt el with
    | None => []
    | Some alt =>
        if (is_empty (trim alt) && negb (truthy (img_role el)))%bool
        then [ExImg (take 80 src) true] else []
    end) (imgs d).

Definition check_missing_alt (d : Document) (s : ScanState) : ScanState :=
  if nonempty (imgsNoAlt d) then addIssue missing_alt (imgsNoAlt d) s
  else addPass missing_alt s.

Definition check_empty_alt (d : Document) (s : ScanState) : ScanState :=
  if Nat.ltb 3 (List.length (imgsEmptyAlt d))
  then addWarning empty_alt
         (DCount (List.length (imgsEmptyAlt d)) "images with empty alt") s
  else s.

(* 2. Language *)
Definition lang (d : Document) : option string :=
  js_or (html_lang d) (html_xml_lang d).

Definition lang_missing (d : Document) : bool :=
  match lang d with
  | Some (String c l) => is_empty (trim (String c l))
  | _ => true
  end.

Definition check_missing_lang (d : Document) (s : ScanState) : ScanState :=
  if lang_missing d then addIssue missing_lang [ExText "<html>"] s
  else addPass missing_lang s.

(* 3. Title *)
Definition title (d : Document) : string := trim (title_text d).

Definition check_missing_title (d : Document) (s : ScanState) : ScanState :=
  if is_empty (title d)
  then addIssue missing_title [ExText "<title> element missing"] s
  else addPass missing_title s.

(* 4. Headings *)
Definition check_missing_heading (d : Document) (s : ScanState) : ScanState :=
  if Nat.eqb (List.length (headings d)) 0
  then addIssue missing_heading [ExText "No heading elements found"] s
  else addPass missing_heading s.

(* 5. Skipped heading levels *)
Fixpoint skipped_after (prev : Heading) (rest : list Heading) : list Excerpt :=
  match rest with
  | [] => []
  | h :: rest' =>
      (if Nat.ltb (h_level prev + 1) (h_level h)
       then [ExSkipped (h_level prev) (h_level h) (take 60 (trim (h_text h)))]
       else []) ++ skipped_after h rest'
  end.

Definition skipped (d : Document) : list Excerpt :=
  match headings d with
  | [] => []
  | h :: rest => skipped_after h rest
  end.

Definition check_skipped_heading (d : Document) (s : ScanState) : ScanState :=
  if nonempty (skipped d) then addIssue skipped_heading (skipped d) s
  else if nonempty (headings d) then addPass skipped_heading s
  else s.

(* 6. Form labels *)
Definition excluded_types : list string :=
  ["hidden"; "submit"; "button"; "reset"; "image"].

Definition unlabeled (d : Document) : list Excerpt :=
  flat_map (fun el =>
    let type := or_default (fc_type el) "text" in
    if existsb (String.eqb type) excluded_types then [] else
    let ariaLabel := js_or (fc_aria_label el) (fc_aria_labelledby el) in
    let hasLabel := (truthy (fc_id el) && fc_label_for el)%bool in
    let wrappedInLabel := fc_in_label el in
    if (negb hasLabel && negb wrappedInLabel && negb (truthy ariaLabel)
        && negb (truthy (fc_title el)))%bool
    then [ExControl (fc_tagName el)
            (or_default (js_or (fc_name el) (fc_id el)) type)]
    else []) (controls d).

Definition check_missing_form_label (d : Document) (s : ScanState)
  : ScanState :=
  if nonempty (unlabeled d) then addIssue missing_form_label (unlabeled d) s
  else addPass missing_form_label s.

(* 7. Empty links *)
Definition emptyLinks (d : Document) : list Excerpt :=
  flat_map (fun el =>
    if (is_empty (trim (a_text el)) && negb (truthy (a_aria_label el))
        && negb (truthy (a_aria_labelledby el)) && negb (a_has_img_alt el)
        && negb (truthy (a_title el)))%bool
    then [ExLink (take 60 (or_default (a_href el) ""))]
    else []) (links d).

Definition check_empty_link (d : Document) (s : ScanState) : ScanState :=
  if nonempty (emptyLinks d) then addIssue empty_link (emptyLinks d) s
  else addPass empty_link s.

(* 8. Empty buttons *)
Definition emptyBtns (d : Document) : list Excerpt :=
  flat_map (fun el =>
    if (is_empty (trim (b_text el)) && negb (truthy (b_aria_label el))
        && negb (truthy (b_value el)) && negb (truthy (b_title el)))%bool
    then [ExTag (b_tagName el)] else []) (buttons d).

Definition check_empty_button (d : Document) (s : ScanState) : ScanState :=
  if nonempty (emptyBtns d) then addIssue empty_button (emptyBtns d) s
  else addPass empty_button s.

(* 9. Viewport *)
Definition check_missing_viewport (d : Document) (s : ScanState) : ScanState :=
  if negb (truthy (viewport d))
  then addIssue missing_viewport [ExText "No viewport meta tag"] s
  else addPass missing_viewport s.

(* 10. Skip link *)
Definition hasSkipLink (d : Document) : bool :=
  existsb (fun el =>
    let href := or_default (a_href el) "" in
    let text := toLowerCase (a_text el) in
    (next_is "#" href
     && (includes "skip" text || includes "main content" text
         || includes "jump" text))%bool) (firstn 5 (links d)).

Definition check_no_skip_link (d : Document) (s : ScanState) : ScanState :=
  if (negb (hasSkipLink d) && Nat.ltb 0 (role_navigation d))%bool
  then addWarning no_skip_link (DText "Navigation found but no skip link") s
  else if hasSkipLink d then addPass no_skip_link s
  else s.

(* 11. Landmarks *)
Definition landmarkCount (d : Document) : nat :=
  List.length (filter (fun x : bool => x)
    [ Nat.ltb 0 (main_count d); Nat.ltb 0 (nav_count d);
      Nat.ltb 0 (header_count d); Nat.ltb 0 (footer_count d) ]).

Definition check_missing_landmark (d : Document) (s : ScanState) : ScanState :=
  if Nat.eqb (landmarkCount d) 0
  then addIssue missing_landmark [ExText "No semantic landmarks found"] s
  else addPass missing_landmark s.

(* 12. Auto-playing media *)
Definition autoplayMedia (d : Document) : list Excerpt :=
  map ExTag (autoplay d).

Definition check_autoplay_media (d : Document) (s : ScanState) : ScanState :=
  if nonempty (autoplayMedia d) then addIssue autoplay_media (autoplayMedia d) s
  else addPass autoplay_media s.

(* 13. Positive tabindex *)
Definition posTab (d : Document) : list Excerpt :=
  flat_map (fun el =>
    match t_value el with
    | Some val => if 0 <? val then [ExTabindex (t_tagName el) val] else []
    | None => []
    end) (tabindexed d).

Definition check_tabindex_positive (d : Document) (s : ScanState) : ScanState :=
  if nonempty (posTab d) then addIssue tabindex_positive (posTab d) s
  else addPass tabindex_positive s.

(* 14. Table headers *)
Definition dataTables (d : Document) : list Table :=
  filter (fun el => Nat.ltb 4 (td_count el)) (tables d).

Definition tablesNoHeader (d : Document) : list Excerpt :=
  flat_map (fun el =>
    if Nat.eqb (th_count el) 0 then [ExText "<table> without <th>"] else [])
    (dataTables d).

Definition check_missing_table_header (d : Document) (s : ScanState)
  : ScanState :=
  if nonempty (tablesNoHeader d)
  then addIssue missing_table_header (tablesNoHeader d) s
  else if nonempty (dataTables d) then addPass missing_table_header s
  else s.

(* 15. Meta refresh *)
Definition check_meta_refresh (d : Document) (s : ScanState) : ScanState :=
  if Nat.ltb 0 (metaRefresh d)
  then addIssue meta_refresh
       [ExText ("<meta http-equiv=" ++ quoted "refresh" ++ ">")] s
  else addPass meta_refresh s.

(* 16. Inline color styles (warning only) *)
Definition inlineColorCount (d : Document) : nat :=
  List.length (filter (fun el => color_colon (s_style el)) (styled d)).

Definition check_inline_styles_text (d : Document) (s : ScanState)
  : ScanState :=
  if Nat.ltb 5 (inlineColorCount d)
  then addWarning inline_styles_text
         (DCount (inlineColorCount d) "elements with inline color styles") s
  else s.

(* 17. Color contrast estimation on inline styles *)
Definition contrast_of (el : Styled) : Completion (list Excerpt) :=
  let style := s_style el in
  match colorMatch style, bgMatch style with
  | Some colorExpr, Some bgExpr =>
      fg <- parseColor colorExpr ;;
      bg <- parseColor bgExpr ;;
      match fg, bg with
      | Some fg, Some bg =>
          if ratio_below fg bg 4.5
          then
            let text := take 40 (trim (s_text el)) in
            Normal [ExContrast (if is_empty text then "(element)" else text)
                      (trim colorExpr) (trim bgExpr)]
          else Normal []
      | _, _ => Normal []
      end
  | _, _ => Normal []
  end.

Definition contrastIssues (d : Document) : Completion (list Excerpt) :=
  found <- mapM contrast_of (styled d) ;; Normal (List.concat found).

Definition check_color_contrast_inline (d : Document) (s : ScanState)
  : Completion ScanState :=
  found <- contrastIssues d ;;
  Normal (if nonempty found then addIssue color_contrast_inline found s
          else addPass color_contrast_inline s).

(* 18. Keyboard trap detection *)
Definition trapElements (d : Document) : list Excerpt :=
  flat_map (fun el =>
    let handler := (or_default (k_onkeydown el) "" ++ or_default (k_onkeypress el) "")%string in
    if (includes_ci "preventdefault" handler
        && negb (includes_ci "tab" handler || includes_ci "escape" handler
                 || includes "27" handler || includes "9" handler))%bool
    then [ExTag (k_tagName el)] else []) (key_handled d).

Definition check_keyboard_trap (d : Document) (s : ScanState) : ScanState :=
  if nonempty (trapElements d) then addIssue keyboard_trap (trapElements d) s
  else addPass keyboard_trap s.

(* 19. Focus styles suppressed *)
Definition focusSuppressed (d : Document) : list Excerpt :=
  flat_map (fun m =>
    if negb (has_replacement m)
    then [ExFocusRule (take 60 (trim (fst (span_until "{" m))))]
    else []) (focusNoneMatches d)
  ++
  flat_map (fun el =>
    if (outline_none (f_style el) && negb (has_replacement (f_style el)))%bool
    then [ExTag (f_tagName el)] else []) (focus_styled d).

Definition check_missing_focus_style (d : Document) (s : ScanState)
  : ScanState :=
  if nonempty (focusSuppressed d)
  then addIssue missing_focus_style (focusSuppressed d) s
  else addPass missing_focus_style s.

(* 20. Generic/ambiguous link text *)
Definition genericPhrases : list string :=
  ["click here"; "here"; "read more"; "learn more"; "more"; "link"; "this";
   "go"; "details"; "continue"].

Definition genericLinks (d : Document) : list Excerpt :=
  flat_map (fun el =>
    let text := toLowerCase (trim (a_text el)) in
    if (negb (is_empty text) && existsb (String.eqb text) genericPhrases)%bool
    then [ExGeneric text (take 40 (or_default (a_href el) ""))]
    else []) (links d).

Definition check_generic_link_text (d : Document) (s : ScanState) : ScanState :=
  if nonempty (genericLinks d) then addIssue generic_link_text (genericLinks d) s
  else addPass generic_link_text s.

(* 21. Non-interactive elements with onclick but no keyboard access *)
Definition interactiveTags : list string :=
  ["a"; "button"; "input"; "select"; "textarea"; "summary"].

Definition noKeyboard (d : Document) : list Excerpt :=
  flat_map (fun el =>
    let tag := toLowerCase (c_tagName el) in
    let role := or_default (c_role el) "" in
    if (negb (existsb (String.eqb tag) interactiveTags)
        && negb (String.eqb role "button") && negb (String.eqb role "link"))%bool
    then
      let hasTabindex := match c_tabindex el with Some _ => true | None => false end in
      let hasKeyHandler :=
        truthy (js_or (js_or (c_onkeydown el) (c_onkeypress el)) (c_onkeyup el)) in
      if (negb hasTabindex || negb hasKeyHandler)%bool
      then [ExNoKeyboard tag (take 40 (trim (c_text el))) (negb hasTabindex)]
      else []
    else []) (clickable d).

Definition check_missing_keyboard_access (d : Document) (s : ScanState)
  : ScanState :=
  if nonempty (noKeyboard d)
  then addIssue missing_keyboard_access (noKeyboard d) s
  else addPass missing_keyboard_access s.

(** *** Score and compliance level *)

(** An array length as a Number. *)
Definition number (n : nat) : float :=
  PrimFloat.of_uint63 (Uint63.of_Z (Z.of_nat n)).

(** [Math.round]: the nearest integer, a tie going up.  The value of a
    finite binary64 number is [m * 2^e] exactly.  (By convention 0 on
    [NaN] and the infinities, which a quotient of two lengths is not.) *)
Definition Math_round (x : float) : Z :=
  match Prim2SF x with
  | S754_finite sign m e =>
      let v := if sign then Z.neg m else Z.pos m in
      if 0 <=? e then v * 2 ^ e
      else (2 * v + 2 ^ (- e)) / 2 ^ (- e + 1)
  | _ => 0
  end.

(** [totalChecks > 0 ? Math.round((passes.length / totalChecks) * 100) : 0] *)
Definition score_of (passed issued : nat) : Z :=
  let totalChecks := (issued + passed)%nat in
  if Nat.ltb 0 totalChecks
  then Math_round (PrimFloat.mul (PrimFloat.div (number passed) (number totalChecks))
                                 (number 100))
  else 0.

Inductive ComplianceLevel :=
| compliant | needs_improvement | partially_compliant | non_compliant.

Definition count_impact (i : Impact) (l : list Issue) : nat :=
  List.length (filter (fun x => impact_eqb (impact (i_rule x)) i) l).

Definition complianceLevel_of (l : list Issue) : ComplianceLevel :=
  let criticalIssues := count_impact critical l in
  let seriousIssues := count_impact serious l in
  if Nat.ltb 0 criticalIssues then non_compliant
  else if Nat.ltb 1 seriousIssues then partially_compliant
  else if Nat.ltb 0 (List.length l) then needs_improvement
  else compliant.

Record Summary := {
  totalChecks : nat;
  passed : nat;
  sum_issues : nat;
  sum_warnings : nat;
  sum_critical : nat;
  sum_serious : nat;
  sum_moderate : nat;
  sum_minor : nat
}.

Record PageInfo := {
  pi_title : string;
  pi_lang : string;
  headingCount : nat;
  imageCount : nat;
  linkCount : nat;
  formCount : nat;
  landmarks : nat
}.

Record ScanResult := {
  url : string;
  scannedAt : Z;
  score : Z;
  complianceLevel : ComplianceLevel;
  summary : Summary;
  r_issues : list Issue;
  r_warnings : list Warning;
  r_passes : list Pass;
  pageInfo : PageInfo
}.

(** The part of [scanHTML] before check 17. *)
Definition checks_1_16 (d : Document) (s : ScanState) : ScanState :=
  let s := check_missing_alt d s in
  let s := check_empty_alt d s in
  let s := check_missing_lang d s in
  let s := check_missing_title d s in
  let s := check_missing_heading d s in
  let s := check_skipped_heading d s in
  let s := check_missing_form_label d s in
  let s := check_empty_link d s in
  let s := check_empty_button d s in
  let s := check_missing_viewport d s in
  let s := check_no_skip_link d s in
  let s := check_missing_landmark d s in
  let s := check_autoplay_media d s in
  let s := check_tabindex_positive d s in
  let s := check_missing_table_header d s in
  let s := check_meta_refresh d s in
  check_inline_styles_text d s.

(** The part after it. *)
Definition checks_18_21 (d : Document) (s : ScanState) : ScanState :=
  let s := check_keyboard_trap d s in
  let s := check_missing_focus_style d s in
  let s := check_generic_link_text d s in
  check_missing_keyboard_access d s.

Definition run_checks (d : Document) : Completion ScanState :=
  s <- check_color_contrast_inline d (checks_1_16 d initial) ;;
  Normal (checks_18_21 d s).

(** The record [scanHTML] returns once the checks have run. *)
Definition report (d : Document) (url : string) (now : Z) (s : ScanState)
  : ScanResult :=
  let totalChecks := (List.length (issues s) + List.length (passes s))%nat in
  let criticalIssues := count_impact critical (issues s) in
  let seriousIssues := count_impact serious (issues s) in
  {| url := url;
     scannedAt := now;
     score := score_of (List.length (passes s)) (List.length (issues s));
     complianceLevel := complianceLevel_of (issues s);
     summary := {| totalChecks := totalChecks;
                   passed := List.length (passes s);
                   sum_issues := List.length (issues s);
                   sum_warnings := List.length (warnings s);
                   sum_critical := criticalIssues;
                   sum_serious := seriousIssues;
                   sum_moderate := count_impact moderate (issues s);
                   sum_minor := count_impact minor (issues s) |};
     r_issues := issues s;
     r_warnings := warnings s;
     r_passes := passes s;
     pageInfo := {| pi_title := if is_empty (title d) then "(no title)" else title d;
                    pi_lang := or_default (lang d) "(not set)";
                    headingCount := List.length (headings d);
                    imageCount := List.length (imgs d);
                    linkCount := List.length (links d);
                    formCount := form_count d;
                    landmarks := landmarkCount d |} |}.

(** [scanHTML(html, url)], with [d] the document [cheerio.load(html)]
    gives and [now] the clock reading of [new Date()]. *)
Definition scanHTML (d : Document) (url : string) (now : Z)
  : Completion ScanResult :=
  s <- run_checks d ;; Normal (report d url now s).

End Scan.

(* ------------------------------------------------------------------ *)
(** ** The page fetcher *)

Module Fetch.
Import JsString.

(** How a pending request can fail without a response event. *)
Inductive Failure :=
| TimerFired                     (** the [setTimeout] guard runs *)
| RequestError (e : string)      (** [req.on('error')] *)
| RequestTimeout.                (** [req.on('timeout')] *)

(** What happens after the response callback has registered its
    listeners, in the order of arrival. *)
Inductive BodyEvent :=
| Data (chunk : string)          (** [res.on('data')] *)
| EndOfBody                      (** [res.on('end')] *)
| ResponseError (e : string)     (** [res.on('error')] *)
| Interrupted (f : Failure).

Record Response := {
  statusCode : Z;
  location : option string;      (** [res.headers.location] *)
  body : list BodyEvent
}.

Inductive Exchange :=
| NoResponse (f : Failure)
| Responded (res : Response).

(** The messages of the errors [fetchHTML] rejects with. *)
Inductive FetchError :=
| InvalidURL (urlStr : string)   (** 'Invalid URL: ' + urlStr *)
| RequestTimedOut                (** 'Request timed out after 15s' *)
| TooManyRedirects               (** 'Too many redirects' *)
| InvalidRedirectURL             (** 'Invalid redirect URL' *)
| HttpStatus (code : Z)          (** 'HTTP ' + res.statusCode *)
| ResponseTooLarge               (** 'Response too large (>5MB)' *)
| ConnectionTimedOut             (** 'Connection timed out' *)
| Raised (e : string).           (** an error object passed through *)

(** How the promise settles; only the first settlement counts. *)
Inductive Settled :=
| Resolved (data : string)
| Rejected (e : FetchError).

Definition failure (f : Failure) : FetchError :=
  match f with
  | TimerFired => RequestTimedOut
  | RequestError e => Raised e
  | RequestTimeout => ConnectionTimedOut
  end.

(** [5 * 1024 * 1024], compared with [data.length]. *)
Definition maxBytes : Z := 5 * 1024 * 1024.

(** The listeners on [res]: [data] accumulates the chunks.  When nothing
    more arrives the guard timer, still armed, is what settles. *)
Fixpoint read_body (data : string) (events : list BodyEvent) : Settled :=
  match events with
  | [] => Rejected RequestTimedOut
  | Data chunk :: events' =>
      let data := (data ++ chunk)%string in
      if maxBytes <? Z.of_nat (String.length data)
      then Rejected ResponseTooLarge
      else read_body data events'
  | EndOfBody :: _ => Resolved data
  | ResponseError e :: _ => Rejected (Raised e)
  | Interrupted f :: _ => Rejected (failure f)
  end.

(** [urlStr.match(/^https?:\/\//i)] *)
Definition has_scheme (urlStr : string) : bool :=
  match strip_prefix_ci "http" urlStr with
  | Some rest =>
      let rest := match rest with
                  | String c rest' =>
                      if Ascii.eqb (fold_char c) "s" then rest' else rest
                  | EmptyString => rest
                  end in
      match strip_prefix "://" rest with Some _ => true | None => false end
  | None => false
  end.

Section Fetcher.

(** Node's [URL]: [new URL(s).href], [new URL(loc, base).href] (with
    [None] when the constructor throws) and the [protocol] of an href. *)
Variable parse_url : string -> option string.
Variable resolve_url : string -> string -> option string.
Variable protocol_of : string -> string.

(** The network: what the [n]-th request of this fetch, sent to the
    given href, leads to. *)
Variable exchange : nat -> string -> Exchange.

(** [protocol] is chosen once, from the first URL.  Node's [get] checks
    the protocol of the href against its module when the request is
    created and throws [ERR_INVALID_PROTOCOL] at once when they differ; in
    the redirect branch that throw lands in the [catch]. *)
Definition get_throws (module_protocol fetchUrl : string) : bool :=
  negb (String.eqb (protocol_of fetchUrl) module_protocol).

Definition is_redirect (res : Response) : bool :=
  ((300 <=? statusCode res) && (statusCode res <? 400)
   && truthy (location res))%bool.

(** [doFetch(fetchUrl)] with the counter [redirects] of its closure.
    The chain ends because the counter only grows and stops at 6. *)
Equations doFetch (module_protocol : string) (redirects : nat)
  (fetchUrl : string) : Completion Settled by wf (6 - redirects)%nat lt :=
doFetch module_protocol redirects fetchUrl
  with get_throws module_protocol fetchUrl := {
  | true => Throw "TypeError [ERR_INVALID_PROTOCOL]"
  | false with exchange redirects fetchUrl := {
    | NoResponse f => Normal (Rejected (failure f))
    | Responded res with is_redirect res := {
      | true with inspect (Nat.ltb 5 (S redirects)) := {
        | exist _ true _ => Normal (Rejected TooManyRedirects)
        | exist _ false _
            with resolve_url (or_default (location res) "") fetchUrl := {
          | None => Normal (Rejected InvalidRedirectURL)
          | Some href =>
              match doFetch module_protocol (S redirects) href with
              | Throw _ => Normal (Rejected InvalidRedirectURL)
              | Normal settled => Normal settled
              end } }
      | false =>
          if negb (statusCode res =? 200)
          then Normal (Rejected (HttpStatus (statusCode res)))
          else Normal (read_body "" (body res)) } } }.
Next Obligation.
  apply PeanoNat.Nat.ltb_ge in e.
  do 5 (destruct redirects as [|redirects]; [cbn; lia|]). lia.
Qed.

(** [fetchHTML(urlStr)]: how the returned promise settles. *)
Definition fetchHTML (urlStr : string) : Settled :=
  let urlStr := if has_scheme urlStr then urlStr
                else ("https://" ++ urlStr)%string in
  match parse_url urlStr with
  | None => Rejected (InvalidURL urlStr)
  | Some href =>
      let module_protocol :=
        if String.eqb (protocol_of href) "https:" then "https:" else "http:" in
      match doFetch module_protocol 0 href with
      | Throw e => Rejected (Raised e)
      | Normal settled => settled
      end
  end.

End Fetcher.

End Fetch.

(* ------------------------------------------------------------------ *)
(** ** The scan store and the history with diffs *)

Module History.
Import JsString Catalogue.

(** [{ id: uuidv4(), ...result }] *)
Record ScanRecord := { rec_id : string; result : Scan.ScanResult }.

(** [scan.issues.map(iss => iss.id)] *)
Definition issueIds (scan : ScanRecord) : list string :=
  map (fun iss => id (Scan.i_rule iss)) (Scan.r_issues (result scan)).

(** A [Set] of strings keeps its members in insertion order. *)
Definition has (set : list string) (x : string) : bool :=
  existsb (String.eqb x) set.

Definition add (set : list string) (x : string) : list string :=
  if has set x then set else set ++ [x].

(** [new Set(l)] *)
Definition new_Set (l : list string) : list string := fold_left add l [].

(** [entry.diff]; the display names [fixedNames] and [newNames] are
    left out. *)
Record Diff := {
  scoreChange : Z;
  issuesFixed : list string;
  issuesFixedCount : nat;
  newIssues : list string;
  newIssuesCount : nat
}.

Record Entry := {
  e_id : string;
  e_date : Z;
  e_score : Z;
  e_complianceLevel : Scan.ComplianceLevel;
  e_issueCount : nat;
  e_critical : nat;
  e_serious : nat;
  e_passed : nat;
  e_issueIds : list string;
  e_diff : option Diff
}.

Definition diff_of (prev scan : ScanRecord) : Diff :=
  let prevIssueIds := new_Set (issueIds prev) in
  let currIssueIds := new_Set (issueIds scan) in
  let fixed := filter (fun x => negb (has currIssueIds x)) prevIssueIds in
  let newIssues := filter (fun x => negb (has prevIssueIds x)) currIssueIds in
  {| scoreChange := Scan.score (result scan) - Scan.score (result prev);
     issuesFixed := fixed;
     issuesFixedCount := List.length fixed;
     newIssues := newIssues;
     newIssuesCount := List.length newIssues |}.

(** The callback of [urlScans.map((scan, i) => ...)]; [prev] is
    [urlScans[i - 1]] when [i > 0]. *)
Definition entry_of (prev : option ScanRecord) (scan : ScanRecord) : Entry :=
  let r := result scan in
  {| e_id := rec_id scan;
     e_date := Scan.scannedAt r;
     e_score := Scan.score r;
     e_complianceLevel := Scan.complianceLevel r;
     e_issueCount := Scan.sum_issues (Scan.summary r);
     e_critical := Scan.sum_critical (Scan.summary r);
     e_serious := Scan.sum_serious (Scan.summary r);
     e_passed := Scan.passed (Scan.summary r);
     e_issueIds := issueIds scan;
     e_diff := match prev with
               | Some p => Some (diff_of p scan)
               | None => None
               end |}.

Fixpoint entries (prev : option ScanRecord) (urlScans : list ScanRecord)
  : list Entry :=
  match urlScans with
  | [] => []
  | scan :: rest => entry_of prev scan :: entries (Some scan) rest
  end.

Inductive HistoryResponse :=
| BadRequest                                       (** 400 'Invalid URL' *)
| NoScans (url domain : string)
| Found (url domain : string) (totalScans : nat)
    (history : list Entry) (latestDiff : option Diff).

Section Handler.

(** [new URL(s).hostname], [None] when the constructor throws. *)
Variable hostname : string -> option string.

Definition same_host (domain : string) (s : ScanRecord) : bool :=
  match hostname (Scan.url (result s)) with
  | Some h => String.eqb h domain
  | None => false
  end.

(** [scanHistory.filter(...)]: the records of one hostname. *)
Definition urlScans_of (scanHistory : list ScanRecord) (domain : string)
  : list ScanRecord :=
  filter (same_host domain) scanHistory.

(** [app.get('/api/scan-history/:encodedUrl')], with [decoded] the
    value of [decodeURIComponent(req.params.encodedUrl)]. *)
Definition scan_history (scanHistory : list ScanRecord) (decoded : string)
  : HistoryResponse :=
  let targetUrl := trim decoded in
  let targetUrl := if Fetch.has_scheme targetUrl then targetUrl
                   else ("https://" ++ targetUrl)%string in
  match hostname targetUrl with
  | None => BadRequest
  | Some domain =>
      let urlScans := urlScans_of scanHistory domain in
      if Nat.eqb (List.length urlScans) 0 then NoScans targetUrl domain
      else
        let history := entries None urlScans in
        let latestDiff :=
          if Nat.leb 2 (List.length history)
          then match nth_error history (List.length history - 1) with
               | Some e => e_diff e
               | None => None
               end
          else None in
        Found targetUrl domain (List.length history) history latestDiff
  end.

End Handler.

End History.

(* ------------------------------------------------------------------ *)
(** ** The monitor registry and the scheduler *)

Module Monitor.
Import JsString History.

Record Monitor := {
  m_id : string;
  m_url : string;
  m_email : string;
  frequency : string;
  active : bool;
  createdAt : Z;
  updatedAt : option Z;
  lastScanAt : option Z;
  lastScore : option Z;
  nextScanAt : option Z
}.

Definition set_frequency (f : string) (now : Z) (m : Monitor) : Monitor :=
  {| m_id := m_id m; m_url := m_url m; m_email := m_email m;
     frequency := f; active := true;
     createdAt := createdAt m; updatedAt := Some now;
     lastScanAt := lastScanAt m; lastScore := lastScore m;
     nextScanAt := nextScanAt m |}.

Definition set_scanned (now score next : Z) (m : Monitor) : Monitor :=
  {| m_id := m_id m; m_url := m_url m; m_email := m_email m;
     frequency := frequency m; active := active m;
     createdAt := createdAt m; updatedAt := updatedAt m;
     lastScanAt := Some now; lastScore := Some score;
     nextScanAt := Some next |}.

(** [daily ? 24h : monthly ? 30d : 7d], the expression of the
    registration and of the scheduler in the current server. *)
Definition intervalMs (frequency : string) : Z :=
  if String.eqb frequency "daily" then 24*60*60*1000
  else if String.eqb frequency "monthly" then 30*24*60*60*1000
  else 7*24*60*60*1000.

(** [daily ? 24h : 7d], the expression of [runScheduledScans] in the two
    older copies of the server kept in the repository (the one bundled
    with [src/routes/webhook.js] and one more). *)
Definition intervalMs_older (frequency : string) : Z :=
  if String.eqb frequency "daily" then 24*60*60*1000
  else 7*24*60*60*1000.

(** *** Registration *)

(** [[^\s@]] *)
Definition plain (c : ascii) : bool :=
  negb (is_space c || Ascii.eqb c "@")%bool.

Fixpoint span_plain (s : string) : string * string :=
  match s with
  | EmptyString => (EmptyString, EmptyString)
  | String c s' =>
      if plain c
      then let (v, rest) := span_plain s' in (String c v, rest)
      else (EmptyString, s)
  end.

(** A dot with at least one character after it. *)
Fixpoint dot_then_more (s : string) : bool :=
  match s with
  | String c s' =>
      ((Ascii.eqb c "." && negb (is_empty s')) || dot_then_more s')%bool
  | EmptyString => false
  end.

(** [email.match(/^[^\s@]+@[^\s@]+\.[^\s@]+$/)] *)
Definition valid_email (email : string) : bool :=
  match span_plain email with
  | (String _ _, String "@" (String c domain)) =>
      (all_chars plain (String c domain) && dot_then_more domain)%bool
  | _ => false
  end.

Inductive RegisterResponse :=
| Status400 (error : string)
| MonitorUpdated (monitor : Monitor)
| MonitorRegistered (monitor : Monitor).

(** [monitors.find(p)] followed by assignments to the object found: the
    first element that satisfies [p] is replaced by its update. *)
Fixpoint update_first (p : Monitor -> bool) (f : Monitor -> Monitor)
  (l : list Monitor) : list Monitor :=
  match l with
  | [] => []
  | m :: l' => if p m then f m :: l' else m :: update_first p f l'
  end.

Section Registry.

(** [new URL(s)] succeeds. *)
Variable url_parses : string -> bool.

(** [app.post('/api/monitor')]: [now] is the clock, [fresh] the
    result of [uuidv4()], the triple [url], [email], [freq] the request
    body.  [saveMonitors] mirrors the array to disk and leaves it as it
    is. *)
Definition register (now : Z) (fresh : string) (monitors : list Monitor)
  (url email : string) (freq : option string)
  : list Monitor * RegisterResponse :=
  if (is_empty url || is_empty email)%bool
  then (monitors, Status400 "URL and email are required")
  else if negb (valid_email email)
  then (monitors, Status400 "Invalid email address")
  else
    let normalizedUrl := trim url in
    let normalizedUrl :=
      if Fetch.has_scheme normalizedUrl then normalizedUrl
      else ("https://" ++ normalizedUrl)%string in
    if negb (url_parses normalizedUrl)
    then (monitors, Status400 "Invalid URL")
    else
      let same m := (String.eqb (m_url m) normalizedUrl
                     && String.eqb (m_email m) email)%bool in
      match find same monitors with
      | Some existing =>
          let upd := set_frequency (or_default freq "weekly") now in
          (update_first same upd monitors, MonitorUpdated (upd existing))
      | None =>
          let monitor :=
            {| m_id := fresh;
               m_url := normalizedUrl;
               m_email := toLowerCase (trim email);
               frequency := or_default freq "weekly";
               active := true;
               createdAt := now;
               updatedAt := None;
               lastScanAt := None;
               lastScore := None;
               nextScanAt :=
                 Some (now + match freq with
                             | Some f => intervalMs f
                             | None => 7*24*60*60*1000
                             end) |} in
          (monitors ++ [monitor], MonitorRegistered monitor)
      end.

End Registry.

(** *** The scheduler *)

Inductive Cause :=
| FetchFailed (e : Fetch.FetchError)   (** [fetchHTML] rejected *)
| ScanThrew (e : string)               (** [scanHTML] threw *)
| HistoryWriteFailed                   (** [saveHistory] threw *)
| MonitorsWriteFailed.                 (** [saveMonitors] threw *)

Inductive Attempt :=
| Completed (score : Z)
| Caught (c : Cause).

(** [saveHistory] keeps the last 1000 records before it writes. *)
Definition keep_last_1000 (h : list ScanRecord) : list ScanRecord :=
  if Nat.ltb 1000 (List.length h) then skipn (List.length h - 1000) h else h.

(** [!monitor.active] or [nextScanAt] still ahead: the loop continues
    with the next monitor. *)
Definition not_due (now : Z) (m : Monitor) : bool :=
  (negb (active m)
   || match nextScanAt m with
      | Some t => now <? t
      | None => false
      end)%bool.

Section Scheduler.

(** The world of one tick: how the fetch of a URL settles, the document
    cheerio builds, the clock at the scan of the [i]-th monitor, the
    identifiers [uuidv4] hands out, and whether the two
    [fs.writeFileSync] calls made for the [i]-th monitor succeed. *)
Variable fetchHTML : string -> Fetch.Settled.
Variable cheerio_load : string -> Scan.Document.
Variable clock : nat -> Z.
Variable uuidv4 : nat -> string.
Variable history_write_ok : nat -> bool.
Variable monitors_write_ok : nat -> bool.

(** The conditional that computes [intervalMs] from the frequency. *)
Variable interval : string -> Z.

(** The [try] block for the [i]-th monitor, and the [catch] that only
    logs: the monitor and the history as they are afterwards. *)
Definition try_scan (now : Z) (i : nat) (m : Monitor) (h : list ScanRecord)
  : Monitor * list ScanRecord * Attempt :=
  match fetchHTML (m_url m) with
  | Fetch.Rejected e => (m, h, Caught (FetchFailed e))
  | Fetch.Resolved html =>
      match Scan.scanHTML (cheerio_load html) (m_url m) (clock i) with
      | Throw e => (m, h, Caught (ScanThrew e))
      | Normal result =>
          let scanRecord := {| rec_id := uuidv4 i; result := result |} in
          let h := keep_last_1000 (h ++ [scanRecord]) in
          if negb (history_write_ok i)
          then (m, h, Caught HistoryWriteFailed)
          else
            let m := set_scanned now (Scan.score result)
                       (now + interval (frequency m)) m in
            if negb (monitors_write_ok i)
            then (m, h, Caught MonitorsWriteFailed)
            else (m, h, Completed (Scan.score result))
      end
  end.

(** The body of the [for] loop. *)
Definition visit (now : Z) (i : nat) (m : Monitor) (h : list ScanRecord)
  : Monitor * list ScanRecord :=
  if not_due now m then (m, h) else fst (try_scan now i m h).

(** [for (const monitor of monitors)] from index [i] on. *)
Fixpoint run_from (now : Z) (i : nat) (monitors : list Monitor)
  (h : list ScanRecord) : list Monitor * list ScanRecord :=
  match monitors with
  | [] => ([], h)
  | m :: rest =>
      let (m', h') := visit now i m h in
      let (rest', h'') := run_from now (S i) rest h' in
      (m' :: rest', h'')
  end.

(** [runScheduledScans()] at clock reading [now]. *)
Definition runScheduledScans (now : Z) (monitors : list Monitor)
  (scanHistory : list ScanRecord) : list Monitor * list ScanRecord :=
  run_from now 0 monitors scanHistory.

End Scheduler.

End Monitor.

(* ------------------------------------------------------------------ *)
(** ** Vocabulary of the properties *)

Module Outcomes.
Import JsString Catalogue Scan.

(** The nearest integer to [n / d] for [d > 0], a tie going up. *)
Definition nearest (n d : Z) : Z := (2 * n + d) / (2 * d).

(** [score_of] agrees with [nearest] on every split of [t] checks. *)
Definition score_row_ok (t : nat) : bool :=
  forallb (fun p =>
    score_of p (t - p) =? (if Nat.eqb t 0 then 0
                           else nearest (100 * Z.of_nat p) (Z.of_nat t)))
    (seq 0 (S t)).

(** What one rule contributes to a scan. *)
Inductive Outcome :=
| OIssue (els : list Excerpt)
| OPass
| OWarning (dt : Details)
| ONone.

Definition record (k : RuleId) (o : Outcome) (s : ScanState) : ScanState :=
  match o with
  | OIssue els => addIssue k els s
  | OPass => addPass k s
  | OWarning dt => addWarning k dt s
  | ONone => s
  end.

(** The rules in the order in which [scanHTML] evaluates them. *)
Definition evaluated : list RuleId :=
  [ missing_alt; empty_alt; missing_lang; missing_title; missing_heading;
    skipped_heading; missing_form_label; empty_link; empty_button;
    missing_viewport; no_skip_link; missing_landmark; autoplay_media;
    tabindex_positive; missing_table_header; meta_refresh;
    inline_styles_text; color_contrast_inline; keyboard_trap;
    missing_focus_style; generic_link_text; missing_keyboard_access ].

(** The guard under which a rule is judged, that is, ends in an Issue or
    a Pass: always for most rules, with headings for the skipped-level
    rule, with data tables for the table-header rule, with a skip link for
    the skip-link rule, never for the two warning-only rules and for the
    catalogue entry no block evaluates. *)
Definition applicable (d : Document) (k : RuleId) : bool :=
  match k with
  | skipped_heading => nonempty (headings d)
  | missing_table_header => nonempty (dataTables d)
  | no_skip_link => hasSkipLink d
  | empty_alt | inline_styles_text | low_contrast_text => false
  | _ => true
  end.

(** The guard under which a rule ends in a Warning. *)
Definition warned (d : Document) (k : RuleId) : bool :=
  match k with
  | empty_alt => Nat.ltb 3 (List.length (imgsEmptyAlt d))
  | no_skip_link => (negb (hasSkipLink d) && Nat.ltb 0 (role_navigation d))%bool
  | inline_styles_text => Nat.ltb 5 (inlineColorCount d)
  | _ => false
  end.

(** An outcome that fits the guards of its rule. *)
Definition fits (d : Document) (k : RuleId) (o : Outcome) : Prop :=
  match o with
  | OIssue els => applicable d k = true /\ els <> []
  | OPass => applicable d k = true
  | OWarning _ => warned d k = true
  | ONone => applicable d k = false /\ warned d k = false
  end.

(** [Trace d ks s s']: from [s], one fitting outcome per rule of [ks],
    recorded in order, gives [s']. *)
Inductive Trace (d : Document) : list RuleId -> ScanState -> ScanState -> Prop :=
| Trace_nil : forall s, Trace d [] s s
| Trace_cons : forall k ks o s s',
    fits d k o -> Trace d ks (record k o s) s' -> Trace d (k :: ks) s s'.

Definition is_rule (k : RuleId) (ident : string) : bool :=
  String.eqb ident (id (WCAG_RULES k)).

(** How many Issues, Passes and Warnings carry the identifier of [k]. *)
Definition issue_count (k : RuleId) (l : list Issue) : nat :=
  List.length (filter (fun x => is_rule k (id (i_rule x))) l).
Definition pass_count (k : RuleId) (l : list Pass) : nat :=
  List.length (filter (fun x => is_rule k (p_id x)) l).
Definition warning_count (k : RuleId) (l : list Warning) : nat :=
  List.length (filter (fun x => is_rule k (id (w_rule x))) l).

Definition ruleId_eqb (a b : RuleId) : bool :=
  is_rule a (id (WCAG_RULES b)).

(** A page with nothing on it. *)
Definition blank : Document :=
  {| imgs := []; html_lang := None; html_xml_lang := None;
     title_text := ""; headings := []; controls := []; links := [];
     buttons := []; viewport := None; role_navigation := 0;
     main_count := 0; nav_count := 0; header_count := 0; footer_count := 0;
     autoplay := []; tabindexed := []; tables := []; metaRefresh := 0;
     styled := []; key_handled := []; focusNoneMatches := [];
     focus_styled := []; clickable := []; form_count := 0 |}.

(** The same page with one element of the given inline style. *)
Definition with_style (style text : string) : Document :=
  {| imgs := []; html_lang := None; html_xml_lang := None;
     title_text := ""; headings := []; controls := []; links := [];
     buttons := []; viewport := None; role_navigation := 0;
     main_count := 0; nav_count := 0; header_count := 0; footer_count := 0;
     autoplay := []; tabindexed := []; tables := []; metaRefresh := 0;
     styled := [ {| s_style := style; s_text := text |} ];
     key_handled := []; focusNoneMatches := [];
     focus_styled := []; clickable := []; form_count := 0 |}.

(** The shape every rule block has. *)
Definition block_of (d : Document) (k : RuleId) (f : ScanState -> ScanState)
  : Prop :=
  forall s, exists o, f s = record k o s /\ fits d k o.

Definition judged (k : RuleId) (s : ScanState) : nat :=
  (issue_count k (issues s) + pass_count k (passes s))%nat.

Definition bump (b : bool) : nat := if b then 1%nat else 0%nat.

(** An Issue stands for at least one violation. *)
Definition founded (i : Issue) : Prop :=
  (1 <= count i)%nat /\ elements i <> [].

Definition gray : Color.RGB := {| Color.r := 119; Color.g := 119; Color.b := 119 |}.
Definition white : Color.RGB := {| Color.r := 255; Color.g := 255; Color.b := 255 |}.

Definition gray_on_white : Styled :=
  {| s_style := "color:#777;background-color:#fff"; s_text := "text" |}.

End Outcomes.


Module ContrastSpec.
Import JsString Color Scan.

Local Open Scope R_scope.

(** The contrast ratio in the words of the specification: each channel,
    scaled to 0-1, is linearized by the sRGB piecewise transform (linear
    below 0.03928, the power curve of exponent 2.4 above); the relative
    luminance combines the channels with the weights 0.2126, 0.7152 and
    0.0722; the ratio is the lighter luminance plus 0.05 over the darker
    luminance plus 0.05. *)
Definition wcag_linear (v : R) : R :=
  if Rle_dec v 0.03928 then v / 12.92
  else exp (2.4 * ln ((v + 0.055) / 1.055)).

Definition wcag_luminance (c : RGB) : R :=
  0.2126 * wcag_linear (IZR (r c) / 255)
  + 0.7152 * wcag_linear (IZR (g c) / 255)
  + 0.0722 * wcag_linear (IZR (b c) / 255).

Definition wcag_ratio (a b : RGB) : R :=
  if Rle_dec (wcag_luminance a) (wcag_luminance b)
  then (wcag_luminance b + 0.05) / (wcag_luminance a + 0.05)
  else (wcag_luminance a + 0.05) / (wcag_luminance b + 0.05).

(** The colours whose channels are integers that binary64 holds exactly:
    for these [parseInt] gives the number written.  All colours of the
    hexadecimal notations and of the named table are among them. *)
Definition exact_channels (c : RGB) : Prop :=
  (0 <= r c <= 9007199254740992
   /\ 0 <= g c <= 9007199254740992
   /\ 0 <= b c <= 9007199254740992)%Z.

(** A colour with a channel of 140 digits or more, far beyond the values
    whose luminance binary64 can hold. *)
Definition beyond_range (c : RGB) : Prop :=
  (10 ^ 139 <= r c \/ 10 ^ 139 <= g c \/ 10 ^ 139 <= b c)%Z.

Fixpoint nines (n : nat) : string :=
  match n with
  | O => EmptyString
  | S n' => String "9" (nines n')
  end.

(** The colour [rgb(99...9, 0, 0)] with 140 nines, and its expression. *)
Definition huge : RGB := {| r := 10 ^ 140 - 1; g := 0; b := 0 |}.

Definition huge_rgb : string := ("rgb(" ++ nines 140 ++ ", 0, 0)")%string.

(** An element that sets that colour on itself. *)
Definition huge_on_huge : Styled :=
  {| s_style := ("color: " ++ huge_rgb ++ "; background: " ++ huge_rgb)%string;
     s_text := "text" |}.

End ContrastSpec.

Module FetchSpec.
Import JsString Fetch.

(** What the [catch] around a nested [doFetch] makes of its result. *)
Definition guarded (c : Completion Settled) : Completion Settled :=
  match c with
  | Throw _ => Normal (Rejected InvalidRedirectURL)
  | Normal settled => Normal settled
  end.

Section Chains.
Variable resolve_url : string -> string -> option string.
Variable protocol_of : string -> string.
Variable exchange : nat -> string -> Exchange.

(** The [k]-th request, sent to [urls k], is answered by a redirect
    (3xx with a location) whose target resolves to [urls (k + 1)]. *)
Definition hop (module_protocol : string) (urls : nat -> string) (k : nat)
  : Prop :=
  get_throws protocol_of module_protocol (urls k) = false
  /\ exists res,
       exchange k (urls k) = Responded res
       /\ is_redirect res = true
       /\ resolve_url (or_default (location res) "") (urls k)
          = Some (urls (S k)).

(** A chain of [n] redirect hops from the first request on. *)
Definition chain (module_protocol : string) (urls : nat -> string) (n : nat)
  : Prop :=
  forall k, (k < n)%nat -> hop module_protocol urls k.

(** The [n]-th request is answered by a response that is not a
    redirect. *)
Definition terminal (module_protocol : string) (urls : nat -> string)
  (n : nat) (res : Response) : Prop :=
  get_throws protocol_of module_protocol (urls n) = false
  /\ exchange n (urls n) = Responded res
  /\ is_redirect res = false.
End Chains.

(** The module [fetchHTML] picks for an href. *)
Definition module_for (protocol_of : string -> string) (href : string)
  : string :=
  if String.eqb (protocol_of href) "https:" then "https:" else "http:".

(** The URL text [fetchHTML] parses. *)
Definition with_scheme (urlStr : string) : string :=
  if has_scheme urlStr then urlStr else ("https://" ++ urlStr)%string.

(** A world for the examples: every page of [https://example.com/0],
    [/1], ... redirects to the next one until page [stop], which answers
    with [last]. *)
Definition page (k : nat) : string :=
  ("https://example.com/" ++ String (ascii_of_nat (48 + k)) EmptyString)%string.

Definition redirecting (stop : nat) (last : Response) (k : nat) (_ : string)
  : Exchange :=
  if Nat.ltb k stop
  then Responded {| statusCode := 302;
                    location := Some (page (S k));
                    body := [] |}
  else Responded last.

Definition absolute (loc _ : string) : option string := Some loc.

Definition https_only (_ : string) : string := "https:".

Definition ok_page : Response :=
  {| statusCode := 200; location := None;
     body := [Data "<html>"; Data "</html>"; EndOfBody] |}.

Definition no_content : Response :=
  {| statusCode := 204; location := None; body := [EndOfBody] |}.

(** The protocol of an href that starts with [http:] or [https:]. *)
Definition scheme_of (href : string) : string :=
  match strip_prefix "https:" href with
  | Some _ => "https:"
  | None => "http:"
  end.

(** A site that answers plain HTTP with a redirect to its HTTPS address. *)
Definition upgrading (k : nat) (_ : string) : Exchange :=
  match k with
  | O => Responded {| statusCode := 301;
                      location := Some "https://example.com/";
                      body := [] |}
  | S _ => Responded ok_page
  end.

End FetchSpec.

Module HistorySpec.
Import Scan Outcomes History.

(** A page with [n] images that have no [alt]. *)
Definition imgs_page (n : nat) : Document :=
  {| imgs := repeat {| img_alt := None; img_src := Some "a.png";
                       img_role := None |} n;
     html_lang := None; html_xml_lang := None;
     title_text := ""; headings := []; controls := []; links := [];
     buttons := []; viewport := None; role_navigation := 0;
     main_count := 0; nav_count := 0; header_count := 0; footer_count := 0;
     autoplay := []; tabindexed := []; tables := []; metaRefresh := 0;
     styled := []; key_handled := []; focusNoneMatches := [];
     focus_styled := []; clickable := []; form_count := 0 |}.

(** The record of a scan that returns. *)
Definition scanned (d : Document) (url : string) (now : Z) : ScanResult :=
  match scanHTML d url now with
  | Normal r => r
  | Throw _ => report d url now initial
  end.

(** Two scans of one host: the same rules fail, on one image and then on
    three. *)
Definition two_scans : list ScanRecord :=
  [ {| rec_id := "scan-1";
       result := scanned (imgs_page 1) "https://example.com/" 10 |};
    {| rec_id := "scan-2";
       result := scanned (imgs_page 3) "https://example.com/about" 20 |} ].

Definition example_host (_ : string) : option string := Some "example.com".

(** A page without images that carries a meta refresh. *)
Definition refresh_page : Document :=
  {| imgs := []; html_lang := None; html_xml_lang := None;
     title_text := ""; headings := []; controls := []; links := [];
     buttons := []; viewport := None; role_navigation := 0;
     main_count := 0; nav_count := 0; header_count := 0; footer_count := 0;
     autoplay := []; tabindexed := []; tables := []; metaRefresh := 1;
     styled := []; key_handled := []; focusNoneMatches := [];
     focus_styled := []; clickable := []; form_count := 0 |}.

(** The hostname of the URLs [https://host/path] of the examples. *)
Fixpoint until_slash (s : string) : string :=
  match s with
  | EmptyString => EmptyString
  | String c s' => if Ascii.eqb c "/" then EmptyString
                   else String c (until_slash s')
  end.

Definition host_of (u : string) : option string :=
  if String.prefix "https://" u
  then Some (until_slash (substring 8 (String.length u) u))
  else None.

(** A store with the scans of two hosts: on [example.com] one image
    without [alt], then three, then none but a meta refresh; in between a
    scan of [other.org]. *)
Definition scan_1 : ScanRecord :=
  {| rec_id := "scan-1";
     result := scanned (imgs_page 1) "https://example.com/" 10 |}.
Definition scan_2 : ScanRecord :=
  {| rec_id := "scan-2";
     result := scanned (imgs_page 2) "https://other.org/" 15 |}.
Definition scan_3 : ScanRecord :=
  {| rec_id := "scan-3";
     result := scanned (imgs_page 3) "https://example.com/about" 20 |}.
Definition scan_4 : ScanRecord :=
  {| rec_id := "scan-4";
     result := scanned refresh_page "https://example.com/" 30 |}.

Definition mixed_scans : list ScanRecord := [scan_1; scan_2; scan_3; scan_4].

End HistorySpec.

Module MonitorSpec.
Import JsString Scan Outcomes History Monitor.

(** The test of the duplicate check for a normalized URL and the e-mail
    text of the request. *)
Definition same_pair (normalizedUrl email : string) (m : Monitor) : bool :=
  (String.eqb (m_url m) normalizedUrl && String.eqb (m_email m) email)%bool.

(** The URL text the registration stores. *)
Definition normalized (url : string) : string :=
  FetchSpec.with_scheme (trim url).

(** A world for the examples. *)
Definition any_url (_ : string) : bool := true.
Definition online (_ : string) : Fetch.Settled := Fetch.Resolved "<html></html>".
Definition offline (_ : string) : Fetch.Settled :=
  Fetch.Rejected Fetch.RequestTimedOut.
Definition blank_page (_ : string) : Document := blank.
Definition at_1000 (_ : nat) : Z := 1000.
Definition numbered (i : nat) : string :=
  ("scan-" ++ String (ascii_of_nat (48 + i)) EmptyString)%string.
Definition disk_ok (_ : nat) : bool := true.
Definition disk_full (_ : nat) : bool := false.

Definition monitor_of (ident frequency : string) : Monitor :=
  {| m_id := ident; m_url := "https://example.com"; m_email := "a@b.co";
     frequency := frequency; active := true; createdAt := 0;
     updatedAt := None; lastScanAt := None; lastScore := None;
     nextScanAt := Some 500 |}.

Definition day : Z := 24 * 60 * 60 * 1000.

(** The rejections that a throw of [protocol.get] leads to: 'Invalid
    redirect URL', from the [catch] of the redirect branch (which a
    failing [new URL] reaches as well), and the protocol error itself when
    the first call throws.  The guard timer armed on the line before the
    call is never cleared then, and its callback reads [req], which was
    never initialized. *)
Definition request_threw (e : Fetch.FetchError) : bool :=
  match e with
  | Fetch.InvalidRedirectURL => true
  | Fetch.Raised msg => String.eqb msg "TypeError [ERR_INVALID_PROTOCOL]"
  | _ => false
  end.

(** A world in which one host does not answer. *)
Definition down_url : string := "https://down.example".

Definition one_down (url : string) : Fetch.Settled :=
  if String.eqb url down_url then Fetch.Rejected Fetch.RequestTimedOut
  else Fetch.Resolved "<html></html>".

Definition monitor_at (ident url frequency : string) : Monitor :=
  {| m_id := ident; m_url := url; m_email := "a@b.co";
     frequency := frequency; active := true; createdAt := 0;
     updatedAt := None; lastScanAt := None; lastScore := None;
     nextScanAt := Some 500 |}.

End MonitorSpec.

(* ------------------------------------------------------------------ *)
(** ** The scan endpoints over the store *)

From Stdlib Require Import DecimalString.

Module Api.
Import JsString History.

(** [l.slice(start)] for an integral [start]: a negative [start] counts
    from the end, and both ways the start is clamped to the array. *)
Definition slice_from {X : Type} (start : Z) (l : list X) : list X :=
  let len := Z.of_nat (List.length l) in
  let k := if start <? 0 then Z.max (len + start) 0 else Z.min start len in
  skipn (Z.to_nat k) l.

(** [app.get('/api/history')]: [url] is the query parameter (a string,
    when present) and [limit] the value of [parseInt(limit)], [None] for
    [NaN]; a request without the parameter has [limit = 20].  [slice]
    takes [-NaN] for 0. *)
Definition get_history (scanHistory : list ScanRecord) (url : option string)
  (limit : option Z) : list ScanRecord :=
  let results :=
    match url with
    | Some (String c u) =>
        filter (fun s => Scan.includes (String c u) (Scan.url (result s)))
               scanHistory
    | _ => scanHistory
    end in
  rev (slice_from (match limit with Some n => - n | None => 0 end) results).

(** [app.get('/api/scan/:id')]: [None] is the 404 'Scan not found'. *)
Definition get_scan (scanHistory : list ScanRecord) (id : string)
  : option ScanRecord :=
  find (fun s => String.eqb (rec_id s) id) scanHistory.

(** The [message] of the errors [fetchHTML] rejects with; [Raised]
    carries the message of the error object passed through. *)
Definition message (e : Fetch.FetchError) : string :=
  match e with
  | Fetch.InvalidURL urlStr => "Invalid URL: " ++ urlStr
  | Fetch.RequestTimedOut => "Request timed out after 15s"
  | Fetch.TooManyRedirects => "Too many redirects"
  | Fetch.InvalidRedirectURL => "Invalid redirect URL"
  | Fetch.HttpStatus code => "HTTP " ++ NilZero.string_of_int (Z.to_int code)
  | Fetch.ResponseTooLarge => "Response too large (>5MB)"
  | Fetch.ConnectionTimedOut => "Connection timed out"
  | Fetch.Raised e => e
  end.

(** The [message] of a thrown [TypeError], whose completion carries the
    name of the error in front. *)
Definition thrown_message (e : string) : string :=
  match strip_prefix "TypeError: " e with
  | Some m => m
  | None => e
  end.

Inductive ScanResponse :=
| ScanOk (scanRecord : ScanRecord)
| ScanError (status : Z) (error : string).

(** The [catch] of the scan endpoint: the status is chosen by what the
    message contains. *)
Definition scan_error (message : string) : ScanResponse :=
  let msg := if is_empty message then "Unknown error" else message in
  if Scan.includes "timed out" msg
  then ScanError 504
    "The website took too long to respond. Please try again or check the URL."
  else if (Scan.includes "ENOTFOUND" msg || Scan.includes "getaddrinfo" msg)%bool
  then ScanError 400
    "Could not find that website. Please check the URL and try again."
  else if Scan.includes "ECONNREFUSED" msg
  then ScanError 502
    "Connection refused by the website. It may be down or blocking scanners."
  else if (Scan.includes "certificate" msg || Scan.includes "SSL" msg)%bool
  then ScanError 502
    "SSL/TLS certificate error. The website may have security issues."
  else ScanError 500 ("Scan failed: " ++ msg).

Section ScanEndpoint.

(** Node's [URL] and the network, as for the fetcher; the document
    cheerio builds; the clock reading of the scan; the identifier
    [uuidv4] hands out; and the message of the error [fs.writeFileSync]
    throws in [saveHistory], if it throws. *)
Variable parse_url : string -> option string.
Variable resolve_url : string -> string -> option string.
Variable protocol_of : string -> string.
Variable exchange : nat -> string -> Fetch.Exchange.
Variable cheerio_load : string -> Scan.Document.
Variable now : Z.
Variable fresh : string.
Variable write_error : option string.

(** [app.post('/api/scan')]: [url] is the member of the request body
    when it is a string.  The store afterwards and the response. *)
Definition post_scan (scanHistory : list ScanRecord) (url : option string)
  : list ScanRecord * ScanResponse :=
  match url with
  | Some (String c u) =>
      let normalizedUrl := trim (String c u) in
      let normalizedUrl :=
        if Fetch.has_scheme normalizedUrl then normalizedUrl
        else ("https://" ++ normalizedUrl)%string in
      match parse_url normalizedUrl with
      | None =>
          (scanHistory,
           ScanError 400
             "Invalid URL format. Please enter a valid website address.")
      | Some _ =>
          match Fetch.fetchHTML parse_url resolve_url protocol_of exchange
                  normalizedUrl with
          | Fetch.Rejected e => (scanHistory, scan_error (message e))
          | Fetch.Resolved html =>
              match Scan.scanHTML (cheerio_load html) normalizedUrl now with
              | Throw e => (scanHistory, scan_error (thrown_message e))
              | Normal result =>
                  let scanRecord := {| rec_id := fresh; result := result |} in
                  let scanHistory :=
                    Monitor.keep_last_1000 (scanHistory ++ [scanRecord]) in
                  match write_error with
                  | Some e => (scanHistory, scan_error e)
                  | None => (scanHistory, ScanOk scanRecord)
                  end
              end
          end
      end
  | _ => (scanHistory, ScanError 400 "Please provide a valid URL")
  end.

End ScanEndpoint.

(** *** The trend of a host *)

Record DataPoint := {
  dp_id : string;
  dp_date : Z;
  dp_score : Z;
  dp_issues : nat;
  dp_critical : nat;
  dp_passed : nat;
  dp_complianceLevel : Scan.ComplianceLevel
}.

Inductive Direction := improving | declining | stable.

Record Trend := {
  t_scoreChange : Z;
  t_issuesChange : Z;
  direction : Direction;
  t_totalScans : nat;
  firstScan : Z;
  lastScan : Z
}.

Inductive TrendResponse :=
| TrendBadRequest (error : string)
| TrendOk (url domain : string) (scans : list DataPoint)
    (trend : option Trend).

Definition dataPoint (s : ScanRecord) : DataPoint :=
  let r := result s in
  {| dp_id := rec_id s;
     dp_date := Scan.scannedAt r;
     dp_score := Scan.score r;
     dp_issues := Scan.sum_issues (Scan.summary r);
     dp_critical := Scan.sum_critical (Scan.summary r);
     dp_passed := Scan.passed (Scan.summary r);
     dp_complianceLevel := Scan.complianceLevel r |}.

(** The trend between the first and the last data point. *)
Definition trend_of (dataPoints : list DataPoint) : option Trend :=
  if Nat.leb 2 (List.length dataPoints)
  then
    match dataPoints, nth_error dataPoints (List.length dataPoints - 1) with
    | first :: _, Some last =>
        Some {| t_scoreChange := dp_score last - dp_score first;
                t_issuesChange :=
                  Z.of_nat (dp_issues last) - Z.of_nat (dp_issues first);
                direction :=
                  if dp_score first <? dp_score last then improving
                  else if dp_score last <? dp_score first then declining
                  else stable;
                t_totalScans := List.length dataPoints;
                firstScan := dp_date first;
                lastScan := dp_date last |}
    | _, _ => None
    end
  else None.

Section TrendEndpoint.

(** [new URL(s).hostname], [None] when the constructor throws. *)
Variable hostname : string -> option string.

(** [app.get('/api/trend')] with the query parameter [url]. *)
Definition get_trend (scanHistory : list ScanRecord) (url : option string)
  : TrendResponse :=
  match url with
  | Some (String c u) =>
      let normalizedUrl := trim (String c u) in
      let normalizedUrl :=
        if Fetch.has_scheme normalizedUrl then normalizedUrl
        else ("https://" ++ normalizedUrl)%string in
      match hostname normalizedUrl with
      | None => TrendBadRequest "Invalid URL"
      | Some domain =>
          let urlScans := urlScans_of hostname scanHistory domain in
          if Nat.eqb (List.length urlScans) 0
          then TrendOk normalizedUrl domain [] None
          else
            let dataPoints := map dataPoint urlScans in
            TrendOk normalizedUrl domain dataPoints (trend_of dataPoints)
      end
  | _ => TrendBadRequest "URL parameter required"
  end.

End TrendEndpoint.

End Api.

(* ------------------------------------------------------------------ *)
(** ** The other endpoints of the monitor registry

    These handlers have no [try] around their [fs.writeFileSync] calls:
    the definitions give the registry in memory and the response of a
    request whose writes succeed. *)

Module MonitorApi.
Import JsString Monitor.

(** The members [/api/monitors] shows of a monitor when no address is
    given. *)
Record MonitorSummary := {
  ms_id : string;
  ms_url : string;
  ms_frequency : string;
  ms_lastScore : option Z;
  ms_nextScanAt : option Z
}.

Definition summarize (m : Monitor) : MonitorSummary :=
  {| ms_id := m_id m; ms_url := m_url m; ms_frequency := frequency m;
     ms_lastScore := lastScore m; ms_nextScanAt := nextScanAt m |}.

Inductive MonitorsResponse :=
| Summaries (l : list MonitorSummary)
| Owned (l : list Monitor).

(** [app.get('/api/monitors')] with the query parameter [email]. *)
Definition get_monitors (monitors : list Monitor) (email : option string)
  : MonitorsResponse :=
  match email with
  | Some (String c e) =>
      Owned (filter (fun m => (String.eqb (m_email m) (toLowerCase (String c e))
                               && active m)%bool) monitors)
  | _ => Summaries (map summarize (filter active monitors))
  end.

Definition set_active (a : bool) (m : Monitor) : Monitor :=
  {| m_id := m_id m; m_url := m_url m; m_email := m_email m;
     frequency := frequency m; active := a;
     createdAt := createdAt m; updatedAt := updatedAt m;
     lastScanAt := lastScanAt m; lastScore := lastScore m;
     nextScanAt := nextScanAt m |}.

Inductive DeleteResponse :=
| MonitorNotFound          (** 404 'Monitor not found' *)
| MonitorDeactivated.      (** 'Monitor deactivated' *)

(** [app.delete('/api/monitor/:id')] *)
Definition delete_monitor (monitors : list Monitor) (id : string)
  : list Monitor * DeleteResponse :=
  let p m := String.eqb (m_id m) id in
  match find p monitors with
  | None => (monitors, MonitorNotFound)
  | Some _ => (update_first p (set_active false) monitors, MonitorDeactivated)
  end.

(** *** Alert preferences *)

Record AlertConfig := {
  a_email : string;
  a_frequency : string;
  a_enabled : bool;
  a_url : option string;
  configuredAt : Z
}.

Definition validFreq : list string := ["daily"; "weekly"; "biweekly"; "monthly"].

(** [alertPreferences[key] = config] on an object used as a map: a key
    it has keeps its place. *)
Fixpoint set_key (key : string) (config : AlertConfig)
  (prefs : list (string * AlertConfig)) : list (string * AlertConfig) :=
  match prefs with
  | [] => [(key, config)]
  | (k, c) :: prefs' =>
      if String.eqb k key then (k, config) :: prefs'
      else (k, c) :: set_key key config prefs'
  end.

Fixpoint own (key : string) (prefs : list (string * AlertConfig))
  : option AlertConfig :=
  match prefs with
  | [] => None
  | (k, c) :: prefs' => if String.eqb k key then Some c else own key prefs'
  end.

(** [m.frequency = freq; m.active = config.enabled] *)
Definition set_alert (freq : string) (enabled : bool) (m : Monitor) : Monitor :=
  {| m_id := m_id m; m_url := m_url m; m_email := m_email m;
     frequency := freq; active := enabled;
     createdAt := createdAt m; updatedAt := updatedAt m;
     lastScanAt := lastScanAt m; lastScore := lastScore m;
     nextScanAt := nextScanAt m |}.

Inductive ConfigureResponse :=
| ConfigureRejected                   (** 400 'Valid email is required' *)
| Configured (config : AlertConfig).

(** [app.post('/api/alerts/configure')]: [email], [frequency] and [url]
    are the members of the body that are strings, [enabled] the member
    when it is a boolean; [enabled !== false] holds for every other
    value. *)
Definition configure_alerts (now : Z) (alertPreferences : list (string * AlertConfig))
  (monitors : list Monitor)
  (email frequency : option string) (enabled : option bool) (url : option string)
  : list (string * AlertConfig) * list Monitor * ConfigureResponse :=
  match email with
  | Some (String c e) =>
      let email := String c e in
      if negb (valid_email email)
      then (alertPreferences, monitors, ConfigureRejected)
      else
        let freq :=
          match frequency with
          | Some f => if existsb (String.eqb f) validFreq then f else "weekly"
          | None => "weekly"
          end in
        let key := trim (toLowerCase email) in
        let config :=
          {| a_email := key;
             a_frequency := freq;
             a_enabled := match enabled with Some false => false | _ => true end;
             a_url := if truthy url then url else None;
             configuredAt := now |} in
        (set_key key config alertPreferences,
         map (fun m => if String.eqb (m_email m) key
                       then set_alert freq (a_enabled config) m else m) monitors,
         Configured config)
  | _ => (alertPreferences, monitors, ConfigureRejected)
  end.

Inductive StatusResponse :=
| StatusRejected                      (** 400 'Email parameter required' *)
| NotConfigured                       (** [{ configured: false }] *)
| ConfiguredAs (config : AlertConfig) (** [{ configured: true, ...config }] *)
| ConfiguredBare.                     (** [{ configured: true }] *)

(** [app.get('/api/alerts/status')]: the object [alertPreferences]
    answers for the names of [Object.prototype] as well, with a value that
    is truthy and spreads to nothing. *)
Definition alerts_status (alertPreferences : list (string * AlertConfig))
  (email : option string) : StatusResponse :=
  match email with
  | Some (String c e) =>
      let key := trim (toLowerCase (String c e)) in
      match own key alertPreferences with
      | Some config => ConfiguredAs config
      | None =>
          if existsb (String.eqb key) Color.Object_prototype_keys
          then ConfiguredBare else NotConfigured
      end
  | _ => StatusRejected
  end.

End MonitorApi.

(* ------------------------------------------------------------------ *)
(** ** The alert subscriptions of [routes/webhook.js]

    A handler reads the clock more than once in one synchronous run; the
    readings are taken as one, [now]. *)

Module Subscriptions.
Import JsString.

Record Subscription := {
  sub_id : string;
  sub_email : string;
  sub_url : string;
  sub_frequency : string;
  sub_enabled : bool;
  sub_createdAt : Z;
  lastSentAt : option Z;
  nextSendAt : Z;
  sub_updatedAt : option Z
}.

(** A [Map] from identifiers to subscriptions, in insertion order. *)
Definition Store := list (string * Subscription).

(** [subscriptions.get(id)] *)
Fixpoint get (id : string) (subscriptions : Store) : option Subscription :=
  match subscriptions with
  | [] => None
  | (k, v) :: rest => if String.eqb k id then Some v else get id rest
  end.

(** [subscriptions.set(id, sub)]: a key the map has keeps its place. *)
Fixpoint set (id : string) (sub : Subscription) (subscriptions : Store)
  : Store :=
  match subscriptions with
  | [] => [(id, sub)]
  | (k, v) :: rest =>
      if String.eqb k id then (k, sub) :: rest
      else (k, v) :: set id sub rest
  end.

(** [subscriptions.delete(id)] *)
Fixpoint delete (id : string) (subscriptions : Store) : Store :=
  match subscriptions with
  | [] => []
  | (k, v) :: rest =>
      if String.eqb k id then rest else (k, v) :: delete id rest
  end.

Definition validFreqs : list string := ["daily"; "weekly"; "monthly"].

Inductive Response :=
| Status400 (error : string)
| Status404
| Success (subscription : Subscription)
| Listed (subscriptions : list Subscription) (count : nat)
| Deleted.

Section Router.

(** [new URL(s)] succeeds; the time stamp [now.setMonth(now.getMonth()
    + 1)] gives for the clock reading [now], a matter of the local
    calendar. *)
Variable url_parses : string -> bool.
Variable next_month : Z -> Z.

(** [getNextSendDate(frequency)] at the clock reading [now]. *)
Definition getNextSendDate (now : Z) (frequency : string) : Z :=
  if String.eqb frequency "daily" then now + 86400000
  else if String.eqb frequency "weekly" then now + 604800000
  else if String.eqb frequency "monthly" then next_month now
  else now + 604800000.

(** [router.post('/subscribe')]: [fresh] is the result of [uuidv4()],
    [now] the clock; [email], [url] and [frequency] are the members of
    the body that are strings. *)
Definition subscribe (now : Z) (fresh : string) (subscriptions : Store)
  (email url frequency : option string) : Store * Response :=
  match email with
  | Some (String c e) =>
      let email := String c e in
      match url with
      | Some (String d u) =>
          let url := String d u in
          if negb (Monitor.valid_email email)
          then (subscriptions, Status400 "Invalid email format")
          else if negb (url_parses url)
          then (subscriptions, Status400 "Invalid URL format")
          else
            let freq :=
              match frequency with
              | Some f => if existsb (String.eqb f) validFreqs then f else "weekly"
              | None => "weekly"
              end in
            let sub :=
              {| sub_id := fresh; sub_email := email; sub_url := url;
                 sub_frequency := freq; sub_enabled := true;
                 sub_createdAt := now; lastSentAt := None;
                 nextSendAt := getNextSendDate now freq;
                 sub_updatedAt := None |} in
            (set fresh sub subscriptions, Success sub)
      | _ => (subscriptions, Status400 "URL to monitor is required")
      end
  | _ => (subscriptions, Status400 "Email is required")
  end.

(** [router.get('/subscriptions')] *)
Definition list_subscriptions (subscriptions : Store) (email : option string)
  : Response :=
  match email with
  | Some (String c e) =>
      let subs := filter (fun sub => String.eqb (sub_email sub) (String c e))
                         (map snd subscriptions) in
      Listed subs (List.length subs)
  | _ => Status400 "Email query parameter required"
  end.

(** [router.get('/subscriptions/:id')] *)
Definition get_subscription (subscriptions : Store) (id : string) : Response :=
  match get id subscriptions with
  | Some sub => Success sub
  | None => Status404
  end.

Definition with_frequency (now : Z) (f : string) (sub : Subscription)
  : Subscription :=
  {| sub_id := sub_id sub; sub_email := sub_email sub; sub_url := sub_url sub;
     sub_frequency := f; sub_enabled := sub_enabled sub;
     sub_createdAt := sub_createdAt sub; lastSentAt := lastSentAt sub;
     nextSendAt := getNextSendDate now f;
     sub_updatedAt := sub_updatedAt sub |}.

Definition with_enabled (e : bool) (sub : Subscription) : Subscription :=
  {| sub_id := sub_id sub; sub_email := sub_email sub; sub_url := sub_url sub;
     sub_frequency := sub_frequency sub; sub_enabled := e;
     sub_createdAt := sub_createdAt sub; lastSentAt := lastSentAt sub;
     nextSendAt := nextSendAt sub;
     sub_updatedAt := sub_updatedAt sub |}.

Definition with_url (u : string) (sub : Subscription) : Subscription :=
  {| sub_id := sub_id sub; sub_email := sub_email sub; sub_url := u;
     sub_frequency := sub_frequency sub; sub_enabled := sub_enabled sub;
     sub_createdAt := sub_createdAt sub; lastSentAt := lastSentAt sub;
     nextSendAt := nextSendAt sub;
     sub_updatedAt := sub_updatedAt sub |}.

Definition with_updatedAt (now : Z) (sub : Subscription) : Subscription :=
  {| sub_id := sub_id sub; sub_email := sub_email sub; sub_url := sub_url sub;
     sub_frequency := sub_frequency sub; sub_enabled := sub_enabled sub;
     sub_createdAt := sub_createdAt sub; lastSentAt := lastSentAt sub;
     nextSendAt := nextSendAt sub;
     sub_updatedAt := Some now |}.

(** The object the map holds under [id] is assigned to in place: the
    map with that object replaced. *)
Fixpoint assign (id : string) (sub : Subscription) (subscriptions : Store)
  : Store :=
  match subscriptions with
  | [] => []
  | (k, v) :: rest =>
      if String.eqb k id then (k, sub) :: rest
      else (k, v) :: assign id sub rest
  end.

(** [router.put('/subscriptions/:id')]: [frequency] and [url] are the
    members of the body that are strings, [enabled] the member when it is
    a boolean.  The assignments made before an early return stay. *)
Definition update (now : Z) (subscriptions : Store) (id : string)
  (frequency : option string) (enabled : option bool) (url : option string)
  : Store * Response :=
  match get id subscriptions with
  | None => (subscriptions, Status404)
  | Some sub =>
      let after_frequency :=
        match frequency with
        | Some (String c f) =>
            if existsb (String.eqb (String c f)) validFreqs
            then Some (with_frequency now (String c f) sub)
            else None
        | _ => Some sub
        end in
      match after_frequency with
      | None => (subscriptions, Status400 "Invalid frequency")
      | Some sub =>
          let sub := match enabled with
                     | Some e => with_enabled e sub
                     | None => sub
                     end in
          let after_url :=
            match url with
            | Some (String c u) =>
                if url_parses (String c u)
                then Some (with_url (String c u) sub)
                else None
            | _ => Some sub
            end in
          match after_url with
          | None => (assign id sub subscriptions, Status400 "Invalid URL")
          | Some sub =>
              let sub := with_updatedAt now sub in
              (set (sub_id sub) sub (assign id sub subscriptions), Success sub)
          end
      end
  end.

(** [router.delete('/subscriptions/:id')] *)
Definition unsubscribe (subscriptions : Store) (id : string)
  : Store * Response :=
  match get id subscriptions with
  | None => (subscriptions, Status404)
  | Some _ => (delete id subscriptions, Deleted)
  end.

End Router.

End Subscriptions.

(* ------------------------------------------------------------------ *)
(** ** The compliance badge

    As for the registry, the write of [saveBadges] is taken to
    succeed. *)

Module Badge.
Import JsString History.

Record BadgeRecord := {
  b_url : string;
  b_score : Z;
  b_level : Scan.ComplianceLevel;
  b_scanId : string;
  issuedAt : Z;
  expiresAt : Z
}.

(** The object [badges], used as a map from badge identifiers. *)
Definition Registry := list (string * BadgeRecord).

Fixpoint own (id : string) (badges : Registry) : option BadgeRecord :=
  match badges with
  | [] => None
  | (k, v) :: rest => if String.eqb k id then Some v else own id rest
  end.

(** [badges[badgeId] = badge]: a key the object has keeps its place. *)
Fixpoint put (badgeId : string) (badge : BadgeRecord) (badges : Registry)
  : Registry :=
  match badges with
  | [] => [(badgeId, badge)]
  | (k, v) :: rest =>
      if String.eqb k badgeId then (k, badge) :: rest
      else (k, v) :: put badgeId badge rest
  end.

Inductive GenerateResponse :=
| BadgeRejected (status : Z) (error : string)
| BadgeIssued (badgeId : string).

Section Generate.

(** [crypto.createHash('md5').update(s).digest('hex')], a text of 32
    hexadecimal digits. *)
Variable md5_hex : string -> string.

(** [app.post('/api/badge/generate')]: [url] and [scanId] are the
    members of the body that are strings; [issued] and [now] are the two
    readings of the clock. *)
Definition generate (issued now : Z) (scanHistory : list ScanRecord)
  (badges : Registry) (url scanId : option string)
  : Registry * GenerateResponse :=
  match url with
  | Some (String c u) =>
      let url := String c u in
      let scan :=
        match scanId with
        | Some (String d i) =>
            find (fun s => String.eqb (rec_id s) (String d i)) scanHistory
        | _ =>
            find (fun s => Scan.includes url (Scan.url (result s)))
                 (rev scanHistory)
        end in
      match scan with
      | None =>
          (badges,
           BadgeRejected 404 "No scan found for this URL. Please scan it first.")
      | Some scan =>
          match Scan.complianceLevel (result scan) with
          | Scan.non_compliant =>
              (badges,
               BadgeRejected 400
                 "Badge not available for non-compliant sites. Fix critical issues first.")
          | level =>
              let badgeId := take 12 (md5_hex url) in
              (put badgeId
                 {| b_url := Scan.url (result scan);
                    b_score := Scan.score (result scan);
                    b_level := level;
                    b_scanId := rec_id scan;
                    issuedAt := issued;
                    expiresAt := now + 30 * 24 * 60 * 60 * 1000 |} badges,
               BadgeIssued badgeId)
          end
      end
  | _ => (badges, BadgeRejected 400 "URL required")
  end.

End Generate.

(** The colour, the text and the score text of the image. *)
Record Face := { color : string; text : string; scoreText : string }.

(** [app.get('/api/badge/:id.svg')] at the clock reading [now], up to
    the SVG text around the three values.  For a name of
    [Object.prototype] the lookup gives a value that is truthy and has
    none of the members read. *)
Definition badge_svg (now : Z) (badges : Registry) (id : string) : Face :=
  match own id badges with
  | Some badge =>
      let scoreText :=
        (NilZero.string_of_int (Z.to_int (b_score badge)) ++ "/100")%string in
      if expiresAt badge <? now
      then {| color := "#9E9E9E"; text := "Expired"; scoreText := scoreText |}
      else
        match b_level badge with
        | Scan.compliant =>
            {| color := "#4CAF50"; text := "WCAG Compliant";
               scoreText := scoreText |}
        | Scan.needs_improvement =>
            {| color := "#FF9800"; text := "Needs Work";
               scoreText := scoreText |}
        | _ =>
            {| color := "#F44336"; text := "Non-Compliant";
               scoreText := scoreText |}
        end
  | None =>
      if existsb (String.eqb id) Color.Object_prototype_keys
      then {| color := "#F44336"; text := "Non-Compliant";
              scoreText := "undefined/100" |}
      else {| color := "#9E9E9E"; text := "Unknown"; scoreText := "?" |}
  end.

End Badge.

(* ------------------------------------------------------------------ *)
(** ** Vocabulary of the further properties *)

Module StringSpec.
Import JsString.

(** No white space in a text. *)
Definition no_space (s : string) : bool :=
  all_chars (fun c => negb (is_space c)) s.

(** A text that does not start with white space. *)
Definition clean_start (s : string) : bool :=
  match s with
  | String c _ => negb (is_space c)
  | EmptyString => true
  end.

End StringSpec.

Module ColorSpec.
Import Color.

Definition channel_ok (v : Z) : bool := ((0 <=? v) && (v <=? 255))%bool.

(** The channels of a colour of the sRGB gamut. *)
Definition in_gamut_b (c : RGB) : bool :=
  (channel_ok (r c) && channel_ok (g c) && channel_ok (b c))%bool.

Definition in_gamut (c : RGB) : Prop :=
  0 <= r c <= 255 /\ 0 <= g c <= 255 /\ 0 <= b c <= 255.

End ColorSpec.

Module ScanSpec.
Import Scan.

(** The compliance levels from best to worst. *)
Definition level_rank (l : ComplianceLevel) : nat :=
  match l with
  | compliant => 0
  | needs_improvement => 1
  | partially_compliant => 2
  | non_compliant => 3
  end.

(** A heading that lies more than one level below the heading before
    it. *)
Definition jump (p : Heading * Heading) : bool :=
  Nat.ltb (h_level (fst p) + 1) (h_level (snd p)).

(** The headings of a page, each paired with the next one. *)
Definition adjacent (hs : list Heading) : list (Heading * Heading) :=
  combine hs (tl hs).

End ScanSpec.

Module ApiSpec.
Import History.

(** The score changes of the diffs of a history, added up. *)
Definition total_change (history : list Entry) : Z :=
  fold_right (fun e acc =>
    match e_diff e with
    | Some df => scoreChange df + acc
    | None => acc
    end) 0 history.

(** The records a listing is drawn from: those whose URL contains the
    text of the query, or all of them without a text. *)
Definition listed (scanHistory : list ScanRecord) (url : option string)
  : list ScanRecord :=
  match url with
  | Some (String c u) =>
      filter (fun s => Scan.includes (String c u) (Scan.url (result s)))
             scanHistory
  | _ => scanHistory
  end.

(** A world for the examples: every URL parses to itself and the first
    request is answered by a small page. *)
Definition direct (_ : nat) (_ : string) : Fetch.Exchange :=
  Fetch.Responded FetchSpec.ok_page.

Definition not_found (_ : nat) (_ : string) : Fetch.Exchange :=
  Fetch.Responded {| Fetch.statusCode := 404; Fetch.location := None;
                     Fetch.body := [] |}.

End ApiSpec.

Module RegistrySpec.
Import JsString Monitor.

(** What a registration fixes of a monitor: everything but the three
    members the scheduler writes. *)
Definition same_registration (m m' : Monitor) : Prop :=
  m_id m' = m_id m /\ m_url m' = m_url m /\ m_email m' = m_email m
  /\ frequency m' = frequency m /\ active m' = active m
  /\ createdAt m' = createdAt m /\ updatedAt m' = updatedAt m.

(** A monitor whose URL the fetcher can take as it is. *)
Definition well_formed (url_parses : string -> bool) (m : Monitor) : Prop :=
  Fetch.has_scheme (m_url m) = true /\ url_parses (m_url m) = true.

End RegistrySpec.

Module SubscriptionSpec.
Import Subscriptions.

(** A store as the router builds it: no identifier twice, and every
    subscription under its own identifier. *)
Definition consistent (subscriptions : Store) : Prop :=
  NoDup (map fst subscriptions)
  /\ Forall (fun kv => sub_id (snd kv) = fst kv) subscriptions.

(** The [enabled] member of an update applied. *)
Definition apply_enabled (enabled : option bool) (sub : Subscription)
  : Subscription :=
  match enabled with
  | Some e => with_enabled e sub
  | None => sub
  end.

(** A world for the examples: only [https://] URLs parse, and a month
    has thirty days. *)
Definition https_urls (url : string) : bool :=
  match JsString.strip_prefix "https://" url with
  | Some _ => true
  | None => false
  end.

Definition thirty_days (now : Z) : Z := now + 30 * 86400000.

Definition ann : Subscription :=
  {| sub_id := "s-1"; sub_email := "ann@example.org";
     sub_url := "https://example.org"; sub_frequency := "weekly";
     sub_enabled := true; sub_createdAt := 0; lastSentAt := None;
     nextSendAt := 604800000; sub_updatedAt := None |}.

End SubscriptionSpec.

Module BadgeSpec.
Import History.

(** A world for the examples: one digest for every text, and a store
    with one scan of an empty page. *)
Definition digest (_ : string) : string := "0123456789abcdef0123456789abcdef".

Definition blank_scan : ScanRecord :=
  {| rec_id := "scan-0";
     result := HistorySpec.scanned Outcomes.blank "https://example.com/" 5 |}.

End BadgeSpec.
Import JsString Catalogue Color Scan Outcomes.

(* ------------------------------------------------------------------ *)
(** * Properties of the scan engine *)

(** ** Score *)

Lemma score_rows : forallb score_row_ok (seq 0 40) = true.
Proof. vm_compute. reflexivity. Qed.

(** Below 40 checks the binary64 computation of the score is exact. *)
Lemma score_of_small (p i : nat) :
  (p + i < 40)%nat ->
  score_of p i = if Nat.eqb (i + p) 0 then 0
                 else nearest (100 * Z.of_nat p) (Z.of_nat (i + p)).
Proof.
  intros Hlt.
  pose proof score_rows as H.
  rewrite forallb_forall in H.
  specialize (H (i + p)%nat).
  assert (Hin : In (i + p)%nat (seq 0 40)) by (apply in_seq; lia).
  specialize (H Hin). unfold score_row_ok in H.
  rewrite forallb_forall in H.
  specialize (H p).
  assert (Hp : In p (seq 0 (S (i + p)))) by (apply in_seq; lia).
  specialize (H Hp).
  replace (i + p - p)%nat with i in H by lia.
  apply Z.eqb_eq in H. exact H.
Qed.

(** At 40 checks it is not: 23 passes give [57.49999999999999] and the
    score 57, where 57.5 rounds to 58.  A scan stays at 22 checks or
    fewer. *)
Lemma score_of_40_checks :
  score_of 23 17 = 57 /\ nearest (100 * 23) 40 = 58.
Proof. vm_compute. split; reflexivity. Qed.

Lemma nearest_bounds (n d : Z) :
  0 < d -> 0 <= n <= d ->
  0 <= nearest (100 * n) d <= 100
  /\ 2 * Z.abs (nearest (100 * n) d * d - 100 * n) <= d.
Proof.
  intros Hd Hn. unfold nearest.
  pose proof (Z.div_mod (2 * (100 * n) + d) (2 * d) ltac:(lia)) as Hq.
  pose proof (Z.mod_pos_bound (2 * (100 * n) + d) (2 * d) ltac:(lia)) as Hr.
  set (q := (2 * (100 * n) + d) / (2 * d)) in *.
  set (r := (2 * (100 * n) + d) mod (2 * d)) in *.
  repeat split; try nia.
Qed.

(** ** One outcome per rule *)

Lemma ruleId_eqb_eq (a b : RuleId) : ruleId_eqb a b = true <-> a = b.
Proof.
  split.
  - destruct a, b; vm_compute; intros H; first [reflexivity | discriminate H].
  - intros ->. destruct b; reflexivity.
Qed.

Lemma nonempty_cons {X : Type} (l : list X) : nonempty l = true -> l <> [].
Proof. destruct l; [discriminate | intros _ H; discriminate H]. Qed.

Lemma skipped_needs_headings (d : Document) :
  nonempty (skipped d) = true -> nonempty (headings d) = true.
Proof. unfold skipped. destruct (headings d); [discriminate | reflexivity]. Qed.

Lemma no_header_needs_tables (d : Document) :
  nonempty (tablesNoHeader d) = true -> nonempty (dataTables d) = true.
Proof.
  unfold tablesNoHeader. destruct (dataTables d); [discriminate | reflexivity].
Qed.

Lemma exclusive (d : Document) (k : RuleId) :
  applicable d k = true -> warned d k = false.
Proof.
  destruct k; simpl; try reflexivity; try discriminate.
  intros ->. reflexivity.
Qed.


Ltac fits_goal :=
  unfold fits, applicable, warned; simpl;
  repeat split;
  first [ assumption | reflexivity | discriminate
        | apply nonempty_cons; assumption
        | apply skipped_needs_headings; assumption
        | apply no_header_needs_tables; assumption
        | idtac ].

Ltac block_cases :=
  repeat match goal with
         | |- context [if ?c then _ else _] => destruct c eqn:?
         end;
  first [ solve [eexists (OIssue _); split; [reflexivity | fits_goal]]
        | solve [exists OPass; split; [reflexivity | fits_goal]]
        | solve [eexists (OWarning _); split; [reflexivity | fits_goal]]
        | solve [exists ONone; split; [reflexivity | fits_goal]] ].

Lemma block_missing_alt d : block_of d missing_alt (check_missing_alt d).
Proof. intros s. unfold check_missing_alt. block_cases. Qed.

Lemma block_empty_alt d : block_of d empty_alt (check_empty_alt d).
Proof. intros s. unfold check_empty_alt. block_cases. Qed.

Lemma block_missing_lang d : block_of d missing_lang (check_missing_lang d).
Proof. intros s. unfold check_missing_lang. block_cases. Qed.

Lemma block_missing_title d : block_of d missing_title (check_missing_title d).
Proof. intros s. unfold check_missing_title. block_cases. Qed.

Lemma block_missing_heading d :
  block_of d missing_heading (check_missing_heading d).
Proof. intros s. unfold check_missing_heading. block_cases. Qed.

Lemma block_skipped_heading d :
  block_of d skipped_heading (check_skipped_heading d).
Proof. intros s. unfold check_skipped_heading. block_cases. Qed.

Lemma block_missing_form_label d :
  block_of d missing_form_label (check_missing_form_label d).
Proof. intros s. unfold check_missing_form_label. block_cases. Qed.

Lemma block_empty_link d : block_of d empty_link (check_empty_link d).
Proof. intros s. unfold check_empty_link. block_cases. Qed.

Lemma block_empty_button d : block_of d empty_button (check_empty_button d).
Proof. intros s. unfold check_empty_button. block_cases. Qed.

Lemma block_missing_viewport d :
  block_of d missing_viewport (check_missing_viewport d).
Proof. intros s. unfold check_missing_viewport. block_cases. Qed.

Lemma block_no_skip_link d : block_of d no_skip_link (check_no_skip_link d).
Proof.
  intros s. unfold check_no_skip_link.
  destruct (hasSkipLink d) eqn:Hs; simpl.
  - exists OPass. split; [reflexivity | exact Hs].
  - destruct (Nat.ltb 0 (role_navigation d)) eqn:Hn.
    + eexists (OWarning _). split; [reflexivity |].
      unfold fits, warned. rewrite Hs, Hn. reflexivity.
    + exists ONone. split; [reflexivity |].
      unfold fits, applicable, warned. rewrite Hs, Hn. split; reflexivity.
Qed.

Lemma block_missing_landmark d :
  block_of d missing_landmark (check_missing_landmark d).
Proof. intros s. unfold check_missing_landmark. block_cases. Qed.

Lemma block_autoplay_media d : block_of d autoplay_media (check_autoplay_media d).
Proof. intros s. unfold check_autoplay_media. block_cases. Qed.

Lemma block_tabindex_positive d :
  block_of d tabindex_positive (check_tabindex_positive d).
Proof. intros s. unfold check_tabindex_positive. block_cases. Qed.

Lemma block_missing_table_header d :
  block_of d missing_table_header (check_missing_table_header d).
Proof. intros s. unfold check_missing_table_header. block_cases. Qed.

Lemma block_meta_refresh d : block_of d meta_refresh (check_meta_refresh d).
Proof. intros s. unfold check_meta_refresh. block_cases. Qed.

Lemma block_inline_styles_text d :
  block_of d inline_styles_text (check_inline_styles_text d).
Proof. intros s. unfold check_inline_styles_text. block_cases. Qed.

Lemma block_keyboard_trap d : block_of d keyboard_trap (check_keyboard_trap d).
Proof. intros s. unfold check_keyboard_trap. block_cases. Qed.

Lemma block_missing_focus_style d :
  block_of d missing_focus_style (check_missing_focus_style d).
Proof. intros s. unfold check_missing_focus_style. block_cases. Qed.

Lemma block_generic_link_text d :
  block_of d generic_link_text (check_generic_link_text d).
Proof. intros s. unfold check_generic_link_text. block_cases. Qed.

Lemma block_missing_keyboard_access d :
  block_of d missing_keyboard_access (check_missing_keyboard_access d).
Proof. intros s. unfold check_missing_keyboard_access. block_cases. Qed.

(** Check 17 can throw; when it returns it has the same shape. *)
Lemma block_color_contrast_inline d s s' :
  check_color_contrast_inline d s = Normal s' ->
  exists o, s' = record color_contrast_inline o s
            /\ fits d color_contrast_inline o.
Proof.
  unfold check_color_contrast_inline.
  destruct (contrastIssues d) as [found | e]; simpl; [| discriminate].
  intros H. injection H as <-.
  destruct (nonempty found) eqn:Hne.
  - exists (OIssue found). split; [reflexivity |].
    split; [reflexivity | apply nonempty_cons; exact Hne].
  - exists OPass. split; reflexivity.
Qed.

Lemma Trace_step d k ks f s s' :
  block_of d k f -> Trace d ks (f s) s' -> Trace d (k :: ks) s s'.
Proof.
  intros Hb Ht. destruct (Hb s) as (o & E & F).
  rewrite E in Ht. eapply Trace_cons; eassumption.
Qed.

Lemma run_checks_trace d s :
  run_checks d = Normal s -> Trace d evaluated initial s.
Proof.
  unfold run_checks.
  destruct (check_color_contrast_inline d (checks_1_16 d initial))
    as [s17 | e] eqn:E17; simpl; [| discriminate].
  intros H. injection H as <-.
  apply block_color_contrast_inline in E17. destruct E17 as (o & -> & F).
  unfold evaluated, checks_1_16, checks_18_21.
  apply Trace_step with (f := check_missing_alt d); [apply block_missing_alt |].
  apply Trace_step with (f := check_empty_alt d); [apply block_empty_alt |].
  apply Trace_step with (f := check_missing_lang d); [apply block_missing_lang |].
  apply Trace_step with (f := check_missing_title d); [apply block_missing_title |].
  apply Trace_step with (f := check_missing_heading d); [apply block_missing_heading |].
  apply Trace_step with (f := check_skipped_heading d); [apply block_skipped_heading |].
  apply Trace_step with (f := check_missing_form_label d); [apply block_missing_form_label |].
  apply Trace_step with (f := check_empty_link d); [apply block_empty_link |].
  apply Trace_step with (f := check_empty_button d); [apply block_empty_button |].
  apply Trace_step with (f := check_missing_viewport d); [apply block_missing_viewport |].
  apply Trace_step with (f := check_no_skip_link d); [apply block_no_skip_link |].
  apply Trace_step with (f := check_missing_landmark d); [apply block_missing_landmark |].
  apply Trace_step with (f := check_autoplay_media d); [apply block_autoplay_media |].
  apply Trace_step with (f := check_tabindex_positive d); [apply block_tabindex_positive |].
  apply Trace_step with (f := check_missing_table_header d); [apply block_missing_table_header |].
  apply Trace_step with (f := check_meta_refresh d); [apply block_meta_refresh |].
  apply Trace_step with (f := check_inline_styles_text d); [apply block_inline_styles_text |].
  eapply Trace_cons; [exact F |].
  apply Trace_step with (f := check_keyboard_trap d); [apply block_keyboard_trap |].
  apply Trace_step with (f := check_missing_focus_style d); [apply block_missing_focus_style |].
  apply Trace_step with (f := check_generic_link_text d); [apply block_generic_link_text |].
  apply Trace_step with (f := check_missing_keyboard_access d); [apply block_missing_keyboard_access |].
  apply Trace_nil.
Qed.

(** ** What a trace does to the three arrays *)



Lemma count_snoc {X : Type} (p : X -> bool) (l : list X) (x : X) :
  List.length (filter p (l ++ [x])) = (List.length (filter p l) + bump (p x))%nat.
Proof.
  rewrite filter_app, length_app. simpl. destruct (p x); reflexivity.
Qed.

Lemma judged_record (k j : RuleId) (o : Outcome) (s : ScanState) :
  judged k (record j o s)
  = (judged k s
     + bump (ruleId_eqb k j
             && match o with OIssue _ | OPass => true | _ => false end))%nat.
Proof.
  unfold judged, issue_count, pass_count.
  destruct o; simpl; rewrite ?count_snoc; simpl;
    fold (ruleId_eqb k j); destruct (ruleId_eqb k j); simpl; lia.
Qed.

Lemma warning_record (k j : RuleId) (o : Outcome) (s : ScanState) :
  warning_count k (warnings (record j o s))
  = (warning_count k (warnings s)
     + bump (ruleId_eqb k j
             && match o with OWarning _ => true | _ => false end))%nat.
Proof.
  unfold warning_count.
  destruct o; simpl; rewrite ?count_snoc; simpl;
    fold (ruleId_eqb k j); destruct (ruleId_eqb k j); simpl; lia.
Qed.

Lemma existsb_ruleId (k : RuleId) (ks : list RuleId) :
  existsb (ruleId_eqb k) ks = true <-> In k ks.
Proof.
  rewrite existsb_exists. split.
  - intros (x & Hin & E). apply ruleId_eqb_eq in E. subst. exact Hin.
  - intros Hin. exists k. split; [exact Hin | apply ruleId_eqb_eq; reflexivity].
Qed.

Lemma trace_counts d ks s s' :
  Trace d ks s s' -> NoDup ks -> forall k,
  judged k s' = (judged k s + bump (existsb (ruleId_eqb k) ks && applicable d k))%nat
  /\ warning_count k (warnings s')
     = (warning_count k (warnings s)
        + bump (existsb (ruleId_eqb k) ks && warned d k))%nat.
Proof.
  induction 1 as [s | j ks o s s' F T IH]; intros ND k.
  - simpl. split; lia.
  - inversion ND as [| ? ? Hnotin ND']; subst.
    destruct (IH ND' k) as [IHj IHw].
    rewrite IHj, IHw, judged_record, warning_record. simpl.
    destruct (ruleId_eqb k j) eqn:E.
    + apply ruleId_eqb_eq in E. subst j.
      assert (Hex : existsb (ruleId_eqb k) ks = false).
      { destruct (existsb (ruleId_eqb k) ks) eqn:Hex; [| reflexivity].
        apply existsb_ruleId in Hex. contradiction. }
      rewrite Hex. simpl.
      destruct o; simpl in F.
      * destruct F as [Ha _]. rewrite Ha, (exclusive _ _ Ha). simpl. split; lia.
      * rewrite F, (exclusive _ _ F). simpl. split; lia.
      * rewrite F.
        destruct (applicable d k) eqn:Ha;
          [rewrite (exclusive _ _ Ha) in F; discriminate |].
        simpl. split; lia.
      * destruct F as [Ha Hw]. rewrite Ha, Hw. simpl. split; lia.
    + simpl. split; lia.
Qed.

Lemma trace_total d ks s s' :
  Trace d ks s s' ->
  (List.length (issues s') + List.length (passes s')
   <= List.length (issues s) + List.length (passes s) + List.length ks)%nat.
Proof.
  induction 1 as [s | j ks o s s' F T IH]; simpl; [lia |].
  destruct o; simpl in IH; rewrite ?length_app in IH; simpl in IH; lia.
Qed.


Lemma trace_founded d ks s s' :
  Trace d ks s s' -> Forall founded (issues s) -> Forall founded (issues s').
Proof.
  induction 1 as [s | j ks o s s' F T IH]; intros Hs; [exact Hs |].
  apply IH. destruct o; simpl; try exact Hs.
  apply Forall_app. split; [exact Hs |].
  constructor; [| constructor].
  destruct F as [_ Hne]. unfold founded. simpl.
  destruct els as [| e els]; [contradiction |]. simpl. split; [lia | discriminate].
Qed.

(** The arrays only grow. *)
Lemma trace_grows d ks s s' :
  Trace d ks s s' -> exists more, issues s' = issues s ++ more.
Proof.
  induction 1 as [s | j ks o s s' F T IH].
  - exists []. rewrite app_nil_r. reflexivity.
  - destruct IH as (more & E). rewrite E.
    destruct o; simpl; try (exists more; reflexivity).
    eexists. rewrite <- app_assoc. reflexivity.
Qed.

Lemma NoDup_evaluated : NoDup evaluated.
Proof.
  unfold evaluated.
  repeat (constructor; [simpl; intuition discriminate |]). constructor.
Qed.

Lemma scanHTML_report d url now res :
  scanHTML d url now = Normal res ->
  exists s, run_checks d = Normal s /\ res = report d url now s.
Proof.
  unfold scanHTML. destruct (run_checks d) as [s | e]; simpl; [| discriminate].
  intros H. injection H as <-. exists s. split; reflexivity.
Qed.

Lemma blank_scans :
  exists res, scanHTML blank "https://example.com" 0 = Normal res.
Proof. eexists. vm_compute. reflexivity. Qed.

Lemma scan_total d s :
  run_checks d = Normal s ->
  (List.length (issues s) + List.length (passes s) <= 22)%nat.
Proof.
  intros H. apply run_checks_trace in H. apply trace_total in H.
  simpl in H. exact H.
Qed.

(** C1. For every scan the score is [round(100 * passes / (passes +
    issues))] when at least one rule was judged, 0 when none was, and it
    lies between 0 and 100.  The source computes the quotient in binary64;
    a scan judges at most 22 rules, and below 40 checks that computation
    gives exactly the nearest integer (a tie going up). *)
Theorem score_is_rounded_pass_ratio d url now res :
  scanHTML d url now = Normal res ->
  let p := Z.of_nat (List.length (r_passes res)) in
  let i := Z.of_nat (List.length (r_issues res)) in
  score res = score_of (List.length (r_passes res)) (List.length (r_issues res))
  /\ (0 < p + i ->
      score res = nearest (100 * p) (p + i)
      /\ 2 * Z.abs (score res * (p + i) - 100 * p) <= p + i)
  /\ (p + i = 0 -> score res = 0)
  /\ score_of 0 0 = 0
  /\ 0 <= score res <= 100.
Proof.
  intros H. apply scanHTML_report in H. destruct H as (s & Hrun & ->).
  pose proof (scan_total d s Hrun) as Hle.
  simpl r_passes. simpl r_issues. simpl score.
  set (np := List.length (passes s)) in *.
  set (ni := List.length (issues s)) in *.
  assert (Hs : score_of np ni
               = if Nat.eqb (ni + np) 0 then 0
                 else nearest (100 * Z.of_nat np) (Z.of_nat (ni + np)))
    by (apply score_of_small; lia).
  split; [reflexivity |].
  destruct (Nat.eqb (ni + np) 0) eqn:E.
  - apply Nat.eqb_eq in E. rewrite Hs.
    split; [intros; lia |].
    split; [intros; reflexivity |].
    split; [reflexivity | lia].
  - apply Nat.eqb_neq in E.
    replace (Z.of_nat np + Z.of_nat ni) with (Z.of_nat (ni + np)) by lia.
    pose proof (nearest_bounds (Z.of_nat np) (Z.of_nat (ni + np))
                  ltac:(lia) ltac:(lia)) as [Hb Hn].
    rewrite Hs.
    split; [intros _; split; [reflexivity | exact Hn] |].
    split; [intros; lia |].
    split; [reflexivity | exact Hb].
Qed.

Lemma score_is_rounded_pass_ratio_witness :
  exists res,
    scanHTML blank "https://example.com" 0 = Normal res
    /\ score res = 71
    /\ score res = nearest (100 * 12) (12 + 5).
Proof.
  eexists. split; [vm_compute; reflexivity |].
  split; [reflexivity |].
  refine (proj1 (proj1 (proj2 (score_is_rounded_pass_ratio
            blank "https://example.com" 0 _ _)) _));
    vm_compute; reflexivity.
Defined.

Lemma count_impact_exists (i : Impact) (l : list Issue) :
  (1 <= count_impact i l)%nat <-> Exists (fun x => impact (i_rule x) = i) l.
Proof.
  unfold count_impact. induction l as [| x l IH]; simpl.
  - split; [lia | intros H; inversion H].
  - destruct (impact_eqb (impact (i_rule x)) i) eqn:E.
    + split; [intros _ | simpl; lia].
      constructor. destruct (impact (i_rule x)), i; first [reflexivity | discriminate E].
    + rewrite IH. split; [intros H; constructor 2; exact H |].
      intros H. apply Exists_cons in H. destruct H as [Hx | Hl]; [| exact Hl].
      rewrite Hx in E. destruct i; discriminate E.
Qed.

(** C2. The compliance level of every scan: non-compliant with at least
    one critical issue; otherwise partially-compliant with more than one
    serious issue; otherwise needs-improvement with any issue; otherwise
    compliant.  One serious issue and no critical one is
    needs-improvement. *)
Theorem compliance_level_escalation d url now res :
  scanHTML d url now = Normal res ->
  let l := r_issues res in
  let crit := count_impact critical l in
  let ser := count_impact serious l in
  ((1 <= crit)%nat <-> Exists (fun x => impact (i_rule x) = critical) l)
  /\ ((1 <= crit)%nat -> complianceLevel res = non_compliant)
  /\ (crit = 0%nat -> (1 < ser)%nat -> complianceLevel res = partially_compliant)
  /\ (crit = 0%nat -> (ser <= 1)%nat -> l <> [] ->
      complianceLevel res = needs_improvement)
  /\ (l = [] -> complianceLevel res = compliant)
  /\ (crit = 0%nat -> ser = 1%nat -> complianceLevel res = needs_improvement).
Proof.
  intros H. apply scanHTML_report in H. destruct H as (s & _ & ->).
  simpl r_issues. simpl complianceLevel. unfold complianceLevel_of.
  set (crit := count_impact critical (issues s)).
  set (ser := count_impact serious (issues s)).
  split; [apply count_impact_exists |].
  split.
  { intros Hc. destruct (Nat.ltb_spec 0 crit); [reflexivity | lia]. }
  split.
  { intros Hc Hs. destruct (Nat.ltb_spec 0 crit); [lia |].
    destruct (Nat.ltb_spec 1 ser); [reflexivity | lia]. }
  split.
  { intros Hc Hs Hne. destruct (Nat.ltb_spec 0 crit); [lia |].
    destruct (Nat.ltb_spec 1 ser); [lia |].
    destruct (issues s); [contradiction | reflexivity]. }
  split.
  { intros Hnil. subst crit ser. rewrite Hnil. reflexivity. }
  intros Hc Hs. destruct (Nat.ltb_spec 0 crit); [lia |].
  destruct (Nat.ltb_spec 1 ser); [lia |].
  assert (Hex : Exists (fun x => impact (i_rule x) = serious) (issues s))
    by (apply count_impact_exists; fold ser; lia).
  destruct (issues s); [inversion Hex | reflexivity].
Qed.

Lemma compliance_level_escalation_witness :
  exists res,
    scanHTML blank "https://example.com" 0 = Normal res
    /\ complianceLevel res = partially_compliant.
Proof.
  eexists. split; [vm_compute; reflexivity |].
  refine (proj1 (proj2 (proj2 (compliance_level_escalation
            blank "https://example.com" 0 _ _))) _ _);
    vm_compute; first [reflexivity | lia].
Defined.

Lemma evaluated_applicable d k :
  (existsb (ruleId_eqb k) evaluated && applicable d k)%bool = applicable d k.
Proof. destruct k; reflexivity. Qed.

Lemma evaluated_warned d k :
  (existsb (ruleId_eqb k) evaluated && warned d k)%bool = warned d k.
Proof. destruct k; reflexivity. Qed.

(** C9. In every scan each rule of the catalogue ends in at most one of
    Issue and Pass, in exactly one of them when its guard makes it
    applicable and in neither otherwise; a rule that is not judged is
    silent or leaves a single Warning; every Issue stands for at least
    one violation found. *)
Theorem one_outcome_per_rule d url now res :
  scanHTML d url now = Normal res ->
  forall k : RuleId,
    let n_issue := issue_count k (r_issues res) in
    let n_pass := pass_count k (r_passes res) in
    let n_warning := warning_count k (r_warnings res) in
    (n_issue + n_pass <= 1)%nat
    /\ (applicable d k = true -> (n_issue + n_pass = 1)%nat)
    /\ (applicable d k = false -> n_issue = 0%nat /\ n_pass = 0%nat)
    /\ n_warning = bump (warned d k)
    /\ (n_warning = 1%nat -> n_issue = 0%nat /\ n_pass = 0%nat)
    /\ Forall founded (r_issues res).
Proof.
  intros H k. apply scanHTML_report in H. destruct H as (s & Hrun & ->).
  simpl r_issues. simpl r_passes. simpl r_warnings.
  pose proof (run_checks_trace d s Hrun) as T.
  destruct (trace_counts d evaluated initial s T NoDup_evaluated k) as [Hj Hw].
  rewrite evaluated_applicable in Hj. rewrite evaluated_warned in Hw.
  unfold judged in Hj. simpl in Hj, Hw.
  assert (Hex : applicable d k = true -> warned d k = false) by apply exclusive.
  repeat split.
  - destruct (applicable d k); simpl in Hj; lia.
  - intros Ha. rewrite Ha in Hj. simpl in Hj. lia.
  - rewrite H in Hj. simpl in Hj. lia.
  - rewrite H in Hj. simpl in Hj. lia.
  - exact Hw.
  - rewrite Hw in H. destruct (applicable d k);
      [rewrite Hex in H by reflexivity; discriminate H | simpl in Hj; lia].
  - rewrite Hw in H. destruct (applicable d k);
      [rewrite Hex in H by reflexivity; discriminate H | simpl in Hj; lia].
  - apply (trace_founded d evaluated initial s T). constructor.
Qed.

Lemma one_outcome_per_rule_witness :
  exists res,
    scanHTML blank "https://example.com" 0 = Normal res
    /\ (issue_count missing_lang (r_issues res)
        + pass_count missing_lang (r_passes res) = 1)%nat.
Proof.
  eexists. split; [vm_compute; reflexivity |].
  refine (proj1 (proj2 (one_outcome_per_rule
            blank "https://example.com" 0 _ _ missing_lang)) _);
    vm_compute; reflexivity.
Defined.

(* ------------------------------------------------------------------ *)
(** * Properties of the contrast rule *)

Import ColorSpec ContrastSpec.

Section Colorimetry.
Open Scope R_scope.

Lemma Rpower_one (y : R) : Rpower 1 y = 1.
Proof. unfold Rpower. rewrite ln_1, Rmult_0_r. apply exp_0. Qed.

(** The gamma curve of exponent 2.4 is the fifth root of a twelfth
    power. *)
Lemma gamma_pow (x : R) : 0 < x -> (Rpower x 2.4) ^ 5 = x ^ 12.
Proof.
  intros Hx.
  rewrite <- (Rpower_pow 5 (Rpower x 2.4)) by apply exp_pos.
  rewrite Rpower_mult.
  replace (2.4 * INR 5) with (INR 12) by (simpl; lra).
  apply Rpower_pow. exact Hx.
Qed.

Lemma fifth_root_lt (a b : R) : 0 <= a -> 0 <= b -> a ^ 5 < b ^ 5 -> a < b.
Proof.
  intros Ha Hb Hlt.
  destruct (Rlt_le_dec a b) as [H | H]; [exact H |].
  exfalso. apply (Rlt_irrefl (a ^ 5)).
  apply Rlt_le_trans with (b ^ 5); [exact Hlt |].
  apply pow_incr. split; assumption.
Qed.


Lemma linearize_white : linearize (IZR 255 / 255) = 1.
Proof.
  unfold linearize.
  destruct (Rle_dec (255 / 255) 0.03928) as [H | H]; [lra |].
  replace ((255 / 255 + 0.055) / 1.055) with 1 by lra.
  apply Rpower_one.
Qed.

Lemma linearize_gray :
  0.1839 < linearize (IZR 119 / 255) < 0.1848.
Proof.
  unfold linearize.
  destruct (Rle_dec (119 / 255) 0.03928) as [H | H]; [lra |].
  set (x := (119 / 255 + 0.055) / 1.055).
  assert (Hx : 0 < x) by (unfold x; lra).
  pose proof (gamma_pow x Hx) as Hp.
  assert (Hy : 0 < Rpower x 2.4) by apply exp_pos.
  assert (Hlo : 0.1839 ^ 5 < x ^ 12) by (unfold x; lra).
  assert (Hhi : x ^ 12 < 0.1848 ^ 5) by (unfold x; lra).
  split; apply fifth_root_lt; try lra.
Qed.

(** The scenario's ratio: about 4.48, below the threshold. *)
Lemma gray_on_white_ratio :
  4.47 < contrastRatio gray white < 4.49.
Proof.
  unfold contrastRatio, relativeLuminance. simpl.
  rewrite linearize_white.
  pose proof linearize_gray as [Hlo Hhi].
  set (y := linearize (119 / 255)) in *.
  replace (0.2126 * y + 0.7152 * y + 0.0722 * y) with y by lra.
  replace (0.2126 * 1 + 0.7152 * 1 + 0.0722 * 1) with 1 by lra.
  rewrite Rmax_right by lra. rewrite Rmin_left by lra.
  split.
  - apply Rmult_lt_reg_r with (y + 0.05); [lra |].
    unfold Rdiv. rewrite Rmult_assoc, Rinv_l by lra. lra.
  - apply Rmult_lt_reg_r with (y + 0.05); [lra |].
    unfold Rdiv. rewrite Rmult_assoc, Rinv_l by lra. lra.
Qed.

Lemma linearize_range (v : R) : 0 <= v <= 1 -> 0 <= linearize v <= 1.
Proof.
  intros [H0 H1]. unfold linearize.
  destruct (Rle_dec v 0.03928) as [H | H].
  - lra.
  - split.
    + left. apply exp_pos.
    + rewrite <- (Rpower_one 2.4).
      apply Rle_Rpower_l; [lra |].
      split.
      * apply Rdiv_lt_0_compat; lra.
      * apply Rmult_le_reg_r with 1.055; [lra |].
        unfold Rdiv. rewrite Rmult_assoc, Rinv_l by lra. lra.
Qed.

Lemma channel_range (v : Z) : (0 <= v <= 255)%Z -> 0 <= IZR v / 255 <= 1.
Proof.
  intros [H0 H1]. apply IZR_le in H0. apply IZR_le in H1.
  split.
  - apply Rmult_le_reg_r with 255; [lra |].
    unfold Rdiv. rewrite Rmult_assoc, Rinv_l by lra. lra.
  - apply Rmult_le_reg_r with 255; [lra |].
    unfold Rdiv. rewrite Rmult_assoc, Rinv_l by lra. lra.
Qed.

Lemma luminance_range (c : RGB) :
  in_gamut c -> 0 <= relativeLuminance c <= 1.
Proof.
  intros (Hr & Hg & Hb). unfold relativeLuminance.
  pose proof (linearize_range _ (channel_range _ Hr)).
  pose proof (linearize_range _ (channel_range _ Hg)).
  pose proof (linearize_range _ (channel_range _ Hb)).
  lra.
Qed.

Lemma linearize_zero : linearize (IZR 0 / 255) = 0.
Proof.
  unfold linearize. destruct (Rle_dec (0 / 255) 0.03928) as [H | H]; lra.
Qed.

Lemma linearize_nonneg (v : R) : 0 <= v -> 0 <= linearize v.
Proof.
  intros H. unfold linearize.
  destruct (Rle_dec v 0.03928); [lra | left; apply exp_pos].
Qed.

(** The specification's wording and the source's arithmetic give the
    same luminance and the same ratio. *)
Lemma wcag_luminance_eq (c : RGB) : wcag_luminance c = relativeLuminance c.
Proof. reflexivity. Qed.

Lemma wcag_ratio_eq (c1 c2 : RGB) : wcag_ratio c1 c2 = contrastRatio c1 c2.
Proof.
  unfold wcag_ratio, contrastRatio.
  change (wcag_luminance c1) with (relativeLuminance c1).
  change (wcag_luminance c2) with (relativeLuminance c2).
  cbv zeta.
  destruct (Rle_dec (relativeLuminance c1) (relativeLuminance c2)) as [H | H].
  - rewrite Rmax_right, Rmin_left by exact H. reflexivity.
  - rewrite Rmax_left, Rmin_right by lra. reflexivity.
Qed.

Lemma two_pow_1024 : 1 < 2 ^ 1024.
Proof.
  change 2 with (IZR 2). rewrite pow_IZR. apply IZR_lt.
  vm_compute. reflexivity.
Qed.

(** Up to 2^53 the gamma curve of a channel stays a finite number. *)
Lemma exact_channel_finite (v : Z) :
  (0 <= v <= 9007199254740992)%Z -> channel_finite v = true.
Proof.
  intros [H0 H1]. unfold channel_finite.
  destruct (Rlt_dec (linearize (IZR v / 255)) (2 ^ 1024)) as [Hlt | Hge];
    [reflexivity |].
  exfalso. apply Hge. clear Hge.
  apply IZR_le in H0. apply IZR_le in H1.
  pose proof two_pow_1024 as H2.
  unfold linearize.
  destruct (Rle_dec (IZR v / 255) 0.03928) as [Hs | Hs]; [lra |].
  set (x := (IZR v / 255 + 0.055) / 1.055).
  set (X := IZR (2 ^ 46)).
  assert (HX : X = 70368744177664) by (unfold X; f_equal).
  assert (Hx : 0 < x <= X) by (unfold x; rewrite HX; lra).
  apply Rle_lt_trans with (Rpower X 2.4).
  - apply Rle_Rpower_l; [lra | exact Hx].
  - apply fifth_root_lt; [left; apply exp_pos | lra |].
    rewrite gamma_pow by lra.
    rewrite <- pow_mult.
    unfold X. change 2 with (IZR 2). rewrite !pow_IZR.
    apply IZR_lt. vm_compute. reflexivity.
Qed.

Lemma exact_luminance_finite (c : RGB) :
  exact_channels c -> luminance_finite c = true.
Proof.
  intros (Hr & Hg & Hb). unfold luminance_finite.
  rewrite !exact_channel_finite by assumption. reflexivity.
Qed.

Lemma gamut_exact (c : RGB) : in_gamut c -> exact_channels c.
Proof. unfold in_gamut, exact_channels. lia. Qed.

(** A channel of 140 digits: the gamma curve leaves the binary64 range,
    with a margin that the rounding of [parseInt] does not reach. *)
Lemma huge_channel_infinite (v : Z) :
  (10 ^ 139 <= v)%Z -> channel_finite v = false.
Proof.
  intros H. unfold channel_finite.
  destruct (Rlt_dec (linearize (IZR v / 255)) (2 ^ 1024)) as [Hlt | Hge];
    [| reflexivity].
  exfalso.
  set (X := IZR (10 ^ 136)).
  assert (HX : 1 <= X) by (apply IZR_le; vm_compute; discriminate).
  assert (HV : 1000 * X <= IZR v).
  { unfold X. rewrite <- mult_IZR. apply IZR_le.
    replace (1000 * 10 ^ 136)%Z with (10 ^ 139)%Z by (vm_compute; reflexivity).
    exact H. }
  unfold linearize in Hlt.
  destruct (Rle_dec (IZR v / 255) 0.03928) as [Hs | Hs]; [lra |].
  set (x := (IZR v / 255 + 0.055) / 1.055) in Hlt.
  assert (Hx : X <= x) by (unfold x; lra).
  assert (Hm : Rpower X 2.4 <= Rpower x 2.4).
  { apply Rle_Rpower_l; [lra |]. split; [lra | exact Hx]. }
  assert (Hp : 0 < Rpower X 2.4) by apply exp_pos.
  assert (H5 : (Rpower X 2.4) ^ 5 <= (2 ^ 1024) ^ 5).
  { apply pow_incr. split; lra. }
  rewrite gamma_pow in H5 by lra.
  rewrite <- pow_mult in H5.
  unfold X in H5. change 2 with (IZR 2) in H5. rewrite !pow_IZR in H5.
  apply le_IZR in H5. revert H5. vm_compute. intros H5. apply H5. reflexivity.
Qed.

Lemma beyond_range_infinite (c : RGB) :
  beyond_range c -> luminance_finite c = false.
Proof.
  intros [H | [H | H]]; apply huge_channel_infinite in H;
    unfold luminance_finite; rewrite H.
  - reflexivity.
  - apply andb_false_iff. left. apply andb_false_r.
  - apply andb_false_r.
Qed.

Lemma ratio_below_lt (c1 c2 : RGB) (t : R) :
  ratio_below c1 c2 t = true -> wcag_ratio c1 c2 < t.
Proof.
  unfold ratio_below. rewrite wcag_ratio_eq.
  destruct (luminance_finite c1 && luminance_finite c2)%bool;
    [| discriminate].
  destruct (Rlt_dec (contrastRatio c1 c2) t); [trivial | discriminate].
Qed.

Lemma ratio_below_exact (c1 c2 : RGB) (t : R) :
  exact_channels c1 -> exact_channels c2 ->
  wcag_ratio c1 c2 < t -> ratio_below c1 c2 t = true.
Proof.
  intros H1 H2 Hlt. unfold ratio_below.
  rewrite (exact_luminance_finite _ H1), (exact_luminance_finite _ H2).
  rewrite wcag_ratio_eq in Hlt. simpl.
  destruct (Rlt_dec (contrastRatio c1 c2) t); [reflexivity | contradiction].
Qed.

Lemma ratio_below_beyond (c1 c2 : RGB) (t : R) :
  beyond_range c1 \/ beyond_range c2 -> ratio_below c1 c2 t = false.
Proof.
  intros [H | H]; apply beyond_range_infinite in H; unfold ratio_below;
    rewrite H; [reflexivity | rewrite andb_false_r; reflexivity].
Qed.

(** A colour against itself has ratio 1. *)
Lemma wcag_ratio_self (c : RGB) :
  (0 <= r c)%Z -> (0 <= g c)%Z -> (0 <= b c)%Z -> wcag_ratio c c = 1.
Proof.
  intros Hr Hg Hb.
  assert (Hc : forall v, (0 <= v)%Z -> 0 <= linearize (IZR v / 255)).
  { intros v Hv. apply linearize_nonneg. apply IZR_le in Hv.
    apply Rmult_le_reg_r with 255; [lra |].
    unfold Rdiv. rewrite Rmult_assoc, Rinv_l by lra. lra. }
  pose proof (Hc _ Hr). pose proof (Hc _ Hg). pose proof (Hc _ Hb).
  unfold wcag_ratio.
  change (wcag_luminance c) with (relativeLuminance c).
  assert (0 <= relativeLuminance c) by (unfold relativeLuminance; lra).
  destruct (Rle_dec (relativeLuminance c) (relativeLuminance c));
    apply Rinv_r; lra.
Qed.

End Colorimetry.

Lemma mapM_In {X Y : Type} (f : X -> Completion Y) (l : list X) (ys : list Y) (x : X) :
  mapM f l = Normal ys -> In x l -> exists y, f x = Normal y /\ In y ys.
Proof.
  revert ys. induction l as [| a l IH]; intros ys H Hin; [contradiction |].
  simpl in H.
  destruct (f a) as [y0 |] eqn:Ea; simpl in H; [| discriminate].
  destruct (mapM f l) as [ys0 |] eqn:El; simpl in H; [| discriminate].
  injection H as <-.
  destruct Hin as [-> | Hin].
  - exists y0. split; [exact Ea | left; reflexivity].
  - destruct (IH ys0 eq_refl Hin) as (y & Ey & Hy).
    exists y. split; [exact Ey | right; exact Hy].
Qed.

Lemma checks_18_21_grow d s :
  exists more, issues (checks_18_21 d s) = issues s ++ more.
Proof.
  apply (trace_grows d
    [keyboard_trap; missing_focus_style; generic_link_text; missing_keyboard_access]).
  unfold checks_18_21.
  apply Trace_step with (f := check_keyboard_trap d); [apply block_keyboard_trap |].
  apply Trace_step with (f := check_missing_focus_style d); [apply block_missing_focus_style |].
  apply Trace_step with (f := check_generic_link_text d); [apply block_generic_link_text |].
  apply Trace_step with (f := check_missing_keyboard_access d); [apply block_missing_keyboard_access |].
  apply Trace_nil.
Qed.

(** A violation of one styled element reaches the scan's Issue list. *)
Lemma violation_reaches_issues d url now res el v :
  scanHTML d url now = Normal res ->
  In el (styled d) ->
  contrast_of el = Normal [v] ->
  exists i, In i (r_issues res)
            /\ i_rule i = WCAG_RULES color_contrast_inline
            /\ (1 <= count i)%nat.
Proof.
  intros H Hin Hv.
  apply scanHTML_report in H. destruct H as (s & Hrun & ->). simpl r_issues.
  unfold run_checks, check_color_contrast_inline, contrastIssues in Hrun.
  destruct (mapM contrast_of (styled d)) as [found |] eqn:Em; simpl in Hrun;
    [| discriminate].
  injection Hrun as <-.
  destruct (mapM_In _ _ _ _ Em Hin) as (y & Ey & Hy).
  rewrite Hv in Ey. injection Ey as <-.
  assert (Hc : In v (List.concat found)).
  { apply in_concat. exists [v]. split; [exact Hy | left; reflexivity]. }
  destruct (List.concat found) as [| c cs] eqn:Ecs; [contradiction |].
  change (nonempty (c :: cs)) with true. cbv iota.
  destruct (checks_18_21_grow d
              (addIssue color_contrast_inline (c :: cs) (checks_1_16 d initial)))
    as (more & E).
  rewrite E. simpl issues.
  eexists. split.
  - apply in_or_app. left. apply in_or_app. right. left. reflexivity.
  - simpl. split; [reflexivity | lia].
Qed.

Lemma parse_777 : parseColor "#777" = Normal (Some gray).
Proof. vm_compute. reflexivity. Qed.

Lemma parse_fff : parseColor "#fff" = Normal (Some white).
Proof. vm_compute. reflexivity. Qed.

Lemma gray_in_gamut : in_gamut gray /\ in_gamut white.
Proof. unfold in_gamut; simpl; lia. Qed.

Lemma gray_on_white_violation (text : string) :
  exists v,
    contrast_of {| s_style := "color:#777;background-color:#fff"; s_text := text |}
    = Normal [v].
Proof.
  unfold contrast_of. simpl s_style.
  change (colorMatch "color:#777;background-color:#fff") with (Some "#777").
  change (bgMatch "color:#777;background-color:#fff") with (Some "#fff").
  cbv beta iota zeta.
  rewrite parse_777, parse_fff. unfold bind.
  rewrite ratio_below_exact; [eexists; reflexivity | | |].
  - apply gamut_exact, gray_in_gamut.
  - apply gamut_exact, gray_in_gamut.
  - rewrite wcag_ratio_eq. pose proof gray_on_white_ratio. lra.
Qed.

Lemma huge_style :
  colorMatch (s_style huge_on_huge) = Some huge_rgb
  /\ bgMatch (s_style huge_on_huge) = Some huge_rgb
  /\ parseColor huge_rgb = Normal (Some huge).
Proof. vm_compute. repeat split; reflexivity. Qed.

Lemma huge_beyond_range : beyond_range huge.
Proof. left. vm_compute. discriminate. Qed.




(* ------------------------------------------------------------------ *)
(** * Properties of the page fetcher *)

Import Fetch FetchSpec.

Lemma string_length_app (a b : string) :
  String.length (a ++ b) = (String.length a + String.length b)%nat.
Proof. induction a as [| c a IH]; simpl; [reflexivity | rewrite IH; reflexivity]. Qed.

Lemma string_app_assoc (a b c : string) :
  ((a ++ b) ++ c = a ++ (b ++ c))%string.
Proof. induction a as [| x a IH]; simpl; [reflexivity | rewrite IH; reflexivity]. Qed.

Lemma string_app_empty (a : string) : (a ++ "")%string = a.
Proof. induction a as [| c a IH]; simpl; [reflexivity | rewrite IH; reflexivity]. Qed.

Lemma concat_cons (c : string) (cs : list string) :
  String.concat "" (c :: cs) = (c ++ String.concat "" cs)%string.
Proof. destruct cs; simpl; [rewrite string_app_empty |]; reflexivity. Qed.

(** A body that arrives in chunks and ends within the ceiling resolves to
    the chunks put together. *)
Lemma read_body_chunks (chunks : list string) (rest : list BodyEvent) (data : string) :
  Z.of_nat (String.length (data ++ String.concat "" chunks)) <= maxBytes ->
  read_body data (map Data chunks ++ EndOfBody :: rest)
  = Resolved (data ++ String.concat "" chunks).
Proof.
  revert data. induction chunks as [| c cs IH]; intros data Hle.
  - cbn [map app read_body]. change (String.concat "" []) with "".
    rewrite string_app_empty. reflexivity.
  - rewrite concat_cons in Hle |- *. rewrite <- string_app_assoc in Hle |- *.
    cbn [map app read_body].
    destruct (Z.ltb_spec maxBytes (Z.of_nat (String.length (data ++ c)))) as [Hbig | _].
    + rewrite string_length_app in Hle. lia.
    + apply IH. exact Hle.
Qed.

(** The listeners on the response never reject with an HTTP status. *)
Lemma read_body_no_status (events : list BodyEvent) (data : string) (code : Z) :
  read_body data events <> Rejected (HttpStatus code).
Proof.
  revert data. induction events as [| ev events IH]; intros data; simpl.
  - discriminate.
  - destruct ev as [chunk | | e | f].
    + destruct (maxBytes <? _); [discriminate | apply IH].
    + discriminate.
    + discriminate.
    + destruct f; discriminate.
Qed.

Section FetcherFacts.

Local Open Scope nat_scope.

Variable parse_url : string -> option string.
Variable resolve_url : string -> string -> option string.
Variable protocol_of : string -> string.
Variable exchange : nat -> string -> Exchange.

Local Notation "'doFetch'" :=
  (Fetch.doFetch resolve_url protocol_of exchange).
Local Notation "'fetchHTML'" :=
  (Fetch.fetchHTML parse_url resolve_url protocol_of exchange).
Local Notation "'hop'" := (FetchSpec.hop resolve_url protocol_of exchange).
Local Notation "'chain'" := (FetchSpec.chain resolve_url protocol_of exchange).
Local Notation "'terminal'" := (FetchSpec.terminal protocol_of exchange).

Lemma doFetch_unfold mp r u :
  doFetch mp r u =
  if get_throws protocol_of mp u then Throw "TypeError [ERR_INVALID_PROTOCOL]"
  else match exchange r u with
       | NoResponse f => Normal (Rejected (failure f))
       | Responded res =>
           if is_redirect res then
             if Nat.ltb 5 (S r) then Normal (Rejected TooManyRedirects)
             else match resolve_url (or_default (location res) "") u with
                  | None => Normal (Rejected InvalidRedirectURL)
                  | Some href => guarded (doFetch mp (S r) href)
                  end
           else if negb (statusCode res =? 200)%Z
                then Normal (Rejected (HttpStatus (statusCode res)))
                else Normal (read_body "" (body res))
       end.
Proof.
  funelim (doFetch mp r u).
  all: clear Heqcall;
    repeat match goal with
           | H : ?a = _ |- context [?a] => rewrite H
           end; reflexivity.
Qed.

(** One redirect within the cap is followed. *)
Lemma doFetch_hop mp urls k :
  (k < 5) -> hop mp urls k ->
  doFetch mp k (urls k) = guarded (doFetch mp (S k) (urls (S k))).
Proof.
  intros Hk (Hg & res & Hex & Hred & Hres).
  rewrite doFetch_unfold, Hg, Hex, Hred, Hres.
  destruct (Nat.ltb_spec 5 (S k)); [lia | reflexivity].
Qed.

(** A chain within the cap leads to the request after it. *)
Lemma doFetch_chain mp urls n settled :
  (n <= 5) -> chain mp urls n ->
  doFetch mp n (urls n) = Normal settled ->
  doFetch mp 0 (urls 0) = Normal settled.
Proof.
  intros Hn Hc Hend.
  assert (Hall : forall j, (j <= n) ->
                   doFetch mp (n - j) (urls (n - j)) = Normal settled).
  { induction j as [| j IH]; intros Hj.
    - rewrite Nat.sub_0_r. exact Hend.
    - rewrite (doFetch_hop mp urls (n - S j)); [| lia | apply Hc; lia].
      replace (S (n - S j)) with (n - j) by lia.
      rewrite IH by lia. reflexivity. }
  specialize (Hall n (Nat.le_refl n)). rewrite Nat.sub_diag in Hall. exact Hall.
Qed.

Lemma fetchHTML_start urlStr href settled :
  parse_url (with_scheme urlStr) = Some href ->
  doFetch (module_for protocol_of href) 0 href = Normal settled ->
  fetchHTML urlStr = settled.
Proof.
  intros Hp Hd. unfold Fetch.fetchHTML. fold (with_scheme urlStr).
  rewrite Hp. fold (module_for protocol_of href). rewrite Hd. reflexivity.
Qed.

(** How a fetch ends whose chain of [n] hops reaches a response that is
    not a redirect. *)
Lemma fetchHTML_terminal urlStr urls n res :
  parse_url (with_scheme urlStr) = Some (urls 0) ->
  (n <= 5) ->
  chain (module_for protocol_of (urls 0)) urls n ->
  terminal (module_for protocol_of (urls 0)) urls n res ->
  fetchHTML urlStr
  = if negb (statusCode res =? 200)%Z then Rejected (HttpStatus (statusCode res))
    else read_body "" (body res).
Proof.
  intros Hp Hn Hc (Hg & Hex & Hred).
  apply (fetchHTML_start urlStr (urls 0)); [exact Hp |].
  apply (doFetch_chain _ urls n); [exact Hn | exact Hc |].
  rewrite doFetch_unfold, Hg, Hex, Hred.
  destruct (negb (statusCode res =? 200)%Z); reflexivity.
Qed.

(** C5. Redirects (3xx with a location) are followed up to five times:
    five hops and then a 200 response whose body ends within the ceiling
    resolve with that body; a sixth redirect rejects with 'Too many
    redirects'; a redirect within the cap whose target does not parse
    rejects with 'Invalid redirect URL'.  The hops stay on the protocol
    of the first URL. *)
Theorem redirect_cap (urlStr : string) (urls : nat -> string) :
  parse_url (with_scheme urlStr) = Some (urls 0) ->
  let mp := module_for protocol_of (urls 0) in
  (forall res chunks rest,
      chain mp urls 5 -> terminal mp urls 5 res ->
      statusCode res = 200%Z ->
      body res = map Data chunks ++ EndOfBody :: rest ->
      (Z.of_nat (String.length (String.concat "" chunks)) <= maxBytes)%Z ->
      fetchHTML urlStr = Resolved (String.concat "" chunks))
  /\ (forall res,
      chain mp urls 5 ->
      get_throws protocol_of mp (urls 5) = false ->
      exchange 5 (urls 5) = Responded res ->
      is_redirect res = true ->
      fetchHTML urlStr = Rejected TooManyRedirects)
  /\ (forall n res,
      (n <= 4) -> chain mp urls n ->
      get_throws protocol_of mp (urls n) = false ->
      exchange n (urls n) = Responded res ->
      is_redirect res = true ->
      resolve_url (or_default (location res) "") (urls n) = None ->
      fetchHTML urlStr = Rejected InvalidRedirectURL).
Proof.
  intros Hp mp. split; [| split].
  - intros res chunks rest Hc Ht Hs Hb Hlen.
    rewrite (fetchHTML_terminal urlStr urls 5 res Hp (Nat.le_refl 5) Hc Ht).
    rewrite Hs, Hb. simpl negb. cbv iota.
    apply (read_body_chunks chunks rest ""). exact Hlen.
  - intros res Hc Hg Hex Hred.
    apply (fetchHTML_start urlStr (urls 0)); [exact Hp |].
    apply (doFetch_chain _ urls 5); [lia | exact Hc |].
    fold mp. rewrite doFetch_unfold, Hg, Hex, Hred. reflexivity.
  - intros n res Hn Hc Hg Hex Hred Hres.
    apply (fetchHTML_start urlStr (urls 0)); [exact Hp |].
    apply (doFetch_chain _ urls n); [lia | exact Hc |].
    fold mp. rewrite doFetch_unfold, Hg, Hex, Hred, Hres.
    destruct (Nat.ltb_spec 5 (S n)); [lia | reflexivity].
Qed.

(** C6, as the code has it.  When the chain of redirects (within the
    cap) reaches a response that is not a redirect, the fetch rejects with
    'HTTP ' + status exactly when the status is not 200; with status 200
    it settles as the body listeners decide, and resolves with the chunks
    put together when the body ends within the ceiling. *)
Theorem terminal_status (urlStr : string) (urls : nat -> string)
  (n : nat) (res : Response) :
  parse_url (with_scheme urlStr) = Some (urls 0) ->
  (n <= 5) ->
  chain (module_for protocol_of (urls 0)) urls n ->
  terminal (module_for protocol_of (urls 0)) urls n res ->
  ((exists code, fetchHTML urlStr = Rejected (HttpStatus code))
   <-> statusCode res <> 200%Z)
  /\ (statusCode res <> 200%Z ->
      fetchHTML urlStr = Rejected (HttpStatus (statusCode res)))
  /\ (statusCode res = 200%Z -> fetchHTML urlStr = read_body "" (body res))
  /\ (forall chunks rest,
        statusCode res = 200%Z ->
        body res = map Data chunks ++ EndOfBody :: rest ->
        (Z.of_nat (String.length (String.concat "" chunks)) <= maxBytes)%Z ->
        fetchHTML urlStr = Resolved (String.concat "" chunks)).
Proof.
  intros Hp Hn Hc Ht.
  pose proof (fetchHTML_terminal urlStr urls n res Hp Hn Hc Ht) as E.
  destruct (Z.eqb_spec (statusCode res) 200%Z) as [H200 | Hne]; simpl in E.
  - split; [| split; [| split]].
    + split; [| intros Hne; contradiction].
      intros (code & Hcode). rewrite E in Hcode.
      exfalso. exact (read_body_no_status _ _ _ Hcode).
    + intros Hne. contradiction.
    + intros _. exact E.
    + intros chunks rest _ Hb Hlen. rewrite E, Hb.
      apply (read_body_chunks chunks rest ""). exact Hlen.
  - split; [| split; [| split]].
    + split; [intros _; exact Hne | intros _; eexists; exact E].
    + intros _. exact E.
    + intros H200. contradiction.
    + intros chunks rest H200. contradiction.
Qed.

End FetcherFacts.

Lemma redirecting_chain (stop : nat) (last : Response) (n : nat) :
  (n <= stop)%nat -> (stop <= 9)%nat ->
  FetchSpec.chain absolute https_only (redirecting stop last) "https:" page n.
Proof.
  intros Hn Hs k Hk. split; [reflexivity |].
  eexists. split; [| split].
  - unfold redirecting. destruct (Nat.ltb_spec k stop); [reflexivity | lia].
  - reflexivity.
  - reflexivity.
Qed.

Lemma redirect_cap_witness :
  fetchHTML Some absolute https_only (redirecting 5%nat ok_page) (page 0%nat)
  = Resolved "<html></html>"
  /\ fetchHTML Some absolute https_only (redirecting 6%nat ok_page) (page 0%nat)
     = Rejected TooManyRedirects.
Proof.
  split.
  - refine (proj1 (redirect_cap Some absolute https_only (redirecting 5%nat ok_page)
                     (page 0%nat) page _)
              ok_page ["<html>"; "</html>"] [] _ _ _ _ _).
    + reflexivity.
    + apply redirecting_chain; lia.
    + repeat split.
    + reflexivity.
    + reflexivity.
    + vm_compute. discriminate.
  - refine (proj1 (proj2 (redirect_cap Some absolute https_only
                            (redirecting 6%nat ok_page) (page 0%nat) page _))
              _ _ _ _ _).
    + reflexivity.
    + apply redirecting_chain; lia.
    + reflexivity.
    + reflexivity.
    + reflexivity.
Defined.

(** C5 at a redirect from HTTP to HTTPS.  The specification has every
    redirect within the cap followed; here the response is a redirect, its
    target parses, and the fetch rejects with 'Invalid redirect URL'
    instead of following it, because [protocol.get] of the module chosen
    for the first URL throws on an href of the other protocol. *)
Theorem cross_protocol_redirect_is_rejected :
  is_redirect {| statusCode := 301; location := Some "https://example.com/";
                 body := [] |} = true
  /\ absolute "https://example.com/" "http://example.com/"
     = Some "https://example.com/"
  /\ fetchHTML Some absolute scheme_of upgrading "http://example.com/"
     = Rejected InvalidRedirectURL.
Proof. repeat split. Qed.

(** C6 as the specification words it does not hold: a terminal 204
    response is a 2xx response and is rejected with 'HTTP 204'. *)
Lemma success_204_is_rejected :
  terminal https_only (redirecting 0%nat no_content) "https:" page 0%nat no_content
  /\ 200 <= statusCode no_content < 300
  /\ fetchHTML Some absolute https_only (redirecting 0%nat no_content) (page 0%nat)
     = Rejected (HttpStatus 204).
Proof.
  split; [repeat split |].
  split; [simpl; lia |].
  vm_compute. reflexivity.
Qed.

Lemma terminal_status_witness :
  fetchHTML Some absolute https_only (redirecting 2%nat ok_page) (page 0%nat)
  = Resolved "<html></html>".
Proof.
  refine (proj2 (proj2 (proj2
            (terminal_status Some absolute https_only (redirecting 2%nat ok_page)
               (page 0%nat) page 2%nat ok_page _ _ _ _)))
            ["<html>"; "</html>"] [] _ _ _).
  - reflexivity.
  - lia.
  - apply redirecting_chain; lia.
  - repeat split.
  - reflexivity.
  - reflexivity.
  - vm_compute. discriminate.
Defined.

(* ------------------------------------------------------------------ *)
(** * Properties of the history diff *)

Import History HistorySpec.

Lemma has_In (set : list string) (x : string) : has set x = true <-> In x set.
Proof.
  unfold has. rewrite existsb_exists. split.
  - intros (y & Hin & E). apply String.eqb_eq in E. subst. exact Hin.
  - intros Hin. exists x. split; [exact Hin | apply String.eqb_refl].
Qed.

Lemma add_In (set : list string) (x y : string) :
  In y (add set x) <-> In y set \/ y = x.
Proof.
  unfold add. destruct (has set x) eqn:E.
  - apply has_In in E. split; [intros H; left; exact H |].
    intros [H | ->]; assumption.
  - rewrite in_app_iff. simpl. split.
    + intros [H | [H | []]]; [left; exact H | right; symmetry; exact H].
    + intros [H | ->]; [left; exact H | right; left; reflexivity].
Qed.

Lemma add_NoDup (set : list string) (x : string) :
  NoDup set -> NoDup (add set x).
Proof.
  intros ND. unfold add. destruct (has set x) eqn:E; [exact ND |].
  assert (Hnot : ~ In x set).
  { intros Hin. apply has_In in Hin. rewrite Hin in E. discriminate. }
  clear E. induction ND as [| a l Ha ND IH]; simpl.
  - constructor; [intros [] | constructor].
  - constructor.
    + rewrite in_app_iff. simpl. intros [H | [H | []]]; [contradiction |].
      apply Hnot. left. symmetry. exact H.
    + apply IH. intros H. apply Hnot. right. exact H.
Qed.

Lemma fold_add (l acc : list string) :
  NoDup acc ->
  NoDup (fold_left add l acc)
  /\ forall y, In y (fold_left add l acc) <-> In y acc \/ In y l.
Proof.
  revert acc. induction l as [| x l IH]; intros acc ND; simpl.
  - split; [exact ND | intros y; tauto].
  - destruct (IH (add acc x) (add_NoDup acc x ND)) as [ND' Hin].
    split; [exact ND' |].
    intros y. rewrite Hin, add_In. split.
    + intros [[H | ->] | H]; auto.
    + intros [H | [<- | H]]; auto.
Qed.

(** [new Set(l)] has the members of [l], each once. *)
Lemma new_Set_spec (l : list string) :
  NoDup (new_Set l) /\ forall y, In y (new_Set l) <-> In y l.
Proof.
  destruct (fold_add l [] (NoDup_nil _)) as [ND Hin].
  split; [exact ND |]. intros y. rewrite (Hin y). simpl. tauto.
Qed.

Lemma difference_In (a b : list string) (x : string) :
  In x (filter (fun y => negb (has (new_Set b) y)) (new_Set a))
  <-> In x a /\ ~ In x b.
Proof.
  rewrite filter_In.
  destruct (new_Set_spec a) as [_ Ha]. destruct (new_Set_spec b) as [_ Hb].
  rewrite Ha. split.
  - intros [Hin Hneg]. split; [exact Hin |].
    intros Hx. apply Hb, has_In in Hx. rewrite Hx in Hneg. discriminate.
  - intros [Hin Hnot]. split; [exact Hin |].
    destruct (has (new_Set b) x) eqn:E; [| reflexivity].
    apply has_In, Hb in E. contradiction.
Qed.

Lemma difference_NoDup (a b : list string) :
  NoDup (filter (fun y => negb (has (new_Set b) y)) (new_Set a)).
Proof. apply NoDup_filter. apply new_Set_spec. Qed.

Lemma difference_of_equal (a b : list string) :
  (forall x, In x a <-> In x b) ->
  filter (fun y => negb (has (new_Set b) y)) (new_Set a) = [].
Proof.
  intros Heq.
  destruct (filter (fun y => negb (has (new_Set b) y)) (new_Set a))
    as [| x l] eqn:E; [reflexivity |].
  assert (Hin : In x (x :: l)) by (left; reflexivity).
  rewrite <- E in Hin. apply difference_In in Hin.
  destruct Hin as [Ha Hb]. apply Heq in Ha. contradiction.
Qed.

Lemma entries_length (p : option ScanRecord) (l : list ScanRecord) :
  List.length (entries p l) = List.length l.
Proof. revert p. induction l; intros p; simpl; [| rewrite IHl]; reflexivity. Qed.

(** The entry of a scan carries the diff against the scan before it. *)
Lemma entries_consecutive (l : list ScanRecord) (p : option ScanRecord)
  (i : nat) (prev scan : ScanRecord) :
  nth_error l i = Some prev -> nth_error l (S i) = Some scan ->
  nth_error (entries p l) (S i) = Some (entry_of (Some prev) scan).
Proof.
  revert p i. induction l as [| a l IH]; intros p i Hp Hs; [destruct i; discriminate |].
  destruct i as [| i].
  - simpl in Hp. injection Hp as ->.
    destruct l as [| b l]; simpl in Hs; [discriminate |].
    injection Hs as ->. reflexivity.
  - simpl in Hp. change (nth_error (a :: l) (S (S i))) with (nth_error l (S i)) in Hs.
    simpl entries. change (nth_error (?x :: ?r) (S ?n)) with (nth_error r n).
    apply IH; assumption.
Qed.

Lemma entries_ids (p : option ScanRecord) (l : list ScanRecord) :
  map e_id (entries p l) = map rec_id l.
Proof.
  revert p. induction l as [| a l IH]; intros p; simpl; [reflexivity |].
  rewrite IH. reflexivity.
Qed.

(** The identifiers of a record are the rule identifiers of its issues. *)
Lemma issueIds_In (s : ScanRecord) (x : string) :
  In x (issueIds s)
  <-> exists iss, In iss (Scan.r_issues (result s))
                  /\ Catalogue.id (Scan.i_rule iss) = x.
Proof.
  unfold issueIds. rewrite in_map_iff. split.
  - intros (iss & E & Hin). exists iss. split; assumption.
  - intros (iss & Hin & E). exists iss. split; assumption.
Qed.

(** C4. The history of a URL lists the records of the store whose URL has
    the hostname of the requested one, in the order of the store.  The
    entry of each record after the first carries the diff against the
    record before it: the score change, and in each direction the set
    difference of the rule identifiers of the issues of the two records
    (fixed: an issue of the earlier record has the rule, none of the later
    one has; new: the other way round), each identifier once, with the
    counts the sizes of the two sets.  Two consecutive records whose
    issues have the same rule identifiers have both counts 0, whatever
    the occurrence counts of the issues. *)
Theorem diff_is_set_difference (hostname : string -> option string)
  (scanHistory : list ScanRecord) (decoded url domain : string)
  (total : nat) (history : list Entry) (latest : option Diff) :
  scan_history hostname scanHistory decoded = Found url domain total history latest ->
  let urlScans :=
    filter (fun s => match hostname (Scan.url (result s)) with
                     | Some h => String.eqb h domain
                     | None => false
                     end) scanHistory in
  let rule_of (s : ScanRecord) (x : string) :=
    exists iss, In iss (Scan.r_issues (result s))
                /\ Catalogue.id (Scan.i_rule iss) = x in
  hostname url = Some domain
  /\ map e_id history = map rec_id urlScans
  /\ total = List.length urlScans
  /\ forall i prev scan,
      nth_error urlScans i = Some prev ->
      nth_error urlScans (S i) = Some scan ->
      exists e d,
        nth_error history (S i) = Some e
        /\ e_id e = rec_id scan
        /\ e_diff e = Some d
        /\ scoreChange d = Scan.score (result scan) - Scan.score (result prev)
        /\ NoDup (issuesFixed d) /\ NoDup (newIssues d)
        /\ (forall x, In x (issuesFixed d) <-> rule_of prev x /\ ~ rule_of scan x)
        /\ (forall x, In x (newIssues d) <-> rule_of scan x /\ ~ rule_of prev x)
        /\ issuesFixedCount d = List.length (issuesFixed d)
        /\ newIssuesCount d = List.length (newIssues d)
        /\ ((forall x, rule_of prev x <-> rule_of scan x) ->
            issuesFixed d = [] /\ newIssues d = []
            /\ issuesFixedCount d = 0%nat /\ newIssuesCount d = 0%nat).
Proof.
  unfold scan_history.
  destruct (hostname _) as [dom |] eqn:Ehost; [| discriminate].
  destruct (Nat.eqb (List.length (urlScans_of hostname scanHistory dom)) 0);
    [discriminate |].
  intros H. injection H as <- <- <- <- _. cbv zeta.
  change (filter _ scanHistory) with (urlScans_of hostname scanHistory dom).
  split; [exact Ehost |].
  split; [apply entries_ids |].
  split; [apply entries_length |].
  intros i prev scan Hp Hs.
  exists (entry_of (Some prev) scan), (diff_of prev scan).
  split; [apply entries_consecutive; assumption |].
  split; [reflexivity |]. split; [reflexivity |]. split; [reflexivity |].
  unfold diff_of. simpl.
  split; [apply difference_NoDup |].
  split; [apply difference_NoDup |].
  split; [intros x; rewrite difference_In, !issueIds_In; reflexivity |].
  split; [intros x; rewrite difference_In, !issueIds_In; reflexivity |].
  split; [reflexivity |]. split; [reflexivity |].
  intros Heq.
  assert (Hids : forall x, In x (issueIds prev) <-> In x (issueIds scan)).
  { intros x. rewrite !issueIds_In. apply Heq. }
  rewrite !difference_of_equal; [repeat split | |]; try exact Hids.
  intros x. symmetry. apply Hids.
Qed.

Lemma diff_is_set_difference_witness :
  exists history latest e1 d1 e2 d2,
    scan_history host_of mixed_scans "example.com"
    = Found "https://example.com" "example.com" 3 history latest
    /\ map e_id history = ["scan-1"; "scan-3"; "scan-4"]
    /\ nth_error history 1 = Some e1 /\ e_diff e1 = Some d1
    /\ issuesFixedCount d1 = 0%nat /\ newIssuesCount d1 = 0%nat
    /\ nth_error history 2 = Some e2 /\ e_diff e2 = Some d2
    /\ In "missing-alt" (issuesFixed d2)
    /\ In "meta-refresh" (newIssues d2).
Proof.
  pose proof (diff_is_set_difference host_of mixed_scans "example.com"
                "https://example.com" "example.com" 3 _ _ eq_refl) as H.
  cbv zeta in H. destruct H as (_ & Hids & _ & Hpairs).
  destruct (Hpairs 0%nat scan_1 scan_3 eq_refl eq_refl)
    as (e1 & d1 & He1 & _ & Hd1 & _ & _ & _ & _ & _ & _ & _ & Hsame).
  destruct (Hpairs 1%nat scan_3 scan_4 eq_refl eq_refl)
    as (e2 & d2 & He2 & _ & Hd2 & _ & _ & _ & Hfixed & Hnew & _).
  destruct Hsame as (_ & _ & Hf & Hn).
  { intros x.
    etransitivity; [symmetry; apply (issueIds_In scan_1 x) |].
    etransitivity; [| apply (issueIds_In scan_3 x)].
    vm_compute. tauto. }
  eexists _, _, e1, d1, e2, d2.
  split; [reflexivity |]. split; [exact Hids |].
  split; [exact He1 |]. split; [exact Hd1 |].
  split; [exact Hf |]. split; [exact Hn |].
  split; [exact He2 |]. split; [exact Hd2 |].
  split.
  - apply (proj2 (Hfixed "missing-alt")). split.
    + apply (proj1 (issueIds_In scan_3 "missing-alt")).
      apply has_In. vm_compute. reflexivity.
    + intros Hx. apply (proj2 (issueIds_In scan_4 "missing-alt")) in Hx.
      apply has_In in Hx. vm_compute in Hx. discriminate Hx.
  - apply (proj2 (Hnew "meta-refresh")). split.
    + apply (proj1 (issueIds_In scan_4 "meta-refresh")).
      apply has_In. vm_compute. reflexivity.
    + intros Hx. apply (proj2 (issueIds_In scan_3 "meta-refresh")) in Hx.
      apply has_In in Hx. vm_compute in Hx. discriminate Hx.
Defined.

(* ------------------------------------------------------------------ *)
(** * Properties of the monitor registry and the scheduler *)

Import Monitor MonitorSpec.

(** ** The scheduler *)

Section SchedulerFacts.

Variable fetchHTML : string -> Fetch.Settled.
Variable cheerio_load : string -> Document.
Variable clock : nat -> Z.
Variable uuidv4 : nat -> string.
Variable history_write_ok : nat -> bool.
Variable monitors_write_ok : nat -> bool.
Variable interval : string -> Z.

Local Notation "'try_scan'" :=
  (Monitor.try_scan fetchHTML cheerio_load clock uuidv4
     history_write_ok monitors_write_ok interval).
Local Notation "'visit'" :=
  (Monitor.visit fetchHTML cheerio_load clock uuidv4
     history_write_ok monitors_write_ok interval).
Local Notation "'run_from'" :=
  (Monitor.run_from fetchHTML cheerio_load clock uuidv4
     history_write_ok monitors_write_ok interval).
Local Notation "'runScheduledScans'" :=
  (Monitor.runScheduledScans fetchHTML cheerio_load clock uuidv4
     history_write_ok monitors_write_ok interval).

(** A [try] block that runs to its end has set the three fields. *)
Lemma try_scan_completed now i m h m' h' score :
  try_scan now i m h = (m', h', Completed score) ->
  lastScanAt m' = Some now
  /\ lastScore m' = Some score
  /\ nextScanAt m' = Some (now + interval (frequency m))
  /\ frequency m' = frequency m
  /\ active m' = active m.
Proof.
  unfold Monitor.try_scan.
  destruct (fetchHTML (m_url m)) as [html | e]; [| discriminate].
  destruct (scanHTML _ _ _) as [result | e]; [| discriminate].
  destruct (history_write_ok i); simpl; [| discriminate].
  destruct (monitors_write_ok i); simpl; [| discriminate].
  intros H. injection H as <- _ <-. repeat split.
Qed.

(** The loop visits the monitors one after the other: each is visited
    with the history its predecessors left. *)
Lemma run_from_app now i pre m post h :
  run_from now i (pre ++ m :: post) h
  = let (pre', h1) := run_from now i pre h in
    let (m', h2) := visit now (i + List.length pre) m h1 in
    let (post', h3) := run_from now (S (i + List.length pre)) post h2 in
    (pre' ++ m' :: post', h3).
Proof.
  revert i h. induction pre as [| a pre IH]; intros i h.
  - simpl. rewrite Nat.add_0_r. 
    destruct (visit now i m h) as [m' h2].
    destruct (run_from now (S i) post h2) as [post' h3]. reflexivity.
  - simpl. destruct (visit now i a h) as [a' ha].
    rewrite IH.
    replace (S i + List.length pre)%nat with (i + S (List.length pre))%nat by lia.
    destruct (run_from now (S i) pre ha) as [pre' h1].
    destruct (visit now (i + S (List.length pre)) m h1) as [m' h2].
    destruct (run_from now (S (i + S (List.length pre))) post h2) as [post' h3].
    reflexivity.
Qed.

Lemma run_from_length now i monitors h :
  List.length (fst (run_from now i monitors h)) = List.length monitors.
Proof.
  revert i h. induction monitors as [| m rest IH]; intros i h; simpl;
    [reflexivity |].
  destruct (visit now i m h) as [m' h'].
  specialize (IH (S i) h').
  destruct (run_from now (S i) rest h') as [rest' h'']. simpl in *.
  rewrite IH. reflexivity.
Qed.

(** Each monitor of the list is visited, at its index, and what the visit
    leaves is at that index afterwards. *)
Lemma run_from_nth now i monitors h k n :
  nth_error monitors k = Some n ->
  exists hk,
    nth_error (fst (run_from now i monitors h)) k
    = Some (fst (visit now (i + k) n hk)).
Proof.
  intros H. apply nth_error_split in H.
  destruct H as (pre & post & -> & <-).
  rewrite run_from_app.
  pose proof (run_from_length now i pre h) as Hlen.
  destruct (run_from now i pre h) as [pre' h1]. simpl in Hlen.
  exists h1.
  destruct (visit now (i + List.length pre) n h1) as [n' h2].
  destruct (run_from now (S (i + List.length pre)) post h2) as [post' h3].
  simpl fst. rewrite nth_error_app2 by lia.
  rewrite Hlen, Nat.sub_diag. reflexivity.
Qed.

(** The visit of a due monitor whose page is fetched and scanned, with
    both files written. *)
Lemma visit_completed now i n h html result :
  not_due now n = false ->
  fetchHTML (m_url n) = Fetch.Resolved html ->
  scanHTML (cheerio_load html) (m_url n) (clock i) = Normal result ->
  history_write_ok i = true ->
  monitors_write_ok i = true ->
  try_scan now i n h
  = (set_scanned now (score result) (now + interval (frequency n)) n,
     keep_last_1000 (h ++ [{| rec_id := uuidv4 i; result := result |}]),
     Completed (score result))
  /\ fst (visit now i n h)
     = set_scanned now (score result) (now + interval (frequency n)) n.
Proof.
  intros Hdue Hf Hs Hh Hm.
  assert (E : try_scan now i n h
              = (set_scanned now (score result) (now + interval (frequency n)) n,
                 keep_last_1000 (h ++ [{| rec_id := uuidv4 i; result := result |}]),
                 Completed (score result))).
  { unfold Monitor.try_scan. rewrite Hf, Hs, Hh, Hm. reflexivity. }
  split; [exact E |].
  unfold Monitor.visit. rewrite Hdue, E. reflexivity.
Qed.


End SchedulerFacts.

(** The intervals of the current server: a day, a week, thirty days. *)
Lemma intervalMs_values :
  intervalMs "daily" = day
  /\ intervalMs "weekly" = 7 * day
  /\ intervalMs "monthly" = 30 * day.
Proof. repeat split. Qed.

(** C7. After a scheduled scan that runs to its end (the monitor is due,
    its page is fetched and scanned, both files are written) the monitor
    has, in the list the tick leaves, its next-due time at the time of the
    tick plus a duration that only its frequency determines: 24 hours for
    daily, 7 days for weekly, 30 days of 24 hours for monthly (and 7 days
    for any other text).  The last-scan time is the time of the tick and
    the last score the score of the scan. *)
Theorem current_scheduler_next_due fetchHTML cheerio_load clock uuidv4
  history_write_ok monitors_write_ok (now : Z) (pre post : list Monitor)
  (m : Monitor) (scanHistory : list ScanRecord) (html : string)
  (result : ScanResult) :
  not_due now m = false ->
  fetchHTML (m_url m) = Fetch.Resolved html ->
  scanHTML (cheerio_load html) (m_url m) (clock (List.length pre))
  = Normal result ->
  history_write_ok (List.length pre) = true ->
  monitors_write_ok (List.length pre) = true ->
  exists m',
    nth_error
      (fst (runScheduledScans fetchHTML cheerio_load clock uuidv4
              history_write_ok monitors_write_ok intervalMs now
              (pre ++ m :: post) scanHistory))
      (List.length pre) = Some m'
    /\ (exists h h',
          try_scan fetchHTML cheerio_load clock uuidv4 history_write_ok
            monitors_write_ok intervalMs now (List.length pre) m h
          = (m', h', Completed (score result)))
    /\ lastScanAt m' = Some now
    /\ lastScore m' = Some (score result)
    /\ frequency m' = frequency m
    /\ nextScanAt m' = Some (now + intervalMs (frequency m))
    /\ (frequency m = "daily" -> nextScanAt m' = Some (now + 86400000))
    /\ (frequency m = "weekly" -> nextScanAt m' = Some (now + 604800000))
    /\ (frequency m = "monthly" -> nextScanAt m' = Some (now + 2592000000))
    /\ (frequency m <> "daily" -> frequency m <> "monthly" ->
        nextScanAt m' = Some (now + 604800000)).
Proof.
  intros Hdue Hf Hs Hh Hm.
  destruct (run_from_nth fetchHTML cheerio_load clock uuidv4 history_write_ok
              monitors_write_ok intervalMs now 0 (pre ++ m :: post)
              scanHistory (List.length pre) m) as (hk & Hk).
  { rewrite nth_error_app2 by lia. rewrite Nat.sub_diag. reflexivity. }
  destruct (visit_completed fetchHTML cheerio_load clock uuidv4
              history_write_ok monitors_write_ok intervalMs now
              (List.length pre) m hk html result Hdue Hf Hs Hh Hm)
    as (Htry & Hvisit).
  simpl in Hk. rewrite Hvisit in Hk.
  eexists. split; [exact Hk |].
  split; [exists hk; eexists; exact Htry |].
  simpl. repeat split.
  - intros E. rewrite E. reflexivity.
  - intros E. rewrite E. reflexivity.
  - intros E. rewrite E. reflexivity.
  - intros Hd Hmo. unfold intervalMs.
    destruct (String.eqb_spec (frequency m) "daily") as [E | _];
      [contradiction |].
    destruct (String.eqb_spec (frequency m) "monthly") as [E | _];
      [contradiction |].
    reflexivity.
Qed.

Lemma current_scheduler_next_due_witness :
  exists m',
    nth_error
      (fst (runScheduledScans online blank_page at_1000 numbered disk_ok
              disk_ok intervalMs 1000
              [monitor_of "m1" "daily"; monitor_of "m2" "monthly"] []))
      1 = Some m'
    /\ lastScanAt m' = Some 1000
    /\ nextScanAt m' = Some (1000 + 30 * day).
Proof.
  destruct (current_scheduler_next_due online blank_page at_1000 numbered
              disk_ok disk_ok 1000 [monitor_of "m1" "daily"] []
              (monitor_of "m2" "monthly") [] "<html></html>" _
              eq_refl eq_refl eq_refl eq_refl eq_refl)
    as (m' & Hn & _ & Hl & _ & _ & _ & _ & _ & Hmonth & _).
  exists m'. split; [exact Hn |]. split; [exact Hl |].
  exact (Hmonth eq_refl).
Defined.

(** The older copies of the server kept in the repository have no
    monthly branch in the interval of [runScheduledScans]: there a
    successful scheduled scan of a monthly monitor sets the next-due time
    to now plus 7 days. *)
Remark older_scheduler_monthly_is_weekly :
  let '(m', _, outcome) :=
    try_scan online blank_page at_1000 numbered disk_ok disk_ok
      intervalMs_older 1000 0 (monitor_of "m1" "monthly") [] in
  outcome = Completed 71
  /\ nextScanAt m' = Some (1000 + 7 * day)
  /\ nextScanAt m' <> Some (1000 + 30 * day).
Proof. vm_compute. repeat split. discriminate. Qed.



(** ** Registration *)

Lemma update_first_length p f (l : list Monitor) :
  List.length (update_first p f l) = List.length l.
Proof.
  induction l as [| a l IH]; simpl; [reflexivity |].
  destruct (p a); simpl; [| rewrite IH]; reflexivity.
Qed.

Lemma update_first_count p f (l : list Monitor) :
  (forall m, p m = true -> p (f m) = true) ->
  List.length (filter p (update_first p f l)) = List.length (filter p l).
Proof.
  intros Hp. induction l as [| a l IH]; simpl; [reflexivity |].
  destruct (p a) eqn:E; simpl.
  - rewrite (Hp a E). reflexivity.
  - rewrite E. exact IH.
Qed.

Lemma find_none_count p (l : list Monitor) :
  find p l = None -> filter p l = [].
Proof.
  induction l as [| a l IH]; simpl; [reflexivity |].
  destruct (p a); [discriminate | exact IH].
Qed.

Lemma find_some_count p (l : list Monitor) :
  (1 <= List.length (filter p l))%nat -> exists m, find p l = Some m /\ p m = true.
Proof.
  induction l as [| a l IH]; simpl; [lia |].
  destruct (p a) eqn:E; [intros _; exists a; split; [reflexivity | exact E] | exact IH].
Qed.

(** With an e-mail address that is already trimmed and in lower case the
    registration is idempotent: the second request updates the one record
    of the pair. *)
Lemma register_twice_normalized (url_parses : string -> bool)
  (now1 now2 : Z) (id1 id2 url email : string) (f1 f2 : option string)
  (monitors monitors1 : list Monitor) (m1 : Monitor) :
  toLowerCase (trim email) = email ->
  register url_parses now1 id1 monitors url email f1
  = (monitors1, MonitorRegistered m1) ->
  exists m2 monitors2,
    register url_parses now2 id2 monitors1 url email f2
    = (monitors2, MonitorUpdated m2)
    /\ List.length monitors2 = List.length monitors1
    /\ List.length (filter (same_pair (normalized url) email) monitors2) = 1%nat
    /\ frequency m2 = or_default f2 "weekly"
    /\ active m2 = true
    /\ In m2 monitors2.
Proof.
  intros Hnorm H1. unfold register in *.
  destruct (is_empty url || is_empty email)%bool; [discriminate |].
  destruct (negb (valid_email email)); [discriminate |].
  fold (FetchSpec.with_scheme (trim url)) in *. fold (normalized url) in *.
  destruct (negb (url_parses (normalized url))); [discriminate |].
  fold (same_pair (normalized url) email) in *.
  destruct (find (same_pair (normalized url) email) monitors) eqn:Ef;
    [discriminate |].
  injection H1 as <- <-.
  match goal with
  | |- context [monitors ++ [?x]] => set (m1 := x)
  end.
  assert (Hm1 : same_pair (normalized url) email m1 = true).
  { unfold same_pair, m1. simpl. rewrite Hnorm, !String.eqb_refl. reflexivity. }
  assert (Hcount : List.length (filter (same_pair (normalized url) email)
                                  (monitors ++ [m1])) = 1%nat).
  { rewrite filter_app, (find_none_count _ _ Ef). simpl. rewrite Hm1. reflexivity. }
  destruct (find_some_count (same_pair (normalized url) email) (monitors ++ [m1]))
    as (existing & Efind & Hex); [lia |].
  rewrite Efind.
  eexists _, _. split; [reflexivity |].
  split; [apply update_first_length |].
  split.
  { rewrite update_first_count; [exact Hcount |].
    intros m Hm. exact Hm. }
  split; [reflexivity |]. split; [reflexivity |].
  clear - Efind Hex.
  induction (monitors ++ [m1]) as [| a l IH]; simpl in *; [discriminate |].
  destruct (same_pair (normalized url) email a) eqn:E.
  - injection Efind as ->. left. reflexivity.
  - right. apply IH. exact Efind.
Qed.

(** C8 at an address with capital letters.  The specification has a
    second registration of the same URL and contact update the one record;
    here the stored address is in lower case, the duplicate check compares
    it with the text of the request, and the second registration adds a
    second record while the first keeps its weekly frequency. *)
Theorem register_twice_mixed_case :
  let '(monitors1, _) :=
    register any_url 0 "id-1" [] "example.com" "Bob@Example.com" (Some "weekly") in
  let '(monitors2, response) :=
    register any_url 5 "id-2" monitors1 "example.com" "Bob@Example.com"
      (Some "daily") in
  List.length monitors1 = 1%nat
  /\ List.length monitors2 = 2%nat
  /\ map m_url monitors2 = ["https://example.com"; "https://example.com"]
  /\ map m_email monitors2 = ["bob@example.com"; "bob@example.com"]
  /\ map frequency monitors2 = ["weekly"; "daily"]
  /\ exists m, response = MonitorRegistered m.
Proof. vm_compute. repeat split. eexists. reflexivity. Qed.

(* ------------------------------------------------------------------ *)
(** * Properties of the string primitives *)

Import StringSpec.

Lemma all_chars_app (p : ascii -> bool) (a b : string) :
  all_chars p (a ++ b) = (all_chars p a && all_chars p b)%bool.
Proof.
  induction a as [| c a IH]; simpl; [reflexivity |].
  rewrite IH, andb_assoc. reflexivity.
Qed.

Lemma rev_onto_rev_onto (s a b : string) :
  rev_onto (rev_onto s a) b = rev_onto a (s ++ b).
Proof.
  revert a b. induction s as [| x s IH]; intros a b; simpl; [reflexivity |].
  rewrite IH. reflexivity.
Qed.

Lemma reverse_involutive (s : string) : reverse (reverse s) = s.
Proof.
  unfold reverse. rewrite rev_onto_rev_onto. simpl. apply string_app_empty.
Qed.

Lemma all_chars_rev_onto (p : ascii -> bool) (s acc : string) :
  all_chars p (rev_onto s acc) = (all_chars p s && all_chars p acc)%bool.
Proof.
  revert acc. induction s as [| x s IH]; intros acc; simpl; [reflexivity |].
  rewrite IH. simpl. destruct (p x), (all_chars p s); reflexivity.
Qed.

Lemma skip_ws_no_space (s : string) : no_space s = true -> skip_ws s = s.
Proof.
  destruct s as [| c s]; [reflexivity |].
  unfold no_space. simpl. intros H. apply andb_prop in H. destruct H as [Hc _].
  destruct (is_space c); [discriminate | reflexivity].
Qed.

Lemma trim_no_space (s : string) : no_space s = true -> trim s = s.
Proof.
  intros H. unfold trim. rewrite (skip_ws_no_space s H).
  rewrite skip_ws_no_space; [apply reverse_involutive |].
  unfold no_space, reverse. rewrite all_chars_rev_onto. simpl.
  rewrite andb_true_r. exact H.
Qed.

Lemma lower_char_space (c : ascii) : is_space (lower_char c) = is_space c.
Proof. destruct c as [[] [] [] [] [] [] [] []]; vm_compute; reflexivity. Qed.

Lemma toLowerCase_no_space (s : string) :
  no_space (toLowerCase s) = no_space s.
Proof.
  unfold no_space. induction s as [| c s IH]; simpl; [reflexivity |].
  rewrite lower_char_space, IH. reflexivity.
Qed.


Lemma rev_onto_acc (s acc : string) :
  rev_onto s acc = (reverse s ++ acc)%string.
Proof.
  unfold reverse. revert acc. induction s as [| x s IH]; intros acc; simpl;
    [reflexivity |].
  rewrite IH, (IH (String x "")), string_app_assoc. reflexivity.
Qed.

Lemma reverse_app (a b : string) :
  reverse (a ++ b) = (reverse b ++ reverse a)%string.
Proof.
  induction a as [| x a IH]; simpl.
  - rewrite string_app_empty. reflexivity.
  - unfold reverse. simpl. rewrite !(rev_onto_acc _ (String x "")).
    fold (reverse (a ++ b)). rewrite IH, string_app_assoc. reflexivity.
Qed.

Lemma skip_ws_clean (s : string) : clean_start (skip_ws s) = true.
Proof.
  induction s as [| c s IH]; simpl; [reflexivity |].
  destruct (is_space c) eqn:E; [exact IH | simpl; rewrite E; reflexivity].
Qed.

Lemma skip_ws_id (s : string) : clean_start s = true -> skip_ws s = s.
Proof.
  destruct s as [| c s]; simpl; [reflexivity |].
  destruct (is_space c); [discriminate | reflexivity].
Qed.

(** What [skip_ws] removes. *)
Lemma skip_ws_split (s : string) :
  exists ws, s = (ws ++ skip_ws s)%string.
Proof.
  induction s as [| c s IH]; simpl; [exists ""; reflexivity |].
  destruct (is_space c).
  - destruct IH as (ws & E). exists (String c ws). simpl. rewrite <- E. reflexivity.
  - exists "". reflexivity.
Qed.

Lemma clean_start_app (a b : string) :
  a <> "" -> clean_start (a ++ b) = clean_start a.
Proof. destruct a; [contradiction | reflexivity]. Qed.

Lemma reverse_empty (s : string) : reverse s = "" -> s = "".
Proof.
  intros H. rewrite <- (reverse_involutive s), H. reflexivity.
Qed.

(** What [trim] returns neither starts nor ends with white space. *)
Lemma trim_clean (s : string) :
  clean_start (trim s) = true /\ clean_start (reverse (trim s)) = true.
Proof.
  unfold trim. rewrite reverse_involutive.
  split; [| apply skip_ws_clean].
  set (a := skip_ws s).
  destruct (skip_ws_split (reverse a)) as (ws & E).
  set (b := skip_ws (reverse a)) in *.
  destruct b as [| c b'] eqn:Eb; [reflexivity |].
  assert (Ha : a = (reverse (String c b') ++ reverse ws)%string).
  { rewrite <- (reverse_involutive a), E. apply reverse_app. }
  assert (Hne : reverse (String c b') <> "").
  { intros H. apply reverse_empty in H. discriminate H. }
  rewrite <- (clean_start_app _ (reverse ws) Hne), <- Ha.
  apply skip_ws_clean.
Qed.

Lemma trim_idem (s : string) : trim (trim s) = trim s.
Proof.
  destruct (trim_clean s) as [H1 H2].
  unfold trim at 1. rewrite (skip_ws_id _ H1), (skip_ws_id _ H2).
  apply reverse_involutive.
Qed.

Lemma skip_ws_lower (s : string) :
  skip_ws (toLowerCase s) = toLowerCase (skip_ws s).
Proof.
  induction s as [| c s IH]; simpl; [reflexivity |].
  rewrite lower_char_space. destruct (is_space c); [exact IH | reflexivity].
Qed.

Lemma rev_onto_lower (s acc : string) :
  rev_onto (toLowerCase s) (toLowerCase acc) = toLowerCase (rev_onto s acc).
Proof.
  revert acc. induction s as [| c s IH]; intros acc; simpl; [reflexivity |].
  rewrite <- IH. reflexivity.
Qed.

Lemma reverse_lower (s : string) :
  reverse (toLowerCase s) = toLowerCase (reverse s).
Proof. unfold reverse. apply (rev_onto_lower s ""). Qed.

Lemma trim_lower (s : string) : trim (toLowerCase s) = toLowerCase (trim s).
Proof.
  unfold trim.
  rewrite skip_ws_lower, reverse_lower, skip_ws_lower, reverse_lower.
  reflexivity.
Qed.

Lemma lower_char_idem (c : ascii) : lower_char (lower_char c) = lower_char c.
Proof. destruct c as [[] [] [] [] [] [] [] []]; vm_compute; reflexivity. Qed.

Lemma toLowerCase_idem (s : string) :
  toLowerCase (toLowerCase s) = toLowerCase s.
Proof.
  induction s as [| c s IH]; simpl; [reflexivity |].
  rewrite lower_char_idem, IH. reflexivity.
Qed.

(** Trimming and lower-casing a text that has been trimmed and
    lower-cased changes nothing. *)
Lemma normal_form_idem (s : string) :
  toLowerCase (trim (toLowerCase (trim s))) = toLowerCase (trim s).
Proof. rewrite trim_lower, trim_idem, toLowerCase_idem. reflexivity. Qed.
(* ------------------------------------------------------------------ *)
(** * Further properties of the colour utilities *)

Import ColorSpec.

Lemma hex_digit_value_range (c : ascii) : 0 <= hex_digit_value c <= 15.
Proof.
  destruct c as [[] [] [] [] [] [] [] []]; vm_compute;
    split; intros H; discriminate H.
Qed.

Lemma parseInt16_pair (s : string) : 0 <= parseInt16 (take 2 s) <= 255.
Proof.
  unfold parseInt16.
  destruct s as [| a [| b s]]; cbn [take parse_hex_from]; [lia | |].
  - pose proof (hex_digit_value_range a). lia.
  - pose proof (hex_digit_value_range a). pose proof (hex_digit_value_range b).
    lia.
Qed.

Lemma span_digits_digits (s : string) :
  all_chars is_digit (fst (span_digits s)) = true.
Proof.
  induction s as [| c s IH]; simpl; [reflexivity |].
  destruct (is_digit c) eqn:E; [| reflexivity].
  destruct (span_digits s) as [v rest]. simpl in *. rewrite E, IH. reflexivity.
Qed.

Lemma parse_dec_from_nonneg (s : string) (acc : Z) :
  all_chars is_digit s = true -> 0 <= acc -> 0 <= parse_dec_from acc s.
Proof.
  revert acc. induction s as [| c s IH]; intros acc Hd Hacc;
    cbn [parse_dec_from]; [exact Hacc |].
  cbn [all_chars] in Hd. apply andb_prop in Hd. destruct Hd as [Hc Hs].
  apply IH; [exact Hs |].
  unfold is_digit, between in Hc. apply andb_prop in Hc. destruct Hc as [Hlo _].
  apply Nat.leb_le in Hlo. lia.
Qed.

Lemma rgb_at_digits (s d1 d2 d3 : string) :
  rgb_at s = Some (d1, d2, d3) ->
  all_chars is_digit d1 = true /\ all_chars is_digit d2 = true
  /\ all_chars is_digit d3 = true.
Proof.
  unfold rgb_at.
  destruct (strip_prefix "rgb" s) as [s1 |]; [| discriminate].
  set (s2 := match s1 with String "a" s' => s' | _ => s1 end). clearbody s2.
  destruct s2 as [| c s3]; [discriminate |].
  destruct (Ascii.eqb_spec c "("); [subst c | ].
  2:{ destruct c as [[] [] [] [] [] [] [] []]; try discriminate. contradiction. }
  pose proof (span_digits_digits (skip_ws s3)) as H1.
  destruct (span_digits (skip_ws s3)) as [e1 s4]. simpl in H1.
  destruct (is_empty e1); [discriminate |].
  destruct (skip_ws s4) as [| c5 s5]; [discriminate |].
  destruct (Ascii.eqb_spec c5 ","); [subst c5 | ].
  2:{ destruct c5 as [[] [] [] [] [] [] [] []]; try discriminate. contradiction. }
  pose proof (span_digits_digits (skip_ws s5)) as H2.
  destruct (span_digits (skip_ws s5)) as [e2 s6]. simpl in H2.
  destruct (is_empty e2); [discriminate |].
  destruct (skip_ws s6) as [| c7 s7]; [discriminate |].
  destruct (Ascii.eqb_spec c7 ","); [subst c7 | ].
  2:{ destruct c7 as [[] [] [] [] [] [] [] []]; try discriminate. contradiction. }
  pose proof (span_digits_digits (skip_ws s7)) as H3.
  destruct (span_digits (skip_ws s7)) as [e3 s8]. simpl in H3.
  destruct (is_empty e3); [discriminate |].
  intros H. injection H as <- <- <-. repeat split; assumption.
Qed.

Lemma rgbMatch_digits (s d1 d2 d3 : string) :
  rgbMatch s = Some (d1, d2, d3) ->
  all_chars is_digit d1 = true /\ all_chars is_digit d2 = true
  /\ all_chars is_digit d3 = true.
Proof.
  induction s as [| c s IH]; cbn [rgbMatch].
  - destruct (rgb_at "") as [m |] eqn:E; [| discriminate].
    intros H. injection H as ->. apply (rgb_at_digits _ _ _ _ E).
  - destruct (rgb_at (String c s)) as [m |] eqn:E; [| exact IH].
    intros H. injection H as ->. apply (rgb_at_digits _ _ _ _ E).
Qed.

(** What the notation part of [parseColor] returns has no negative
    channel, and without an [rgb(] match it lies in the gamut. *)
Lemma notation_channels (s : string) (c : RGB) :
  parseColor_notation s = Some c ->
  (0 <= r c /\ 0 <= g c /\ 0 <= b c)
  /\ (rgbMatch s = None -> in_gamut c).
Proof.
  unfold parseColor_notation.
  assert (Hrgb : forall c,
    match rgbMatch s with
    | Some (d1, d2, d3) =>
        Some {| r := parseInt10 d1; g := parseInt10 d2; b := parseInt10 d3 |}
    | None => None
    end = Some c ->
    (0 <= r c /\ 0 <= g c /\ 0 <= b c) /\ (rgbMatch s = None -> in_gamut c)).
  { intros c0. destruct (rgbMatch s) as [[[d1 d2] d3] |] eqn:E; [| discriminate].
    intros H. injection H as <-. simpl.
    destruct (rgbMatch_digits _ _ _ _ E) as (H1 & H2 & H3).
    split; [| discriminate].
    unfold parseInt10.
    repeat split; apply parse_dec_from_nonneg; (assumption || lia). }
  destruct (hexMatch s) as [hex0 |]; [| apply Hrgb].
  set (hex := if Nat.eqb (String.length hex0) 3 then expand3 hex0 else hex0).
  destruct (Nat.eqb (String.length hex) 6 || Nat.eqb (String.length hex) 8)%bool;
    [| apply Hrgb].
  intros H. injection H as <-. unfold in_gamut, substr2. cbn [r g b].
  pose proof (parseInt16_pair (drop 0 hex)).
  pose proof (parseInt16_pair (drop 2 hex)).
  pose proof (parseInt16_pair (drop 4 hex)).
  split; [lia | intros _; lia].
Qed.

(** Every colour of the named table is a six-digit hexadecimal colour. *)
Lemma named_table_in_gamut :
  forallb (fun kv =>
    match snd kv with
    | Some hex =>
        match parseColor_notation hex with
        | Some c => in_gamut_b c
        | None => false
        end
    | None => true
    end) namedColors_own = true.
Proof. vm_compute. reflexivity. Qed.

Lemma assoc_In (k : string) (l : list (string * option string)) (v : option string) :
  assoc k l = Some v -> exists k', In (k', v) l.
Proof.
  induction l as [| [k' v'] l IH]; simpl; [discriminate |].
  destruct (String.eqb k k').
  - intros H. injection H as ->. exists k'. left. reflexivity.
  - intros H. destruct (IH H) as (k0 & Hin). exists k0. right. exact Hin.
Qed.

Lemma in_gamut_b_spec (c : RGB) : in_gamut_b c = true <-> in_gamut c.
Proof.
  unfold in_gamut_b, in_gamut, channel_ok.
  rewrite !andb_true_iff, !Z.leb_le. tauto.
Qed.

Lemma named_in_gamut (k hex : string) :
  namedColors k = OwnString hex ->
  exists c, parseColor_notation hex = Some c /\ in_gamut c.
Proof.
  unfold namedColors.
  destruct (assoc k namedColors_own) as [[hex0 |] |] eqn:E; try discriminate.
  2:{ destruct (existsb _ _); discriminate. }
  intros H. injection H as ->.
  destruct (assoc_In _ _ _ E) as (k' & Hin).
  pose proof named_table_in_gamut as Ht.
  rewrite forallb_forall in Ht. specialize (Ht _ Hin). simpl in Ht.
  destruct (parseColor_notation hex) as [c |]; [| discriminate].
  exists c. split; [reflexivity | apply in_gamut_b_spec; exact Ht].
Qed.

Lemma lower_char_not_upper (c : ascii) :
  between 65 90 (code (lower_char c)) = false.
Proof. destruct c as [[] [] [] [] [] [] [] []]; vm_compute; reflexivity. Qed.

Lemma toLowerCase_no_upper (s : string) :
  all_chars (fun c => negb (between 65 90 (code c))) (toLowerCase s) = true.
Proof.
  induction s as [| c s IH]; simpl; [reflexivity |].
  rewrite lower_char_not_upper, IH. reflexivity.
Qed.

(** The keys for which [namedColors[key]] is a member of
    [Object.prototype], among the strings [toLowerCase] can return. *)
Lemma inherited_lower (t : string) :
  namedColors (toLowerCase t) = Inherited <->
  toLowerCase t = "constructor" \/ toLowerCase t = "__proto__".
Proof.
  split.
  - unfold namedColors.
    destruct (assoc (toLowerCase t) namedColors_own) as [[hex |] |];
      try discriminate.
    destruct (existsb (String.eqb (toLowerCase t)) Object_prototype_keys) eqn:E;
      [| discriminate].
    intros _. apply existsb_exists in E. destruct E as (x & Hin & Hx).
    apply String.eqb_eq in Hx. subst x.
    pose proof (toLowerCase_no_upper t) as Hn.
    simpl in Hin.
    repeat (destruct Hin as [Hin | Hin];
            [ first [ left; symmetry; exact Hin
                    | right; symmetry; exact Hin
                    | rewrite <- Hin in Hn; vm_compute in Hn; discriminate Hn ]
            | ]).
    contradiction.
  - intros [-> | ->]; vm_compute; reflexivity.
Qed.

(** X1. [parseColor] throws on exactly two kinds of input: a non-empty
    text that, trimmed and in lower case, is [constructor] or [__proto__],
    the two lower-case names the named-colour object inherits.  On every
    other text it returns a colour or null. *)
Theorem parseColor_throws_on_inherited_names (s : string) :
  (exists m, parseColor s = Throw m)
  <-> s <> ""
      /\ (toLowerCase (trim s) = "constructor"
          \/ toLowerCase (trim s) = "__proto__").
Proof.
  unfold parseColor.
  destruct s as [| c s]; cbn [is_empty].
  - split; [intros (m & H); discriminate H | intros (H & _); contradiction].
  - rewrite <- inherited_lower.
    destruct (namedColors (toLowerCase (trim (String c s)))); split;
      try (intros (m & H); discriminate H);
      try (intros (_ & H); discriminate H).
    + intros _. split; [discriminate | reflexivity].
    + intros _. eexists. reflexivity.
Qed.

(** X2. A colour that [parseColor] returns has no negative channel, and
    unless the text matches the [rgb(] pattern its channels lie between 0
    and 255: hexadecimal and named colours are in the gamut, while the
    numbers of an [rgb()] expression are taken as written. *)
Theorem parsed_colour_channels (s : string) (c : RGB) :
  parseColor s = Normal (Some c) ->
  (0 <= r c /\ 0 <= g c /\ 0 <= b c)
  /\ (rgbMatch (toLowerCase (trim s)) = None -> in_gamut c).
Proof.
  unfold parseColor.
  destruct (is_empty s); [discriminate |].
  destruct (namedColors (toLowerCase (trim s))) as [hex | | |] eqn:E;
    try discriminate.
  - intros H. injection H as H.
    destruct (named_in_gamut _ _ E) as (c' & Hc' & Hg).
    rewrite Hc' in H. injection H as <-.
    split; [unfold in_gamut in Hg; lia | intros _; exact Hg].
  - intros H. injection H as H. apply notation_channels. exact H.
Qed.

Lemma parsed_colour_channels_witness :
  in_gamut {| r := 255; g := 128; b := 0 |}.
Proof.
  apply (proj2 (parsed_colour_channels " #FF8000" _ eq_refl)).
  vm_compute. reflexivity.
Defined.

Section Luminance.
Open Scope R_scope.

(** X3. For two colours of the gamut the contrast ratio does not depend
    on the order of its arguments and lies between 1 and 21; a colour
    against itself gives 1, and white against black gives 21. *)
Theorem contrast_ratio_range (c1 c2 : RGB) :
  in_gamut c1 -> in_gamut c2 ->
  contrastRatio c1 c2 = contrastRatio c2 c1
  /\ 1 <= contrastRatio c1 c2 <= 21
  /\ contrastRatio c1 c1 = 1
  /\ contrastRatio white {| r := 0; g := 0; b := 0 |} = 21.
Proof.
  intros H1 H2.
  pose proof (luminance_range c1 H1) as L1.
  pose proof (luminance_range c2 H2) as L2.
  unfold contrastRatio.
  set (l1 := relativeLuminance c1) in *.
  set (l2 := relativeLuminance c2) in *.
  split; [| split; [| split]].
  - rewrite (Rmax_comm l1 l2), (Rmin_comm l1 l2). reflexivity.
  - assert (Hd : 0 < Rmin l1 l2 + 0.05).
    { unfold Rmin. destruct (Rle_dec l1 l2); lra. }
    assert (Hm : Rmin l1 l2 <= Rmax l1 l2 <= 1).
    { unfold Rmin, Rmax. destruct (Rle_dec l1 l2); lra. }
    assert (Hn : 0 <= Rmin l1 l2).
    { unfold Rmin. destruct (Rle_dec l1 l2); lra. }
    split.
    + apply Rmult_le_reg_r with (Rmin l1 l2 + 0.05); [exact Hd |].
      unfold Rdiv. rewrite Rmult_assoc, Rinv_l by lra. lra.
    + apply Rmult_le_reg_r with (Rmin l1 l2 + 0.05); [exact Hd |].
      unfold Rdiv. rewrite Rmult_assoc, Rinv_l by lra. lra.
  - unfold Rmax, Rmin. destruct (Rle_dec l1 l1); [| lra].
    unfold Rdiv. apply Rinv_r. lra.
  - unfold relativeLuminance. cbn [r g b white].
    rewrite linearize_white, linearize_zero.
    unfold Rmax, Rmin.
    destruct (Rle_dec _ _); lra.
Qed.

End Luminance.

Lemma contrast_ratio_range_witness :
  (1 <= contrastRatio gray white <= 21)%R.
Proof.
  refine (proj1 (proj2 (contrast_ratio_range gray white _ _)));
    vm_compute; repeat split; intros H; discriminate H.
Defined.

(** X30. [parseColor] reads a colour text up to letter case and
    surrounding white space: the text and its trimmed lower-case form give
    the same result, be it a colour, null or the exception; so two texts
    with the same trimmed lower-case form are parsed alike. *)
Theorem parseColor_ignores_case_and_blanks (s : string) :
  parseColor (toLowerCase (trim s)) = parseColor s
  /\ (forall t, toLowerCase (trim t) = toLowerCase (trim s) ->
                parseColor t = parseColor s).
Proof.
  assert (H : forall x, parseColor (toLowerCase (trim x)) = parseColor x).
  { intros x. unfold parseColor. rewrite normal_form_idem.
    destruct x as [| c x]; [reflexivity |]. cbn [is_empty].
    destruct (toLowerCase (trim (String c x))) as [| k0 k]; reflexivity. }
  split; [apply H |].
  intros t E. rewrite <- (H t), <- (H s), E. reflexivity.
Qed.

(* ------------------------------------------------------------------ *)
(** * Further properties of the scan engine *)

Import ScanSpec.

(** A rule adds to the judged checks exactly when it is applicable. *)
Lemma trace_judged_total d ks s s' :
  Trace d ks s s' ->
  (List.length (issues s') + List.length (passes s')
   = List.length (issues s) + List.length (passes s)
     + List.length (filter (applicable d) ks))%nat.
Proof.
  induction 1 as [s | j ks o s s' F T IH]; [simpl; lia |].
  rewrite IH. cbn [filter].
  destruct o as [els | | dt |]; simpl in F |- *.
  - destruct F as [-> _]. rewrite length_app. simpl. lia.
  - rewrite F. rewrite length_app. simpl. lia.
  - destruct (applicable d j) eqn:E;
      [apply exclusive in E; congruence | simpl; lia].
  - destruct F as [-> _]. simpl. lia.
Qed.

Lemma count_impact_partition (l : list Issue) :
  (count_impact critical l + count_impact serious l
   + count_impact moderate l + count_impact minor l = List.length l)%nat.
Proof.
  unfold count_impact. induction l as [| x l IH]; simpl; [reflexivity |].
  destruct (impact (i_rule x)); simpl; lia.
Qed.

(** X4. The summary of a scan adds up: the checks are the passes and the
    issues, the four severity counts make up the issues, and the number of
    checks is 17 plus one for each of the three conditional rules that
    applies (headings present, data tables present, skip link present), so
    it lies between 17 and 20 and the guard for zero checks is never
    taken. *)
Theorem summary_adds_up d url now res :
  scanHTML d url now = Normal res ->
  let sm := summary res in
  totalChecks sm = (passed sm + sum_issues sm)%nat
  /\ passed sm = List.length (r_passes res)
  /\ sum_issues sm = List.length (r_issues res)
  /\ (sum_critical sm + sum_serious sm + sum_moderate sm + sum_minor sm
      = sum_issues sm)%nat
  /\ totalChecks sm
     = (17 + bump (nonempty (headings d)) + bump (nonempty (dataTables d))
        + bump (hasSkipLink d))%nat
  /\ (17 <= totalChecks sm <= 20)%nat.
Proof.
  intros H sm. apply scanHTML_report in H. destruct H as (s & Hrun & ->).
  apply run_checks_trace in Hrun. apply trace_judged_total in Hrun.
  unfold sm. cbn [summary report totalChecks passed sum_issues sum_critical
                  sum_serious sum_moderate sum_minor r_passes r_issues].
  pose proof (count_impact_partition (issues s)) as Hp.
  assert (Hn : (List.length (filter (applicable d) evaluated)
                = 17 + bump (nonempty (headings d))
                  + bump (nonempty (dataTables d)) + bump (hasSkipLink d))%nat).
  { unfold evaluated. cbn [filter applicable].
    destruct (nonempty (headings d)), (nonempty (dataTables d)),
      (hasSkipLink d); reflexivity. }
  rewrite Hn in Hrun. cbn [initial issues passes List.length] in Hrun.
  repeat split; try lia.
  - destruct (nonempty (headings d)), (nonempty (dataTables d)),
      (hasSkipLink d); simpl in *; lia.
Qed.

Lemma summary_adds_up_witness :
  exists res,
    scanHTML blank "https://example.com" 0 = Normal res
    /\ totalChecks (summary res) = 17%nat.
Proof.
  eexists. split; [vm_compute; reflexivity |].
  refine (proj1 (proj2 (proj2 (proj2 (proj2
    (summary_adds_up blank "https://example.com" 0 _ _)))))).
  vm_compute. reflexivity.
Defined.

Lemma nearest_full (p t : Z) :
  0 < t <= 22 -> 0 <= p <= t -> (nearest (100 * p) t = 100 <-> p = t).
Proof.
  intros Ht Hp. unfold nearest.
  pose proof (Z.div_mod (2 * (100 * p) + t) (2 * t) ltac:(lia)) as Hq.
  pose proof (Z.mod_pos_bound (2 * (100 * p) + t) (2 * t) ltac:(lia)) as Hr.
  split.
  - intros E. rewrite E in Hq. lia.
  - intros ->. symmetry. apply (Z.div_unique _ _ 100 t); lia.
Qed.

Lemma compliant_iff_no_issue (l : list Issue) :
  complianceLevel_of l = compliant <-> l = [].
Proof.
  split.
  - unfold complianceLevel_of.
    destruct (Nat.ltb 0 (count_impact critical l)); [discriminate |].
    destruct (Nat.ltb 1 (count_impact serious l)); [discriminate |].
    destruct l; [reflexivity | simpl; discriminate].
  - intros ->. reflexivity.
Qed.

(** X5. The score of a scan lies between 0 and 100, and the three ways
    of saying that a page is clean coincide: the score is 100 exactly when
    the scan has no issue, which is exactly when the level is
    'compliant'. *)
Theorem full_score_means_compliant d url now res :
  scanHTML d url now = Normal res ->
  0 <= score res <= 100
  /\ (score res = 100 <-> r_issues res = [])
  /\ (complianceLevel res = compliant <-> r_issues res = []).
Proof.
  intros H. apply scanHTML_report in H. destruct H as (s & Hrun & ->).
  pose proof (scan_total d s Hrun) as Hle.
  apply run_checks_trace in Hrun. apply trace_judged_total in Hrun.
  assert (Hn : (17 <= List.length (filter (applicable d) evaluated))%nat).
  { unfold evaluated. cbn [filter applicable].
    destruct (nonempty (headings d)), (nonempty (dataTables d)),
      (hasSkipLink d); simpl; lia. }
  cbn [initial issues passes List.length] in Hrun.
  cbn [score complianceLevel r_issues report].
  rewrite score_of_small by lia.
  destruct (Nat.eqb_spec (List.length (issues s) + List.length (passes s)) 0)
    as [E0 | _]; [lia |].
  set (p := List.length (passes s)) in *.
  set (i := List.length (issues s)) in *.
  split; [| split].
  - apply nearest_bounds; lia.
  - rewrite nearest_full by lia.
    split.
    + intros E. assert (i = 0)%nat by lia.
      unfold i in *. destruct (issues s); [reflexivity | discriminate].
    + intros E. unfold i. rewrite E. simpl. lia.
  - apply compliant_iff_no_issue.
Qed.

Lemma full_score_means_compliant_witness :
  exists res,
    scanHTML blank "https://example.com" 0 = Normal res
    /\ 0 <= score res <= 100.
Proof.
  eexists. split; [vm_compute; reflexivity |].
  refine (proj1 (full_score_means_compliant blank "https://example.com" 0 _ _)).
  vm_compute. reflexivity.
Defined.

Lemma trace_capped d ks s s' :
  Trace d ks s s' ->
  Forall (fun i => List.length (elements i) = Nat.min 5 (count i)) (issues s) ->
  Forall (fun i => List.length (elements i) = Nat.min 5 (count i)) (issues s').
Proof.
  induction 1 as [s | j ks o s s' F T IH]; intros Hs; [exact Hs |].
  apply IH. destruct o; cbn [record]; try exact Hs.
  unfold addIssue. cbn [issues].
  apply Forall_app. split; [exact Hs |].
  constructor; [| constructor]. cbn [elements count]. apply length_firstn.
Qed.

(** X6. Every issue of a scan lists at most five elements and counts all
    of them: the number of listed elements is the smaller of 5 and the
    count, and the count is at least 1. *)
Theorem issue_elements_capped d url now res :
  scanHTML d url now = Normal res ->
  Forall (fun i => List.length (elements i) = Nat.min 5 (count i)
                   /\ (1 <= count i)%nat) (r_issues res).
Proof.
  intros H. apply scanHTML_report in H. destruct H as (s & Hrun & ->).
  apply run_checks_trace in Hrun. cbn [r_issues report].
  pose proof (trace_capped _ _ _ _ Hrun (Forall_nil _)) as Hc.
  pose proof (trace_founded _ _ _ _ Hrun (Forall_nil _)) as Hf.
  rewrite Forall_forall in *. intros i Hin.
  split; [apply Hc; exact Hin | apply (Hf i Hin)].
Qed.

Lemma issue_elements_capped_witness :
  exists res,
    scanHTML (HistorySpec.imgs_page 7) "https://example.com" 0 = Normal res
    /\ Forall (fun i => List.length (elements i) = Nat.min 5 (count i)
                        /\ (1 <= count i)%nat) (r_issues res).
Proof.
  eexists. split; [vm_compute; reflexivity |].
  refine (issue_elements_capped (HistorySpec.imgs_page 7) "https://example.com" 0 _ _).
  vm_compute. reflexivity.
Defined.

Lemma skipped_after_jumps (prev : Heading) (rest : list Heading) :
  List.length (skipped_after prev rest)
  = List.length (filter jump (combine (prev :: rest) rest)).
Proof.
  revert prev. induction rest as [| h rest IH]; intros prev; [reflexivity |].
  cbn [skipped_after combine filter]. rewrite length_app, IH.
  unfold jump at 2. cbn [fst snd].
  destruct (Nat.ltb (h_level prev + 1) (h_level h)); reflexivity.
Qed.

Lemma nth_error_pairs {X Y : Type} (l1 : list X) (l2 : list Y) (i : nat)
  (a : X) (b : Y) :
  nth_error (combine l1 l2) i = Some (a, b)
  <-> nth_error l1 i = Some a /\ nth_error l2 i = Some b.
Proof.
  revert l1 l2. induction i as [| i IH]; intros [| x l1] [| y l2]; simpl;
    try (split; [discriminate | intros [H1 H2]; discriminate]).
  - split; [intros H; injection H as -> ->; split; reflexivity |].
    intros [H1 H2]. injection H1 as ->. injection H2 as ->. reflexivity.
  - apply IH.
Qed.

Lemma nth_error_tl {X : Type} (l : list X) (i : nat) :
  nth_error (tl l) i = nth_error l (S i).
Proof. destruct l; [destruct i; reflexivity | reflexivity]. Qed.

(** X7. The skipped-level check reports one element for every heading
    that lies more than one level below the heading just before it, and
    nothing else: the level of the first heading, and a step back up by
    any number of levels, are never reported. *)
Theorem skipped_counts_level_jumps (d : Document) :
  List.length (skipped d)
  = List.length (filter jump (adjacent (headings d)))
  /\ (nonempty (skipped d) = true
      <-> exists i a b,
            nth_error (headings d) i = Some a
            /\ nth_error (headings d) (S i) = Some b
            /\ (h_level a + 1 < h_level b)%nat).
Proof.
  assert (Hlen : List.length (skipped d)
                 = List.length (filter jump (adjacent (headings d)))).
  { unfold skipped, adjacent. destruct (headings d) as [| h rest];
      [reflexivity | apply skipped_after_jumps]. }
  split; [exact Hlen |].
  assert (Hne : nonempty (skipped d) = true
                <-> exists p, In p (filter jump (adjacent (headings d)))).
  { destruct (skipped d) as [| x xs];
      destruct (filter jump (adjacent (headings d))) as [| y ys];
      simpl in Hlen; try discriminate.
    - split; [discriminate | intros (p & [])].
    - split; [intros _; exists y; left; reflexivity | reflexivity]. }
  rewrite Hne. unfold adjacent. clear Hne Hlen.
  split.
  - intros ((a, b) & Hin). apply filter_In in Hin. destruct Hin as [Hin Hj].
    apply In_nth_error in Hin. destruct Hin as (i & Hi).
    apply nth_error_pairs in Hi. destruct Hi as [Ha Hb].
    rewrite nth_error_tl in Hb.
    exists i, a, b. repeat split; try assumption.
    unfold jump in Hj. apply Nat.ltb_lt in Hj. exact Hj.
  - intros (i & a & b & Ha & Hb & Hlt).
    exists (a, b). apply filter_In. split.
    + apply (nth_error_In _ i). apply nth_error_pairs.
      rewrite nth_error_tl. split; assumption.
    + unfold jump. apply Nat.ltb_lt. exact Hlt.
Qed.

Lemma count_impact_app (i : Impact) (l more : list Issue) :
  count_impact i (l ++ more) = (count_impact i l + count_impact i more)%nat.
Proof. unfold count_impact. rewrite filter_app, length_app. reflexivity. Qed.

Lemma count_impact_perm (i : Impact) (l l' : list Issue) :
  Permutation l l' -> count_impact i l = count_impact i l'.
Proof.
  unfold count_impact.
  induction 1 as [| x l l' _ IH | x y l | l l' l'' _ IH1 _ IH2]; simpl.
  - reflexivity.
  - destruct (impact_eqb _ _); simpl; rewrite IH; reflexivity.
  - destruct (impact_eqb (impact (i_rule y)) i);
      destruct (impact_eqb (impact (i_rule x)) i); reflexivity.
  - rewrite IH1. exact IH2.
Qed.

(** X8. More issues never give a better level: the level of a list of
    issues followed by further issues is at least as bad as the level of
    the list itself; and the level does not depend on the order of the
    issues: every rearrangement of a list has the level of the list. *)
Theorem level_never_improves_with_more_issues (l more : list Issue) :
  (level_rank (complianceLevel_of l)
   <= level_rank (complianceLevel_of (l ++ more)))%nat
  /\ complianceLevel_of (more ++ l) = complianceLevel_of (l ++ more)
  /\ (forall l', Permutation l l' ->
                 complianceLevel_of l' = complianceLevel_of l).
Proof.
  split; [| split].
  - unfold complianceLevel_of.
    rewrite !count_impact_app, !length_app.
    destruct (Nat.ltb_spec 0 (count_impact critical l));
    destruct (Nat.ltb_spec 0 (count_impact critical l + count_impact critical more));
    destruct (Nat.ltb_spec 1 (count_impact serious l));
    destruct (Nat.ltb_spec 1 (count_impact serious l + count_impact serious more));
    destruct (Nat.ltb_spec 0 (List.length l));
    destruct (Nat.ltb_spec 0 (List.length l + List.length more));
    simpl; lia.
  - unfold complianceLevel_of.
    rewrite !count_impact_app, !length_app.
    rewrite (Nat.add_comm (count_impact critical more)),
      (Nat.add_comm (count_impact serious more)),
      (Nat.add_comm (List.length more)).
    reflexivity.
  - intros l' Hp. unfold complianceLevel_of.
    rewrite <- (count_impact_perm critical l l' Hp),
      <- (count_impact_perm serious l l' Hp),
      <- (Permutation_length Hp).
    reflexivity.
Qed.

Lemma mapM_throws {X Y : Type} (f : X -> Completion Y) (l : list X) :
  (exists m, mapM f l = Throw m)
  <-> exists x, In x l /\ exists m, f x = Throw m.
Proof.
  induction l as [| a l IH]; simpl.
  - split; [intros (m & H); discriminate H | intros (x & [] & _)].
  - destruct (f a) as [y |] eqn:Ea; simpl.
    + destruct (mapM f l) as [ys |] eqn:El; simpl.
      * split; [intros (m & H); discriminate H |].
        intros (x & [<- | Hin] & m & Hm); [congruence |].
        destruct (proj2 IH (ex_intro _ x (conj Hin (ex_intro _ m Hm)))) as (m' & H').
        discriminate H'.
      * split; [| intros _; eexists; reflexivity].
        intros _. destruct (proj1 IH (ex_intro _ message eq_refl)) as (x & Hin & Hm).
        exists x. split; [right; exact Hin | exact Hm].
    + split; [| intros _; eexists; reflexivity].
      intros _. exists a. split; [left; reflexivity | eexists; exact Ea].
Qed.

Lemma contrast_of_throws (el : Styled) :
  (exists m, contrast_of el = Throw m)
  <-> exists colorExpr bgExpr,
        colorMatch (s_style el) = Some colorExpr
        /\ bgMatch (s_style el) = Some bgExpr
        /\ ((exists m, parseColor colorExpr = Throw m)
            \/ (exists m, parseColor bgExpr = Throw m)).
Proof.
  unfold contrast_of.
  destruct (colorMatch (s_style el)) as [ce |].
  2:{ split; [intros (m & H); discriminate H | intros (? & ? & H & _); discriminate H]. }
  destruct (bgMatch (s_style el)) as [be |].
  2:{ split; [intros (m & H); discriminate H
             | intros (? & ? & _ & H & _); discriminate H]. }
  split.
  - intros (m & H). exists ce, be. split; [reflexivity |]. split; [reflexivity |].
    destruct (parseColor ce) as [fg |] eqn:Ef; [| left; eexists; reflexivity].
    destruct (parseColor be) as [bg |] eqn:Eb; [| right; eexists; reflexivity].
    exfalso. simpl in H.
    destruct fg, bg; try discriminate H.
    destruct (ratio_below _ _ _); discriminate H.
  - intros (ce' & be' & H1 & H2 & Hor).
    injection H1 as <-. injection H2 as <-.
    destruct (parseColor ce) as [fg |] eqn:Ef; [| eexists; reflexivity].
    destruct Hor as [(m & H) | (m & H)]; [discriminate H |].
    rewrite H. eexists. reflexivity.
Qed.

(** X9. With the results of cheerio's queries taken as given, the code of
    [scanHTML] throws only in the contrast check, and exactly when some
    element with an inline style declares both a colour and a background
    of which one makes [parseColor] throw; on every other document it runs
    to its end.  (An exception raised inside cheerio, on a selector it is
    handed, is not part of a [Document].) *)
Theorem scan_fails_only_on_inherited_colour_names d url now :
  (exists m, scanHTML d url now = Throw m)
  <-> exists el colorExpr bgExpr,
        In el (styled d)
        /\ colorMatch (s_style el) = Some colorExpr
        /\ bgMatch (s_style el) = Some bgExpr
        /\ ((exists m, parseColor colorExpr = Throw m)
            \/ (exists m, parseColor bgExpr = Throw m)).
Proof.
  assert (H : (exists m, scanHTML d url now = Throw m)
              <-> exists m, mapM contrast_of (styled d) = Throw m).
  { unfold scanHTML, run_checks, check_color_contrast_inline, contrastIssues.
    destruct (mapM contrast_of (styled d)) as [found |]; simpl.
    - split; intros (m & Hm); discriminate Hm.
    - split; intros _; eexists; reflexivity. }
  rewrite H, mapM_throws.
  split.
  - intros (el & Hin & Ht). apply contrast_of_throws in Ht.
    destruct Ht as (ce & be & H1 & H2 & Hor).
    exists el, ce, be. repeat split; assumption.
  - intros (el & ce & be & Hin & H1 & H2 & Hor).
    exists el. split; [exact Hin |]. apply contrast_of_throws.
    exists ce, be. repeat split; assumption.
Qed.

(** A page that makes the scan fail. *)
Lemma scan_fails_example :
  exists m,
    scanHTML (with_style "color: constructor; background: #fff" "text")
      "https://example.com" 0 = Throw m.
Proof. eexists. vm_compute. reflexivity. Qed.

(* ------------------------------------------------------------------ *)
(** * Further properties of the page fetcher *)

Lemma has_scheme_with_scheme (urlStr : string) :
  has_scheme (with_scheme urlStr) = true.
Proof.
  unfold with_scheme. destruct (has_scheme urlStr) eqn:E; [exact E | reflexivity].
Qed.

Lemma with_scheme_idem (urlStr : string) :
  with_scheme (with_scheme urlStr) = with_scheme urlStr.
Proof.
  unfold with_scheme at 1. rewrite has_scheme_with_scheme. reflexivity.
Qed.

(** Chunks that together exceed the ceiling reject, whatever follows
    them. *)
Lemma read_body_overflow (chunks : list string) (rest : list BodyEvent)
  (data : string) :
  Z.of_nat (String.length data) <= maxBytes ->
  maxBytes < Z.of_nat (String.length (data ++ String.concat "" chunks)) ->
  read_body data (map Data chunks ++ rest) = Rejected ResponseTooLarge.
Proof.
  revert data. induction chunks as [| c cs IH]; intros data Hle Hgt.
  - change (String.concat "" []) with "" in Hgt.
    rewrite string_app_empty in Hgt. lia.
  - rewrite concat_cons in Hgt. rewrite <- string_app_assoc in Hgt.
    cbn [map app read_body].
    destruct (Z.ltb_spec maxBytes (Z.of_nat (String.length (data ++ c))))
      as [Hbig | Hsmall]; [reflexivity |].
    apply IH; assumption.
Qed.

Section FetcherBounds.

Local Open Scope nat_scope.

Variable parse_url : string -> option string.
Variable resolve_url : string -> string -> option string.
Variable protocol_of : string -> string.
Variable exchange exchange' : nat -> string -> Exchange.

Lemma doFetch_agree mp :
  (forall n u, n <= 5 -> exchange n u = exchange' n u) ->
  forall k r u, r + k = 5 ->
    Fetch.doFetch resolve_url protocol_of exchange mp r u
    = Fetch.doFetch resolve_url protocol_of exchange' mp r u.
Proof.
  intros Hsame. induction k as [| k IH]; intros r u Hr.
  - rewrite !doFetch_unfold. rewrite <- (Hsame r u) by lia.
    destruct (get_throws protocol_of mp u); [reflexivity |].
    destruct (exchange r u) as [f | res]; [reflexivity |].
    destruct (is_redirect res); [| reflexivity].
    destruct (Nat.ltb_spec 5 (S r)); [reflexivity | lia].
  - rewrite !doFetch_unfold. rewrite <- (Hsame r u) by lia.
    destruct (get_throws protocol_of mp u); [reflexivity |].
    destruct (exchange r u) as [f | res]; [reflexivity |].
    destruct (is_redirect res); [| reflexivity].
    destruct (Nat.ltb 5 (S r)); [reflexivity |].
    destruct (resolve_url _ u) as [href |]; [| reflexivity].
    rewrite (IH (S r) href) by lia. reflexivity.
Qed.

(** X10. One fetch sends at most six requests (the first and five
    redirects): two networks that answer the first six requests alike
    settle every fetch alike, whatever a seventh or later request would
    meet. *)
Theorem at_most_six_requests :
  (forall n u, n <= 5 -> exchange n u = exchange' n u) ->
  forall urlStr,
    Fetch.fetchHTML parse_url resolve_url protocol_of exchange urlStr
    = Fetch.fetchHTML parse_url resolve_url protocol_of exchange' urlStr.
Proof.
  intros Hsame urlStr. unfold Fetch.fetchHTML.
  destruct (parse_url _) as [href |]; [| reflexivity].
  rewrite (doFetch_agree _ Hsame 5 0 href) by lia. reflexivity.
Qed.

(** X11. The size ceiling of a 200 response reached within the redirect
    cap: when the chunks received before the end of the body hold at most
    5 * 1024 * 1024 characters together, the fetch resolves with their
    concatenation; when they hold more, it rejects with 'Response too
    large', and it does so whether or not the body ever ends. *)
Theorem body_ceiling (urlStr : string) (urls : nat -> string) (n : nat)
  (res : Response) (chunks : list string) (rest : list BodyEvent) :
  parse_url (with_scheme urlStr) = Some (urls 0) ->
  n <= 5 ->
  FetchSpec.chain resolve_url protocol_of exchange
    (module_for protocol_of (urls 0)) urls n ->
  FetchSpec.terminal protocol_of exchange
    (module_for protocol_of (urls 0)) urls n res ->
  statusCode res = 200%Z ->
  (body res = map Data chunks ++ EndOfBody :: rest ->
   Fetch.fetchHTML parse_url resolve_url protocol_of exchange urlStr
   = if (Z.of_nat (String.length (String.concat "" chunks)) <=? maxBytes)%Z
     then Resolved (String.concat "" chunks)
     else Rejected ResponseTooLarge)
  /\ (body res = map Data chunks ++ rest ->
      (maxBytes < Z.of_nat (String.length (String.concat "" chunks)))%Z ->
      Fetch.fetchHTML parse_url resolve_url protocol_of exchange urlStr
      = Rejected ResponseTooLarge).
Proof.
  intros Hp Hn Hc Ht Hs.
  rewrite (fetchHTML_terminal parse_url resolve_url protocol_of exchange
             urlStr urls n res Hp Hn Hc Ht).
  rewrite Hs. cbn [Z.eqb Pos.eqb negb].
  split.
  - intros ->.
    destruct (Z.leb_spec (Z.of_nat (String.length (String.concat "" chunks)))
                maxBytes) as [Hle | Hgt].
    + apply (read_body_chunks chunks rest ""). exact Hle.
    + apply (read_body_overflow chunks (EndOfBody :: rest) "");
        [vm_compute; discriminate | exact Hgt].
  - intros -> Hgt.
    apply (read_body_overflow chunks rest "");
      [vm_compute; discriminate | exact Hgt].
Qed.

End FetcherBounds.

Lemma at_most_six_requests_witness :
  Fetch.fetchHTML Some absolute https_only (redirecting 6 ok_page)
    "example.com/0"
  = Fetch.fetchHTML Some absolute https_only (redirecting 9 ok_page)
      "example.com/0".
Proof.
  apply at_most_six_requests.
  intros n u Hn.
  do 6 (destruct n as [| n]; [reflexivity |]). lia.
Defined.

Lemma body_ceiling_witness :
  Fetch.fetchHTML Some absolute https_only (redirecting 0 ok_page)
    "example.com/0"
  = Resolved "<html></html>".
Proof.
  refine (proj1 (body_ceiling Some absolute https_only (redirecting 0 ok_page)
                   "example.com/0" page 0 ok_page ["<html>"; "</html>"] []
                   _ _ _ _ _) _).
  - reflexivity.
  - apply Nat.le_0_l.
  - intros k Hk. inversion Hk.
  - repeat split.
  - reflexivity.
  - reflexivity.
Defined.

(* ------------------------------------------------------------------ *)
(** * Properties of the scan endpoints *)

Import ApiSpec.

Lemma keep_last_1000_skipn (h : list ScanRecord) :
  keep_last_1000 h = skipn (List.length h - 1000) h.
Proof.
  unfold keep_last_1000.
  destruct (Nat.ltb_spec 1000 (List.length h)) as [H | H]; [reflexivity |].
  replace (List.length h - 1000)%nat with 0%nat by lia. reflexivity.
Qed.

(** X12. [saveHistory] keeps the store at 1000 records by dropping the
    oldest ones: what it keeps is the store without its first
    [length - 1000] records, so the newest record always survives. *)
Theorem saved_history_keeps_newest (h : list ScanRecord) :
  h = firstn (List.length h - 1000) h ++ keep_last_1000 h
  /\ List.length (keep_last_1000 h) = Nat.min (List.length h) 1000
  /\ (forall old x, h = old ++ [x] ->
        exists kept, keep_last_1000 h = kept ++ [x]).
Proof.
  rewrite keep_last_1000_skipn.
  split; [symmetry; apply firstn_skipn |].
  split; [rewrite length_skipn; lia |].
  intros old x ->. rewrite length_app. simpl.
  rewrite skipn_app.
  replace (List.length old + 1 - 1000 - List.length old)%nat with 0%nat by lia.
  exists (skipn (List.length old + 1 - 1000) old). reflexivity.
Qed.

Lemma slice_last {X : Type} (n : Z) (l : list X) :
  0 < n ->
  rev (Api.slice_from (- n) l) = firstn (Z.to_nat n) (rev l).
Proof.
  intros Hn. unfold Api.slice_from.
  destruct (Z.ltb_spec (- n) 0) as [_ | H]; [| lia].
  rewrite firstn_rev. f_equal. f_equal. lia.
Qed.

(** X13. The listing of [/api/history] is newest first.  A positive
    limit [n] gives the first [n] records of the unlimited listing; a
    limit of 0, or one that is not a number, does not give an empty
    listing but the unlimited one; a negative limit [-k] drops the [k]
    oldest records.  With a URL text every listed record contains it. *)
Theorem history_listing (scanHistory : list ScanRecord) (url : option string) :
  Api.get_history scanHistory url None = rev (listed scanHistory url)
  /\ Api.get_history scanHistory url (Some 0)
     = Api.get_history scanHistory url None
  /\ (forall n, 0 < n ->
        Api.get_history scanHistory url (Some n)
        = firstn (Z.to_nat n) (Api.get_history scanHistory url None))
  /\ (forall k, 0 < k ->
        Api.get_history scanHistory url (Some (- k))
        = rev (skipn (Z.to_nat k) (listed scanHistory url)))
  /\ (forall c u limit s,
        url = Some (String c u) ->
        In s (Api.get_history scanHistory url limit) ->
        Scan.includes (String c u) (Scan.url (result s)) = true).
Proof.
  assert (Hall : Api.get_history scanHistory url None
                 = rev (listed scanHistory url)).
  { unfold Api.get_history, Api.slice_from. fold (listed scanHistory url).
    cbn [Z.ltb Z.compare]. rewrite Z.min_l by lia. reflexivity. }
  split; [exact Hall |].
  split; [reflexivity |].
  split; [| split].
  - intros n Hn. rewrite Hall. unfold Api.get_history.
    fold (listed scanHistory url). apply slice_last. exact Hn.
  - intros k Hk. unfold Api.get_history. fold (listed scanHistory url).
    unfold Api.slice_from. rewrite Z.opp_involutive.
    destruct (Z.ltb_spec k 0) as [H | _]; [lia |].
    destruct (Z.min_spec k (Z.of_nat (List.length (listed scanHistory url))))
      as [[_ ->] | [Hle ->]]; [reflexivity |].
    rewrite Nat2Z.id.
    rewrite !skipn_all2; [reflexivity | lia | lia].
  - intros c u limit s -> Hin. unfold Api.get_history in Hin.
    apply in_rev in Hin. unfold Api.slice_from in Hin.
    match type of Hin with
    | In s (skipn ?k ?l) =>
        assert (Hl : In s l)
          by (rewrite <- (firstn_skipn k l); apply in_or_app; right; exact Hin)
    end.
    apply filter_In in Hl. apply Hl.
Qed.

Lemma find_last {X : Type} (p : X -> bool) (l : list X) (x : X) :
  (forall y, In y l -> p y = false) -> p x = true ->
  find p (l ++ [x]) = Some x.
Proof.
  intros Hl Hx. induction l as [| a l IH]; simpl.
  - rewrite Hx. reflexivity.
  - rewrite (Hl a (or_introl eq_refl)). apply IH.
    intros y Hy. apply Hl. right. exact Hy.
Qed.

Lemma In_skipn {X : Type} (n : nat) (l : list X) (x : X) :
  In x (skipn n l) -> In x l.
Proof.
  intros H. rewrite <- (firstn_skipn n l). apply in_or_app. right. exact H.
Qed.

Lemma search_head (m : string -> bool) (a : ascii) (s : string) :
  (forall t, m t = true -> exists t', t = String a t') ->
  Scan.search m s = true -> In a (list_ascii_of_string s).
Proof.
  intros Hm. induction s as [| c s IH]; cbn [Scan.search].
  - rewrite orb_false_r. intros H. destruct (Hm _ H) as (t' & E). discriminate E.
  - intros H. apply orb_prop in H. destruct H as [H | H].
    + destruct (Hm _ H) as (t' & E). injection E as -> _. left. reflexivity.
    + right. apply IH. exact H.
Qed.

(** A text that contains a pattern contains its first character. *)
Lemma includes_head (a : ascii) (p s : string) :
  Scan.includes (String a p) s = true -> In a (list_ascii_of_string s).
Proof.
  apply search_head. intros t. destruct t as [| c t]; cbn [strip_prefix];
    [discriminate |].
  destruct (Ascii.eqb_spec a c) as [-> | _]; [| discriminate].
  intros _. exists t. reflexivity.
Qed.

Lemma uint_digits (d : Decimal.uint) (c : ascii) :
  In c (list_ascii_of_string (NilEmpty.string_of_uint d)) -> is_digit c = true.
Proof.
  induction d; simpl; try contradiction;
    (intros [<- | H]; [reflexivity | apply IHd; exact H]).
Qed.

Lemma int_chars (z : Z) (c : ascii) :
  In c (list_ascii_of_string (NilZero.string_of_int (Z.to_int z))) ->
  is_digit c = true \/ c = "-"%char.
Proof.
  assert (Hu : forall d, In c (list_ascii_of_string (NilZero.string_of_uint d)) ->
                         is_digit c = true).
  { intros d. unfold NilZero.string_of_uint. destruct d; try apply uint_digits.
    simpl. intros [<- | []]. reflexivity. }
  unfold NilZero.string_of_int. destruct (Z.to_int z) as [d | d].
  - intros H. left. apply (Hu d). exact H.
  - simpl. intros [<- | H]; [right; reflexivity | left; apply (Hu d); exact H].
Qed.

Lemma list_ascii_app (a b : string) :
  list_ascii_of_string (a ++ b)
  = list_ascii_of_string a ++ list_ascii_of_string b.
Proof. induction a as [| c a IH]; simpl; [reflexivity | rewrite IH; reflexivity]. Qed.

(** The message of an HTTP status contains none of the texts the scan
    endpoint looks for. *)
Lemma http_status_message (code : Z) :
  Api.scan_error (Api.message (HttpStatus code))
  = Api.ScanError 500 ("Scan failed: " ++ Api.message (HttpStatus code)).
Proof.
  assert (Hno : forall a p,
    is_digit a = false -> a <> "-"%char ->
    ~ In a (list_ascii_of_string "HTTP ") ->
    Scan.includes (String a p) (Api.message (HttpStatus code)) = false).
  { intros a p Hd Hm Hh.
    destruct (Scan.includes (String a p) (Api.message (HttpStatus code))) eqn:E;
      [| reflexivity].
    exfalso. apply includes_head in E. cbn [Api.message] in E.
    rewrite list_ascii_app in E. apply in_app_or in E.
    destruct E as [E | E]; [exact (Hh E) |].
    apply int_chars in E. destruct E as [E | E]; [congruence | exact (Hm E)]. }
  unfold Api.scan_error.
  change (is_empty (Api.message (HttpStatus code))) with false. cbv iota.
  rewrite !Hno;
    try reflexivity; try discriminate;
    simpl; intuition discriminate.
Qed.

Section ScanEndpointFacts.

Variable parse_url : string -> option string.
Variable resolve_url : string -> string -> option string.
Variable protocol_of : string -> string.
Variable exchange : nat -> string -> Exchange.
Variable cheerio_load : string -> Document.
Variable now : Z.
Variable fresh : string.
Variable write_error : option string.

Local Notation "'post_scan'" :=
  (Api.post_scan parse_url resolve_url protocol_of exchange cheerio_load now
     fresh write_error).

(** What a scan that answers 200 has done. *)
Lemma post_scan_ok scanHistory url h' rec :
  post_scan scanHistory url = (h', Api.ScanOk rec) ->
  rec_id rec = fresh
  /\ h' = keep_last_1000 (scanHistory ++ [rec])
  /\ exists html u,
       Scan.scanHTML (cheerio_load html) u now = Normal (result rec).
Proof.
  unfold Api.post_scan.
  destruct url as [[| c u] |];
    try (intros H; injection H as _ H; discriminate H).
  set (n := if has_scheme (trim (String c u)) then trim (String c u)
            else ("https://" ++ trim (String c u))%string).
  destruct (parse_url n); [| intros H; injection H as _ H; discriminate H].
  destruct (Fetch.fetchHTML _ _ _ _ n) as [html | e].
  2:{ unfold Api.scan_error.
      repeat match goal with
             | |- context [if ?b then _ else _] => destruct b
             end; intros H; injection H as _ H; discriminate H. }
  destruct (Scan.scanHTML (cheerio_load html) n now) as [r |] eqn:Es.
  2:{ unfold Api.scan_error.
      repeat match goal with
             | |- context [if ?b then _ else _] => destruct b
             end; intros H; injection H as _ H; discriminate H. }
  destruct write_error as [e |].
  { unfold Api.scan_error.
    repeat match goal with
           | |- context [if ?b then _ else _] => destruct b
           end; intros H; injection H as _ H; discriminate H. }
  intros H. injection H as <- <-. simpl.
  split; [reflexivity |]. split; [reflexivity |].
  exists html, n. exact Es.
Qed.

(** X14. A scan that answers 200 can be read back: when no stored scan
    carries the new identifier, [/api/scan/:id] returns the record of the
    response, the record is the first of the history listing, and the
    store holds one record more, up to its cap of 1000. *)
Theorem scan_is_stored_and_found scanHistory url h' rec :
  post_scan scanHistory url = (h', Api.ScanOk rec) ->
  (forall s, In s scanHistory -> rec_id s <> fresh) ->
  Api.get_scan h' (rec_id rec) = Some rec
  /\ Api.get_history h' None (Some 1) = [rec]
  /\ List.length h' = Nat.min (List.length scanHistory + 1) 1000.
Proof.
  intros H Hfresh. apply post_scan_ok in H. destruct H as (Hid & -> & _).
  rewrite keep_last_1000_skipn.
  rewrite length_app. cbn [List.length].
  set (k := (List.length scanHistory + 1 - 1000)%nat).
  assert (Hk : (k <= List.length scanHistory)%nat) by (unfold k; lia).
  assert (Hs : skipn k (scanHistory ++ [rec]) = skipn k scanHistory ++ [rec]).
  { rewrite skipn_app. replace (k - List.length scanHistory)%nat with 0%nat by lia.
    reflexivity. }
  rewrite Hs. split; [| split].
  - unfold Api.get_scan. apply find_last.
    + intros y Hy. apply In_skipn in Hy. apply String.eqb_neq.
      rewrite Hid. apply Hfresh. exact Hy.
    + apply String.eqb_refl.
  - unfold Api.get_history.
    rewrite (slice_last 1) by lia. rewrite rev_app_distr. reflexivity.
  - rewrite length_app, length_skipn. cbn [List.length]. unfold k. lia.
Qed.

Lemma read_body_valid (events : list BodyEvent) (data x : string) :
  read_body data events <> Rejected (InvalidURL x).
Proof.
  revert data. induction events as [| ev events IH]; intros data; simpl.
  - discriminate.
  - destruct ev as [chunk | | e | f].
    + destruct (maxBytes <? _); [discriminate | apply IH].
    + discriminate.
    + discriminate.
    + destruct f; discriminate.
Qed.

Lemma doFetch_valid mp x :
  forall k r u, (6 - r <= k)%nat ->
    Fetch.doFetch resolve_url protocol_of exchange mp r u
    <> Normal (Rejected (InvalidURL x)).
Proof.
  induction k as [| k IH]; intros r u Hr; rewrite doFetch_unfold;
    (destruct (get_throws protocol_of mp u); [discriminate |]);
    (destruct (exchange r u) as [f | res]; [destruct f; discriminate |]);
    (destruct (is_redirect res);
     [| destruct (negb (statusCode res =? 200));
        [discriminate | intros H; injection H as H; revert H; apply read_body_valid]]);
    (destruct (Nat.ltb_spec 5 (S r)); [discriminate |]).
  - lia.
  - destruct (resolve_url _ u) as [href |]; [| discriminate].
    specialize (IH (S r) href ltac:(lia)).
    destruct (Fetch.doFetch resolve_url protocol_of exchange mp (S r) href)
      as [st |]; [| discriminate].
    simpl. exact IH.
Qed.

(** The fetcher takes a URL that the endpoint has validated. *)
Lemma fetch_of_valid_url urlStr x :
  parse_url (with_scheme urlStr) <> None ->
  Fetch.fetchHTML parse_url resolve_url protocol_of exchange (with_scheme urlStr)
  <> Rejected (InvalidURL x).
Proof.
  intros Hp. unfold Fetch.fetchHTML. fold (with_scheme (with_scheme urlStr)).
  rewrite with_scheme_idem.
  destruct (parse_url (with_scheme urlStr)) as [href |]; [| contradiction].
  pose proof (doFetch_valid
    (if String.eqb (protocol_of href) "https:" then "https:" else "http:")
    x 6 0 href ltac:(lia)) as Hd.
  destruct (Fetch.doFetch _ _ _ _ 0 href) as [st |]; [| discriminate].
  intros E. apply Hd. rewrite E. reflexivity.
Qed.

(** X15. How the scan endpoint answers a fetch that fails, for a URL it
    has accepted: the store is left as it is; either kind of timeout gives
    status 504; too many redirects, an unusable redirect, an oversized body
    and any HTTP status other than 200 (a 404 of the site as well) give
    status 500 with the message of the failure after 'Scan failed: '.  The
    fetcher's own 'Invalid URL' failure cannot occur here, since the
    endpoint has parsed the same text before. *)
Theorem scan_failure_statuses scanHistory (c : ascii) (u : string)
  (e : FetchError) :
  let normalizedUrl := with_scheme (trim (String c u)) in
  parse_url normalizedUrl <> None ->
  Fetch.fetchHTML parse_url resolve_url protocol_of exchange normalizedUrl
  = Rejected e ->
  (forall x, e <> InvalidURL x)
  /\ exists status error,
       post_scan scanHistory (Some (String c u))
       = (scanHistory, Api.ScanError status error)
       /\ (e = RequestTimedOut \/ e = ConnectionTimedOut -> status = 504)
       /\ (e = TooManyRedirects \/ e = InvalidRedirectURL
           \/ e = ResponseTooLarge \/ (exists code, e = HttpStatus code) ->
           status = 500 /\ error = ("Scan failed: " ++ Api.message e)%string).
Proof.
  intros n Hp Hf.
  assert (Hnot : forall x, e <> InvalidURL x).
  { intros x ->. exact (fetch_of_valid_url _ x Hp Hf). }
  split; [exact Hnot |].
  unfold Api.post_scan. fold (with_scheme (trim (String c u))). fold n.
  destruct (parse_url n) as [href |]; [| contradiction].
  rewrite Hf.
  destruct e as [x | | | | code | | | m].
  - exfalso. exact (Hnot x eq_refl).
  - eexists _, _. split; [vm_compute; reflexivity |].
    split; [reflexivity |].
    intros [H | [H | [H | (code & H)]]]; discriminate H.
  - eexists _, _. split; [vm_compute; reflexivity |].
    split; [intros [H | H]; discriminate H |].
    intros _. split; reflexivity.
  - eexists _, _. split; [vm_compute; reflexivity |].
    split; [intros [H | H]; discriminate H |].
    intros _. split; reflexivity.
  - rewrite http_status_message.
    eexists _, _. split; [reflexivity |].
    split; [intros [H | H]; discriminate H |].
    intros _. split; reflexivity.
  - eexists _, _. split; [vm_compute; reflexivity |].
    split; [intros [H | H]; discriminate H |].
    intros _. split; reflexivity.
  - eexists _, _. split; [vm_compute; reflexivity |].
    split; [reflexivity |].
    intros [H | [H | [H | (code & H)]]]; discriminate H.
  - destruct (Api.scan_error (Api.message (Raised m))) as [rec | st err] eqn:E.
    + exfalso. unfold Api.scan_error in E.
      repeat match type of E with
             | context [if ?b then _ else _] => destruct b
             end; discriminate E.
    + exists st, err. split; [reflexivity |].
      split; [intros [H | H]; discriminate H |].
      intros [H | [H | [H | (code & H)]]]; discriminate H.
Qed.

(** X16. An error response of the scan endpoint leaves the store as it
    was, unless writing the store to disk failed: then, and only then, the
    record of the finished scan is in the store although the response is an
    error. *)
Theorem scan_error_leaves_store scanHistory url h' status error :
  post_scan scanHistory url = (h', Api.ScanError status error) ->
  (write_error = None -> h' = scanHistory)
  /\ (h' <> scanHistory ->
      exists rec, rec_id rec = fresh
                  /\ h' = keep_last_1000 (scanHistory ++ [rec])).
Proof.
  unfold Api.post_scan.
  destruct url as [[| c u] |];
    try (intros H; injection H as <- _; split; [reflexivity | contradiction]).
  set (n := if has_scheme (trim (String c u)) then trim (String c u)
            else ("https://" ++ trim (String c u))%string).
  destruct (parse_url n);
    [| intros H; injection H as <- _; split; [reflexivity | contradiction]].
  destruct (Fetch.fetchHTML _ _ _ _ n) as [html | e];
    [| intros H; injection H as <- _; split; [reflexivity | contradiction]].
  destruct (Scan.scanHTML (cheerio_load html) n now) as [r |];
    [| intros H; injection H as <- _; split; [reflexivity | contradiction]].
  destruct write_error as [e |]; [| intros H; discriminate H].
  intros H. injection H as <- _.
  split; [discriminate |].
  intros _. eexists. split; [| reflexivity]. reflexivity.
Qed.

End ScanEndpointFacts.

Lemma scan_is_stored_and_found_witness :
  exists h' rec,
    Api.post_scan Some absolute https_only direct blank_page 30 "scan-3" None
      two_scans (Some "example.com") = (h', Api.ScanOk rec)
    /\ Api.get_scan h' (rec_id rec) = Some rec.
Proof.
  eexists. eexists. split; [vm_compute; reflexivity |].
  refine (proj1 (scan_is_stored_and_found Some absolute https_only direct
                   blank_page 30 "scan-3" None two_scans (Some "example.com")
                   _ _ _ _)).
  - vm_compute. reflexivity.
  - intros s [<- | [<- | []]]; vm_compute; discriminate.
Defined.

Lemma scan_failure_statuses_witness :
  exists error,
    Api.post_scan Some absolute https_only not_found blank_page 30 "scan-3" None
      two_scans (Some "example.com")
    = (two_scans, Api.ScanError 500 error)
    /\ error = "Scan failed: HTTP 404".
Proof.
  destruct (proj2 (scan_failure_statuses Some absolute https_only not_found
                     blank_page 30 "scan-3" None two_scans "e" "xample.com"
                     (HttpStatus 404) ltac:(discriminate) eq_refl))
    as (status & error & Hpost & _ & H500).
  destruct (H500 (or_intror (or_intror (or_intror (ex_intro _ 404 eq_refl)))))
    as [-> ->].
  exists ("Scan failed: " ++ Api.message (HttpStatus 404))%string.
  split; [exact Hpost | reflexivity].
Defined.

Lemma scan_error_leaves_store_witness :
  fst (Api.post_scan Some absolute https_only not_found blank_page 30 "scan-3"
         None two_scans (Some "example.com")) = two_scans.
Proof.
  refine (proj1 (scan_error_leaves_store Some absolute https_only not_found
                   blank_page 30 "scan-3" None two_scans (Some "example.com")
                   _ 500 "Scan failed: HTTP 404" _) eq_refl).
  vm_compute. reflexivity.
Defined.

(** ** The trend and the history of a host *)

Lemma last_cons {X : Type} (x d : X) (l : list X) :
  last (x :: l) d = last l x.
Proof.
  revert x d. induction l as [| y l IH]; intros x d; [reflexivity |].
  change (last (x :: y :: l) d) with (last (y :: l) d).
  rewrite !IH. reflexivity.
Qed.

Lemma last_map {X Y : Type} (f : X -> Y) (l : list X) (d : X) :
  last (map f l) (f d) = f (last l d).
Proof.
  revert d. induction l as [| x l IH]; intros d; [reflexivity |].
  rewrite map_cons, !last_cons. apply IH.
Qed.

Lemma nth_error_last {X : Type} (x : X) (l : list X) :
  nth_error (x :: l) (List.length l) = Some (last l x).
Proof.
  revert x. induction l as [| y l IH]; intros x; [reflexivity |].
  cbn [List.length nth_error]. rewrite IH. rewrite last_cons. reflexivity.
Qed.

(** The diffs of a history telescope. *)
Lemma total_change_entries (p : ScanRecord) (l : list ScanRecord) :
  total_change (entries (Some p) l)
  = Scan.score (result (last l p)) - Scan.score (result p).
Proof.
  revert p. induction l as [| x l IH]; intros p.
  - simpl. lia.
  - cbn [entries total_change fold_right entry_of e_diff].
    fold (total_change (entries (Some x) l)). rewrite IH.
    rewrite last_cons. cbn [diff_of scoreChange]. lia.
Qed.

Lemma total_change_first (x : ScanRecord) (l : list ScanRecord) :
  total_change (entries None (x :: l))
  = Scan.score (result (last l x)) - Scan.score (result x).
Proof.
  change (total_change (entries None (x :: l)))
    with (total_change (entries (Some x) l)).
  apply total_change_entries.
Qed.

Lemma trend_of_records (x y : ScanRecord) (l : list ScanRecord) :
  Api.trend_of (map Api.dataPoint (x :: y :: l))
  = Some {| Api.t_scoreChange :=
              Scan.score (result (last (y :: l) x)) - Scan.score (result x);
            Api.t_issuesChange :=
              Z.of_nat (Scan.sum_issues (Scan.summary (result (last (y :: l) x))))
              - Z.of_nat (Scan.sum_issues (Scan.summary (result x)));
            Api.direction :=
              if Scan.score (result x) <? Scan.score (result (last (y :: l) x))
              then Api.improving
              else if Scan.score (result (last (y :: l) x)) <? Scan.score (result x)
                   then Api.declining else Api.stable;
            Api.t_totalScans := S (S (List.length l));
            Api.firstScan := Scan.scannedAt (result x);
            Api.lastScan := Scan.scannedAt (result (last (y :: l) x)) |}.
Proof.
  unfold Api.trend_of.
  change (map Api.dataPoint (x :: y :: l))
    with (Api.dataPoint x :: map Api.dataPoint (y :: l)).
  assert (Hlen : List.length (map Api.dataPoint (y :: l)) = S (List.length l))
    by (rewrite length_map; reflexivity).
  set (rest := map Api.dataPoint (y :: l)) in *.
  cbn [List.length]. rewrite Nat.sub_1_r, Nat.pred_succ.
  rewrite nth_error_last. rewrite Hlen. cbn [Nat.leb].
  unfold rest. rewrite last_map. reflexivity.
Qed.

Section TrendFacts.

Variable hostname : string -> option string.

(** X17. The trend of a host agrees with its history of diffs.  The
    trend is null exactly when the host has fewer than two scans.
    Otherwise the history endpoint, asked for the same text, returns the
    same URL, host and number of scans; the score change of the trend is
    the sum of the score changes of the consecutive diffs of that history;
    and the direction is 'improving', 'declining' or 'stable' as that
    change is positive, negative or zero. *)
Theorem trend_sums_history_diffs (scanHistory : list ScanRecord)
  (c : ascii) (u : string) (url domain : string)
  (scans : list Api.DataPoint) (trend : option Api.Trend) :
  Api.get_trend hostname scanHistory (Some (String c u))
  = Api.TrendOk url domain scans trend ->
  (trend = None <-> (List.length scans < 2)%nat)
  /\ (forall t, trend = Some t ->
        exists history latestDiff,
          scan_history hostname scanHistory (String c u)
          = Found url domain (Api.t_totalScans t) history latestDiff
          /\ Api.t_totalScans t = List.length scans
          /\ Api.t_scoreChange t = total_change history
          /\ (Api.direction t = Api.improving <-> 0 < Api.t_scoreChange t)
          /\ (Api.direction t = Api.declining <-> Api.t_scoreChange t < 0)
          /\ (Api.direction t = Api.stable <-> Api.t_scoreChange t = 0)).
Proof.
  unfold Api.get_trend, scan_history.
  set (n := if has_scheme (trim (String c u)) then trim (String c u)
            else ("https://" ++ trim (String c u))%string).
  destruct (hostname n) as [dm |]; [| discriminate].
  destruct (urlScans_of hostname scanHistory dm) as [| x [| y l]] eqn:E.
  - cbn [List.length Nat.eqb]. intros H. injection H as <- <- <- <-.
    split; [split; [simpl; lia | reflexivity] | discriminate].
  - cbn [List.length Nat.eqb]. intros H. injection H as <- <- <- <-.
    split; [split; [simpl; lia | reflexivity] | discriminate].
  - cbn [List.length Nat.eqb]. rewrite trend_of_records.
    pose proof (total_change_first x (y :: l)) as Htot.
    set (z := last (y :: l) x) in *. clearbody z.
    intros H. injection H as <- <- <- <-.
    split.
    { split; [discriminate |]. simpl. intros H'. lia. }
    intros t Ht. injection Ht as <-.
    cbn [Api.t_totalScans Api.t_scoreChange Api.direction].
    rewrite entries_length. cbn [List.length Nat.leb].
    eexists _, _. split; [reflexivity |].
    split; [simpl; rewrite ?length_map; reflexivity |].
    split.
    { rewrite Htot. reflexivity. }
    set (a := Scan.score (result x)).
    set (b := Scan.score (result z)).
    destruct (Z.ltb_spec a b); [| destruct (Z.ltb_spec b a)];
      repeat split; intros H'; try discriminate H'; try lia; reflexivity.
Qed.

End TrendFacts.

Lemma trend_sums_history_diffs_witness :
  exists t,
    Api.get_trend example_host two_scans (Some "example.com")
    = Api.TrendOk "https://example.com" "example.com"
        (map Api.dataPoint two_scans) (Some t)
    /\ Api.t_totalScans t = 2%nat.
Proof.
  eexists. split; [vm_compute; reflexivity |].
  destruct (proj2 (trend_sums_history_diffs example_host two_scans
                     "e" "xample.com" _ _ _ _ eq_refl) _ eq_refl)
    as (history & latestDiff & _ & Hn & _).
  exact Hn.
Defined.


(* ------------------------------------------------------------------ *)
(** * Further properties of the monitor registry and the scheduler *)

Import RegistrySpec.

(** ** The shape of an accepted address *)

Lemma span_plain_spec (e : string) :
  e = (fst (span_plain e) ++ snd (span_plain e))%string
  /\ all_chars plain (fst (span_plain e)) = true
  /\ (snd (span_plain e) = ""
      \/ exists c r, snd (span_plain e) = String c r /\ plain c = false).
Proof.
  induction e as [| c e IH]; simpl.
  - repeat split. left. reflexivity.
  - destruct (plain c) eqn:Ec.
    + destruct (span_plain e) as [v rest]. simpl in *.
      destruct IH as (E & Hv & Hr).
      split; [rewrite E at 1; reflexivity |].
      split; [rewrite Ec, Hv; reflexivity | exact Hr].
    + simpl. repeat split. right. exists c, e. split; [reflexivity | exact Ec].
Qed.

Lemma span_plain_app (v r : string) (c : ascii) :
  all_chars plain v = true -> plain c = false ->
  span_plain (v ++ String c r) = (v, String c r).
Proof.
  intros Hv Hc. induction v as [| x v IH]; simpl.
  - rewrite Hc. reflexivity.
  - simpl in Hv. apply andb_prop in Hv. destruct Hv as [Hx Hv].
    rewrite Hx, (IH Hv). reflexivity.
Qed.

Lemma dot_then_more_spec (s : string) :
  dot_then_more s = true
  <-> exists a b, s = (a ++ String "." b)%string /\ b <> "".
Proof.
  induction s as [| c s IH]; simpl.
  - split; [discriminate |].
    intros (a & b & E & _). destruct a; discriminate E.
  - rewrite orb_true_iff, andb_true_iff, IH. split.
    + intros [[Hc Hs] | (a & b & E & Hb)].
      * apply Ascii.eqb_eq in Hc. subst c. exists "", s.
        split; [reflexivity |]. destruct s; [discriminate | discriminate].
      * exists (String c a), b. split; [rewrite E; reflexivity | exact Hb].
    + intros (a & b & E & Hb). destruct a as [| x a]; simpl in E.
      * injection E as -> ->. left. split; [apply Ascii.eqb_refl |].
        destruct b; [contradiction | reflexivity].
      * injection E as -> ->. right. exists a, b. split; [reflexivity | exact Hb].
Qed.

Lemma valid_email_shape_aux (email : string) :
  valid_email email = true ->
  exists local a b,
    email = (local ++ String "@" (a ++ String "." b))%string
    /\ all_chars plain local = true
    /\ all_chars plain a = true
    /\ all_chars plain b = true.
Proof.
  unfold valid_email.
  destruct (span_plain_spec email) as (E & Hv & _).
  destruct (span_plain email) as [v rest]. simpl in E, Hv.
  destruct v as [| v0 v]; [discriminate |].
  destruct rest as [| at_ rest]; [discriminate |].
  destruct (Ascii.eqb_spec at_ "@") as [-> | Hne].
  2:{ destruct at_ as [[] [] [] [] [] [] [] []]; try discriminate.
      contradiction. }
  destruct rest as [| c domain]; [discriminate |].
  intros H. apply andb_prop in H. destruct H as [Hp Hd].
  apply dot_then_more_spec in Hd. destruct Hd as (a & b & -> & Hb).
  exists (String v0 v), (String c a), b.
  change (String c (a ++ String "." b)) with (String c a ++ String "." b)%string in Hp.
  rewrite all_chars_app in Hp. apply andb_prop in Hp. destruct Hp as [Ha Hb'].
  cbn [all_chars] in Hb'. apply andb_prop in Hb'. destruct Hb' as [_ Hb'].
  repeat split; assumption.
Qed.

(** X18. The addresses the registry accepts are exactly the texts of the
    shape [local@a.b] in which [local], [a] and [b] are not empty and hold
    neither white space nor an at sign; in particular an accepted address
    has exactly one at sign and a dot after it that is neither the first nor
    the last character of the domain. *)
Theorem valid_email_shape (email : string) :
  valid_email email = true
  <-> exists local a b,
        email = (local ++ String "@" (a ++ String "." b))%string
        /\ local <> "" /\ a <> "" /\ b <> ""
        /\ all_chars plain local = true
        /\ all_chars plain a = true
        /\ all_chars plain b = true.
Proof.
  unfold valid_email. split.
  - destruct (span_plain_spec email) as (E & Hv & _).
    destruct (span_plain email) as [v rest]. simpl in E, Hv.
    destruct v as [| v0 v]; [discriminate |].
    destruct rest as [| at_ rest]; [discriminate |].
    destruct (Ascii.eqb_spec at_ "@") as [-> | Hne].
    2:{ destruct at_ as [[] [] [] [] [] [] [] []]; try discriminate.
        contradiction. }
    destruct rest as [| c domain]; [discriminate |].
    intros H. apply andb_prop in H. destruct H as [Hp Hd].
    apply dot_then_more_spec in Hd. destruct Hd as (a & b & -> & Hb).
    exists (String v0 v), (String c a), b.
    change (String c (a ++ String "." b)) with (String c a ++ String "." b)%string in Hp.
    rewrite all_chars_app in Hp. apply andb_prop in Hp. destruct Hp as [Ha Hb'].
    cbn [all_chars] in Hb'. apply andb_prop in Hb'. destruct Hb' as [_ Hb'].
    repeat split; try assumption; try discriminate.
  - intros (local & a & b & -> & Hl & Ha & Hb & Pl & Pa & Pb).
    rewrite (span_plain_app local _ "@" Pl eq_refl).
    destruct local as [| l0 local]; [contradiction |].
    destruct a as [| c a]; [contradiction |].
    cbn [append].
    change (String c (a ++ String "." b)) with (String c a ++ String "." b)%string.
    rewrite all_chars_app, Pa. cbn [all_chars]. rewrite Pb.
    change (plain ".") with true. cbn [andb].
    apply dot_then_more_spec. exists a, b. split; [reflexivity | exact Hb].
Qed.

(** ** Texts without white space *)

Lemma plain_no_space (s : string) :
  all_chars plain s = true -> no_space s = true.
Proof.
  unfold no_space. induction s as [| c s IH]; simpl; [reflexivity |].
  intros H. apply andb_prop in H. destruct H as [Hc Hs].
  rewrite (IH Hs), andb_true_r.
  unfold plain in Hc. destruct (is_space c); [discriminate | reflexivity].
Qed.

Lemma valid_email_no_space (email : string) :
  valid_email email = true -> no_space email = true.
Proof.
  intros H. apply valid_email_shape_aux in H.
  destruct H as (local & a & b & -> & Pl & Pa & Pb).
  unfold no_space. rewrite all_chars_app. cbn [all_chars].
  rewrite all_chars_app. cbn [all_chars].
  apply plain_no_space in Pl, Pa, Pb. unfold no_space in Pl, Pa, Pb.
  rewrite Pl, Pa, Pb. reflexivity.
Qed.

(** ** The scheduler *)

Lemma keep_last_1000_cap (h : list ScanRecord) :
  (List.length (keep_last_1000 h) <= 1000)%nat.
Proof. rewrite keep_last_1000_skipn, length_skipn. lia. Qed.

Lemma same_registration_refl (m : Monitor) : same_registration m m.
Proof. repeat split. Qed.

Section SchedulerFrame.

Variable fetchHTML : string -> Fetch.Settled.
Variable cheerio_load : string -> Document.
Variable clock : nat -> Z.
Variable uuidv4 : nat -> string.
Variable history_write_ok : nat -> bool.
Variable monitors_write_ok : nat -> bool.
Variable interval : string -> Z.

Local Notation "'try_scan'" :=
  (Monitor.try_scan fetchHTML cheerio_load clock uuidv4
     history_write_ok monitors_write_ok interval).
Local Notation "'visit'" :=
  (Monitor.visit fetchHTML cheerio_load clock uuidv4
     history_write_ok monitors_write_ok interval).
Local Notation "'run_from'" :=
  (Monitor.run_from fetchHTML cheerio_load clock uuidv4
     history_write_ok monitors_write_ok interval).
Local Notation "'runScheduledScans'" :=
  (Monitor.runScheduledScans fetchHTML cheerio_load clock uuidv4
     history_write_ok monitors_write_ok interval).

Lemma try_scan_frame now i m h :
  same_registration m (fst (fst (try_scan now i m h)))
  /\ ((List.length h <= 1000)%nat ->
      (List.length (snd (fst (try_scan now i m h))) <= 1000)%nat).
Proof.
  unfold Monitor.try_scan.
  destruct (fetchHTML (m_url m)) as [html | e];
    [| split; [apply same_registration_refl | intros H; exact H]].
  destruct (scanHTML _ _ _) as [result | e];
    [| split; [apply same_registration_refl | intros H; exact H]].
  destruct (history_write_ok i); simpl;
    [| split; [apply same_registration_refl
              | intros _; apply keep_last_1000_cap]].
  destruct (monitors_write_ok i); simpl;
    (split; [repeat split | intros _; apply keep_last_1000_cap]).
Qed.

Lemma visit_frame now i m h :
  same_registration m (fst (visit now i m h))
  /\ (not_due now m = true -> visit now i m h = (m, h))
  /\ ((List.length h <= 1000)%nat ->
      (List.length (snd (visit now i m h)) <= 1000)%nat).
Proof.
  unfold Monitor.visit. destruct (not_due now m).
  - split; [apply same_registration_refl |].
    split; [reflexivity | intros H; exact H].
  - destruct (try_scan_frame now i m h) as [Hs Hc].
    split; [exact Hs |]. split; [discriminate | exact Hc].
Qed.

Lemma run_from_frame now monitors :
  forall i h,
    Forall2 (fun m m' => same_registration m m' /\ (not_due now m = true -> m' = m))
            monitors (fst (run_from now i monitors h))
    /\ (Forall (fun m => not_due now m = true) monitors ->
        snd (run_from now i monitors h) = h)
    /\ ((List.length h <= 1000)%nat ->
        (List.length (snd (run_from now i monitors h)) <= 1000)%nat).
Proof.
  induction monitors as [| m rest IH]; intros i h.
  - simpl. split; [constructor |]. split; [reflexivity | intros H; exact H].
  - cbn [Monitor.run_from].
    destruct (visit_frame now i m h) as (Hs & Hn & Hc).
    destruct (visit now i m h) as [m' h1] eqn:Ev. cbn [fst snd] in *.
    destruct (IH (S i) h1) as (Hf & Hq & Hcap).
    destruct (run_from now (S i) rest h1) as [rest' h2]. cbn [fst snd] in *.
    split; [| split].
    + constructor; [| exact Hf].
      split; [exact Hs |]. intros Hd. specialize (Hn Hd). congruence.
    + intros Hall. inversion Hall as [| ? ? Hd Hrest]; subst.
      specialize (Hn Hd). injection Hn as _ ->. apply Hq. exact Hrest.
    + intros Hle. apply Hcap. apply Hc. exact Hle.
Qed.

(** X19. What a tick of the scheduler leaves alone.  It neither adds nor
    removes nor reorders monitors, and of each monitor it keeps the
    identifier, URL, address, frequency, the active flag and the
    registration time stamps; a monitor that is inactive or not yet due is
    left exactly as it is; when no monitor is due the scan history is left
    as it is; and a history of at most 1000 records stays within 1000. *)
Theorem scheduler_frame (now : Z) (monitors : list Monitor)
  (scanHistory : list ScanRecord) :
  let after := runScheduledScans now monitors scanHistory in
  Forall2 (fun m m' => same_registration m m' /\ (not_due now m = true -> m' = m))
          monitors (fst after)
  /\ (Forall (fun m => not_due now m = true) monitors -> snd after = scanHistory)
  /\ ((List.length scanHistory <= 1000)%nat ->
      (List.length (snd after) <= 1000)%nat).
Proof. apply run_from_frame. Qed.

End SchedulerFrame.

Lemma scheduler_frame_witness :
  snd (Monitor.runScheduledScans online blank_page at_1000 numbered disk_ok
         disk_ok intervalMs 100 [monitor_of "m-1" "daily"] two_scans)
  = two_scans.
Proof.
  refine (proj1 (proj2 (scheduler_frame online blank_page at_1000 numbered
                          disk_ok disk_ok intervalMs 100
                          [monitor_of "m-1" "daily"] two_scans)) _).
  repeat constructor.
Defined.

(** ** Deactivation *)

Lemma update_first_split (p : Monitor -> bool) (f : Monitor -> Monitor)
  (l : list Monitor) (m : Monitor) :
  find p l = Some m ->
  exists pre post,
    l = pre ++ m :: post
    /\ (forall x, In x pre -> p x = false)
    /\ p m = true
    /\ update_first p f l = pre ++ f m :: post.
Proof.
  induction l as [| a l IH]; simpl; [discriminate |].
  destruct (p a) eqn:E.
  - intros H. injection H as ->. exists [], l.
    repeat split; [intros x [] | exact E].
  - intros H. destruct (IH H) as (pre & post & -> & Hpre & Hm & Hu).
    exists (a :: pre), post. rewrite Hu.
    repeat split; [| exact Hm].
    intros x [<- | Hx]; [exact E | apply Hpre; exact Hx].
Qed.

(** X20. Deleting a monitor deactivates it and nothing else.  For an
    unknown identifier the answer is 404 and the registry is unchanged.
    Otherwise the first monitor with that identifier has its active flag
    cleared, every other member and every other monitor is as before, the
    list of active monitors no longer shows it, and no later tick of the
    scheduler scans it or changes it, whatever the network does. *)
Theorem deleted_monitor_is_never_scanned (monitors : list Monitor) (id : string) :
  let (monitors', response) := MonitorApi.delete_monitor monitors id in
  (response = MonitorApi.MonitorNotFound
   <-> forall m, In m monitors -> m_id m <> id)
  /\ (response = MonitorApi.MonitorNotFound -> monitors' = monitors)
  /\ (response = MonitorApi.MonitorDeactivated ->
      exists pre m post,
        monitors = pre ++ m :: post
        /\ (forall x, In x pre -> m_id x <> id)
        /\ m_id m = id
        /\ monitors' = pre ++ MonitorApi.set_active false m :: post
        /\ (forall c e l,
              MonitorApi.get_monitors monitors' (Some (String c e))
              = MonitorApi.Owned l ->
              ~ In (MonitorApi.set_active false m) l)
        /\ (forall fetchHTML cheerio_load clock uuidv4 history_write_ok
                   monitors_write_ok interval now i h,
              Monitor.visit fetchHTML cheerio_load clock uuidv4
                history_write_ok monitors_write_ok interval now i
                (MonitorApi.set_active false m) h
              = (MonitorApi.set_active false m, h))).
Proof.
  unfold MonitorApi.delete_monitor.
  destruct (find (fun m => String.eqb (m_id m) id) monitors) as [m |] eqn:Ef.
  - apply update_first_split with (f := MonitorApi.set_active false) in Ef.
    destruct Ef as (pre & post & -> & Hpre & Hm & ->).
    apply String.eqb_eq in Hm.
    split; [| split].
    + split; [discriminate |].
      intros H. exfalso. apply (H m); [apply in_or_app; right; left; reflexivity | exact Hm].
    + discriminate.
    + intros _. exists pre, m, post.
      split; [reflexivity |].
      split; [intros x Hx; apply String.eqb_neq; apply Hpre; exact Hx |].
      split; [exact Hm |]. split; [reflexivity |]. split.
      * intros c e l H. injection H as <-. intros Hin.
        apply filter_In in Hin. destruct Hin as [_ Hin].
        simpl in Hin. rewrite andb_false_r in Hin. discriminate Hin.
      * intros. reflexivity.
  - split; [| split].
    + split; [| reflexivity]. intros _ m Hin.
      apply String.eqb_neq. apply (find_none _ _ Ef m Hin).
    + reflexivity.
    + discriminate.
Qed.

(** ** Registration and listing *)

Lemma update_first_ids p f (l : list Monitor) :
  (forall m, m_id (f m) = m_id m) ->
  map m_id (update_first p f l) = map m_id l.
Proof.
  intros Hf. induction l as [| a l IH]; simpl; [reflexivity |].
  destruct (p a); simpl; [rewrite Hf | rewrite IH]; reflexivity.
Qed.

Lemma update_first_Forall (P : Monitor -> Prop) p f (l : list Monitor) :
  (forall m, P m -> P (f m)) ->
  Forall P l -> Forall P (update_first p f l).
Proof.
  intros Hf. induction 1 as [| a l Ha Hl IH]; simpl; [constructor |].
  destruct (p a); constructor; auto.
Qed.

Lemma update_first_In p f (l : list Monitor) (m : Monitor) :
  find p l = Some m -> In (f m) (update_first p f l).
Proof.
  induction l as [| a l IH]; simpl; [discriminate |].
  destruct (p a).
  - intros H. injection H as ->. left. reflexivity.
  - intros H. right. apply IH. exact H.
Qed.

(** What the registration of a new monitor stores. *)
Lemma registration_frame_aux (url_parses : string -> bool) (now : Z)
  (fresh : string) (monitors : list Monitor) (url email : string)
  (freq : option string) :
  let (monitors', response) :=
    register url_parses now fresh monitors url email freq in
  forall m, response = MonitorRegistered m ->
    monitors' = monitors ++ [m]
    /\ active m = true
    /\ m_email m = toLowerCase email
    /\ valid_email email = true.
Proof.
  unfold register.
  destruct (is_empty url || is_empty email)%bool; [discriminate |].
  destruct (valid_email email) eqn:Ev; cbn [negb]; [| discriminate].
  destruct (url_parses _); cbn [negb]; [| discriminate].
  destruct (find _ monitors); [discriminate |].
  intros m H. injection H as <-.
  split; [reflexivity |]. split; [reflexivity |].
  split; [| reflexivity].
  cbn [m_email]. rewrite trim_no_space; [reflexivity |].
  apply valid_email_no_space. exact Ev.
Qed.

(** X21. What a registration request does to the registry.  A request
    answered with 400 changes nothing.  No request removes or reorders
    monitors: the identifiers registered before are still there, in order,
    and at most one monitor is added, at the end.  A new monitor is active,
    stored under the address in lower case, and its URL carries a scheme
    and parses; so when every stored URL was of that kind before, every
    stored URL is of that kind afterwards. *)
Theorem registration_frame (url_parses : string -> bool) (now : Z)
  (fresh : string) (monitors : list Monitor) (url email : string)
  (freq : option string) :
  let (monitors', response) :=
    register url_parses now fresh monitors url email freq in
  (forall error, response = Status400 error -> monitors' = monitors)
  /\ map m_id (firstn (List.length monitors) monitors') = map m_id monitors
  /\ (List.length monitors <= List.length monitors'
      <= List.length monitors + 1)%nat
  /\ (Forall (well_formed url_parses) monitors ->
      Forall (well_formed url_parses) monitors')
  /\ (forall m, response = MonitorRegistered m ->
        monitors' = monitors ++ [m]
        /\ m_id m = fresh /\ active m = true
        /\ m_email m = toLowerCase email
        /\ valid_email email = true
        /\ well_formed url_parses m)
  /\ (forall m, response = MonitorUpdated m ->
        List.length monitors' = List.length monitors
        /\ In m monitors' /\ active m = true).
Proof.
  unfold register.
  assert (Hsame : map m_id (firstn (List.length monitors) monitors)
                  = map m_id monitors) by (rewrite firstn_all; reflexivity).
  destruct (is_empty url || is_empty email)%bool.
  { repeat split; try discriminate; try assumption; try lia; auto. }
  destruct (valid_email email) eqn:Ev; cbn [negb].
  2:{ repeat split; try discriminate; try assumption; try lia; auto. }
  fold (with_scheme (trim url)).
  destruct (url_parses (with_scheme (trim url))) eqn:Eu; cbn [negb].
  2:{ repeat split; try discriminate; try assumption; try lia; auto. }
  set (same := fun m => (String.eqb (m_url m) (with_scheme (trim url))
                         && String.eqb (m_email m) email)%bool).
  destruct (find same monitors) as [existing |] eqn:Ef.
  - split; [discriminate |].
    split.
    { rewrite <- (update_first_length same
                    (set_frequency (or_default freq "weekly") now) monitors) at 1.
      rewrite firstn_all. apply update_first_ids. reflexivity. }
    split; [rewrite update_first_length; lia |].
    split.
    { apply update_first_Forall. intros m Hm. exact Hm. }
    split; [discriminate |].
    intros m H. injection H as <-.
    split; [apply update_first_length |].
    split; [apply update_first_In; exact Ef | reflexivity].
  - split; [discriminate |].
    split.
    { rewrite firstn_app, Nat.sub_diag, firstn_all. simpl.
      rewrite app_nil_r. reflexivity. }
    split; [rewrite length_app; simpl; lia |].
    assert (Hw : well_formed url_parses
                   {| m_id := fresh; m_url := with_scheme (trim url);
                      m_email := toLowerCase (trim email);
                      frequency := or_default freq "weekly";
                      active := true; createdAt := now; updatedAt := None;
                      lastScanAt := None; lastScore := None;
                      nextScanAt :=
                        Some (now + match freq with
                                    | Some f => intervalMs f
                                    | None => 7*24*60*60*1000
                                    end) |}).
    { split; [apply has_scheme_with_scheme | exact Eu]. }
    split.
    { intros Hall. apply Forall_app. split; [exact Hall |].
      constructor; [exact Hw | constructor]. }
    split; [| discriminate].
    intros m H. injection H as <-.
    split; [reflexivity |]. split; [reflexivity |]. split; [reflexivity |].
    split.
    { cbn [m_email]. rewrite trim_no_space; [reflexivity |].
      apply valid_email_no_space. exact Ev. }
    split; [reflexivity | exact Hw].
Qed.

Lemma toLowerCase_empty (s : string) : toLowerCase s = "" -> s = "".
Proof. destruct s; [reflexivity | discriminate]. Qed.

(** X22. A monitor that has just been registered is listed for its
    address: [/api/monitors] asked with the address in any letter case
    returns it, and everything it returns is active and stored under that
    address in lower case. *)
Theorem registered_monitor_is_listed (url_parses : string -> bool) (now : Z)
  (fresh : string) (monitors monitors' : list Monitor) (url email : string)
  (freq : option string) (m : Monitor) (query : string) :
  register url_parses now fresh monitors url email freq
  = (monitors', MonitorRegistered m) ->
  toLowerCase query = toLowerCase email ->
  exists l,
    MonitorApi.get_monitors monitors' (Some query) = MonitorApi.Owned l
    /\ In m l
    /\ Forall (fun x => active x = true /\ m_email x = toLowerCase email) l.
Proof.
  intros Hreg Hq.
  pose proof (registration_frame_aux url_parses now fresh monitors url email freq) as Hf.
  rewrite Hreg in Hf. destruct (Hf m eq_refl) as (-> & Ha & He & Hv).
  destruct query as [| c q].
  { exfalso. symmetry in Hq. apply toLowerCase_empty in Hq. subst email.
    discriminate Hv. }
  unfold MonitorApi.get_monitors. rewrite Hq.
  eexists. split; [reflexivity |]. split.
  - apply filter_In. split; [apply in_or_app; right; left; reflexivity |].
    rewrite He, Ha, String.eqb_refl. reflexivity.
  - apply Forall_forall. intros x Hx. apply filter_In in Hx.
    destruct Hx as [_ Hx]. apply andb_prop in Hx. destruct Hx as [H1 H2].
    apply String.eqb_eq in H1. split; assumption.
Qed.

Lemma registered_monitor_is_listed_witness :
  exists l,
    MonitorApi.get_monitors
      (fst (register any_url 0 "m-1" [] "example.com" "Ann@Example.org" None))
      (Some "ANN@EXAMPLE.ORG")
    = MonitorApi.Owned l
    /\ (1 <= List.length l)%nat.
Proof.
  destruct (registered_monitor_is_listed any_url 0 "m-1" [] _
              "example.com" "Ann@Example.org" None _ "ANN@EXAMPLE.ORG"
              eq_refl eq_refl) as (l & Hl & Hin & _).
  exists l. split; [exact Hl |].
  destruct l; [contradiction | simpl; lia].
Defined.

(** ** Alert preferences *)

Lemma own_set_key (key : string) (config : MonitorApi.AlertConfig)
  (prefs : list (string * MonitorApi.AlertConfig)) :
  MonitorApi.own key (MonitorApi.set_key key config prefs) = Some config.
Proof.
  induction prefs as [| [k c] prefs IH]; simpl.
  - rewrite String.eqb_refl. reflexivity.
  - destruct (String.eqb k key) eqn:E; simpl; rewrite E; [reflexivity | exact IH].
Qed.

Lemma own_set_key_other (key other : string) (config : MonitorApi.AlertConfig)
  (prefs : list (string * MonitorApi.AlertConfig)) :
  other <> key ->
  MonitorApi.own other (MonitorApi.set_key key config prefs)
  = MonitorApi.own other prefs.
Proof.
  intros Hne. induction prefs as [| [k c] prefs IH]; simpl.
  - destruct (String.eqb_spec key other); [congruence | reflexivity].
  - destruct (String.eqb_spec k key) as [-> | Hk]; simpl.
    + destruct (String.eqb_spec key other); [congruence | reflexivity].
    + destruct (String.eqb k other); [reflexivity | exact IH].
Qed.

(** X23. What configuring the alerts of an address does.  A rejected
    request changes nothing.  An accepted one stores a frequency that is
    one of daily, weekly, biweekly and monthly (weekly for anything else);
    the status endpoint asked with the same address returns the stored
    configuration, and the configurations of other addresses are as before;
    every monitor of the address gets the frequency and the enabled flag of
    the configuration and no other monitor changes.  So unless the request
    says [enabled: false], every monitor of the address is active
    afterwards, one that had been deleted as well; and with [enabled:
    false] no tick of the scheduler touches a monitor of the address. *)
Theorem alerts_configuration (now : Z)
  (alertPreferences : list (string * MonitorApi.AlertConfig))
  (monitors : list Monitor)
  (email frequency : option string) (enabled : option bool)
  (url : option string) :
  let '(prefs', monitors', response) :=
    MonitorApi.configure_alerts now alertPreferences monitors
      email frequency enabled url in
  (response = MonitorApi.ConfigureRejected ->
   prefs' = alertPreferences /\ monitors' = monitors)
  /\ (forall config, response = MonitorApi.Configured config ->
        In (MonitorApi.a_frequency config) MonitorApi.validFreq
        /\ MonitorApi.a_enabled config
           = match enabled with Some false => false | _ => true end
        /\ MonitorApi.alerts_status prefs' email = MonitorApi.ConfiguredAs config
        /\ (forall other, other <> MonitorApi.a_email config ->
              MonitorApi.own other prefs' = MonitorApi.own other alertPreferences)
        /\ Forall2 (fun m m' =>
             if String.eqb (m_email m) (MonitorApi.a_email config)
             then m' = MonitorApi.set_alert (MonitorApi.a_frequency config)
                         (MonitorApi.a_enabled config) m
             else m' = m) monitors monitors'
        /\ (forall m', In m' monitors' ->
              m_email m' = MonitorApi.a_email config ->
              active m' = MonitorApi.a_enabled config)
        /\ (MonitorApi.a_enabled config = false ->
            forall m', In m' monitors' ->
              m_email m' = MonitorApi.a_email config ->
              forall fetchHTML cheerio_load clock uuidv4 history_write_ok
                     monitors_write_ok interval tick i h,
                Monitor.visit fetchHTML cheerio_load clock uuidv4
                  history_write_ok monitors_write_ok interval tick i m' h
                = (m', h))).
Proof.
  unfold MonitorApi.configure_alerts.
  destruct email as [[| c e] |];
    try (split; [intros _; split; reflexivity | discriminate]).
  destruct (valid_email (String c e)); cbn [negb];
    [| split; [intros _; split; reflexivity | discriminate]].
  split; [discriminate |].
  set (key := trim (toLowerCase (String c e))).
  set (freq := match frequency with
               | Some f => if existsb (String.eqb f) MonitorApi.validFreq
                           then f else "weekly"
               | None => "weekly"
               end).
  set (en := match enabled with Some false => false | _ => true end).
  intros config H. injection H as <-.
  cbn [MonitorApi.a_frequency MonitorApi.a_enabled MonitorApi.a_email].
  assert (Hmap : forall l m',
            In m' (map (fun m => if String.eqb (m_email m) key
                                 then MonitorApi.set_alert freq en m else m) l) ->
            m_email m' = key -> active m' = en).
  { intros l m' Hin Hk. apply in_map_iff in Hin. destruct Hin as (m & <- & _).
    destruct (String.eqb_spec (m_email m) key) as [_ | Hne]; [reflexivity |].
    contradiction. }
  split.
  { unfold freq. destruct frequency as [f |]; [| right; left; reflexivity].
    destruct (existsb (String.eqb f) MonitorApi.validFreq) eqn:Ex;
      [| right; left; reflexivity].
    apply existsb_exists in Ex. destruct Ex as (x & Hin & Hx).
    apply String.eqb_eq in Hx. subst x. exact Hin. }
  split; [reflexivity |].
  split.
  { unfold MonitorApi.alerts_status. fold key. rewrite own_set_key. reflexivity. }
  split; [intros other Hne; apply own_set_key_other; exact Hne |].
  split.
  { induction monitors as [| m l IH]; cbn [map]; constructor; [| exact IH].
    destruct (String.eqb (m_email m) key); cbv beta iota; reflexivity. }
  split; [apply Hmap |].
  intros Hen m' Hin Hk. intros.
  unfold Monitor.visit, not_due. rewrite (Hmap _ _ Hin Hk), Hen. reflexivity.
Qed.

(** ** The first scan of a new monitor *)

(** X29. Registering a monitor does not scan it: a new monitor is first
    due one interval after its registration (a day for 'daily', thirty
    days for 'monthly', a week for every other frequency text), and until
    then no tick of the scheduler scans it or changes it, whatever the
    network does; from then on it is due. *)
Theorem first_scan_after_one_interval (url_parses : string -> bool) (now : Z)
  (fresh : string) (monitors monitors' : list Monitor) (url email : string)
  (freq : option string) (m : Monitor) :
  register url_parses now fresh monitors url email freq
  = (monitors', MonitorRegistered m) ->
  let due := now + match freq with
                   | Some f => intervalMs f
                   | None => 7 * 24 * 60 * 60 * 1000
                   end in
  nextScanAt m = Some due
  /\ (forall tick, not_due tick m = (tick <? due))
  /\ (forall fetchHTML cheerio_load clock uuidv4 history_write_ok
             monitors_write_ok interval tick i h,
        tick < due ->
        Monitor.visit fetchHTML cheerio_load clock uuidv4 history_write_ok
          monitors_write_ok interval tick i m h = (m, h)).
Proof.
  unfold register.
  destruct (is_empty url || is_empty email)%bool; [discriminate |].
  destruct (negb (valid_email email)); [discriminate |].
  destruct (negb (url_parses _)); [discriminate |].
  destruct (find _ monitors); [discriminate |].
  intros H. injection H as _ <-.
  split; [reflexivity |]. split; [reflexivity |].
  intros. unfold Monitor.visit, not_due. cbn [active nextScanAt negb orb].
  destruct freq as [f |];
    match goal with
    | |- context [tick <? ?d] => destruct (Z.ltb_spec tick d); [reflexivity | lia]
    end.
Qed.

Lemma first_scan_after_one_interval_witness :
  exists m,
    register any_url 0 "m-1" [] "example.com" "a@b.co" (Some "daily")
    = ([m], MonitorRegistered m)
    /\ not_due 86399999 m = true.
Proof.
  eexists. split; [vm_compute; reflexivity |].
  refine (eq_trans
    (proj1 (proj2 (first_scan_after_one_interval any_url 0 "m-1" [] _
                     "example.com" "a@b.co" (Some "daily") _ _)) 86399999) _).
  - vm_compute. reflexivity.
  - vm_compute. reflexivity.
Defined.

(* ------------------------------------------------------------------ *)
(** * Properties of the alert subscriptions *)

Import Subscriptions SubscriptionSpec.

Lemma get_set_same (id : string) (sub : Subscription) (s : Store) :
  get id (set id sub s) = Some sub.
Proof.
  induction s as [| [k v] s IH]; simpl.
  - rewrite String.eqb_refl. reflexivity.
  - destruct (String.eqb k id) eqn:E; simpl; rewrite E; [reflexivity | exact IH].
Qed.

Lemma get_set_other (id other : string) (sub : Subscription) (s : Store) :
  other <> id -> get other (set id sub s) = get other s.
Proof.
  intros Hne. induction s as [| [k v] s IH]; simpl.
  - destruct (String.eqb_spec id other); [congruence | reflexivity].
  - destruct (String.eqb_spec k id) as [-> | Hk]; simpl.
    + destruct (String.eqb_spec id other); [congruence | reflexivity].
    + destruct (String.eqb k other); [reflexivity | exact IH].
Qed.

Lemma get_none_keys (id : string) (s : Store) :
  get id s = None <-> ~ In id (map fst s).
Proof.
  induction s as [| [k v] s IH]; simpl.
  - split; [intros _ [] | reflexivity].
  - destruct (String.eqb_spec k id) as [-> | Hk].
    + split; [discriminate | intros H; exfalso; apply H; left; reflexivity].
    + rewrite IH. split; [intros H [E | Hin]; [exact (Hk E) | exact (H Hin)] |].
      intros H Hin. apply H. right. exact Hin.
Qed.

Lemma get_In (id : string) (sub : Subscription) (s : Store) :
  get id s = Some sub -> In (id, sub) s.
Proof.
  induction s as [| [k v] s IH]; simpl; [discriminate |].
  destruct (String.eqb_spec k id) as [-> | Hk].
  - intros H. injection H as ->. left. reflexivity.
  - intros H. right. apply IH. exact H.
Qed.

Lemma keys_set (id : string) (sub : Subscription) (s : Store) :
  map fst (set id sub s)
  = match get id s with
    | Some _ => map fst s
    | None => map fst s ++ [id]
    end.
Proof.
  induction s as [| [k v] s IH]; simpl; [reflexivity |].
  destruct (String.eqb k id) eqn:E; simpl; [reflexivity |].
  rewrite IH. destruct (get id s); reflexivity.
Qed.

Lemma keys_assign (id : string) (sub : Subscription) (s : Store) :
  map fst (assign id sub s) = map fst s.
Proof.
  induction s as [| [k v] s IH]; simpl; [reflexivity |].
  destruct (String.eqb k id); simpl; [| rewrite IH]; reflexivity.
Qed.

Lemma get_assign_same (id : string) (sub old : Subscription) (s : Store) :
  get id s = Some old -> get id (assign id sub s) = Some sub.
Proof.
  induction s as [| [k v] s IH]; simpl; [discriminate |].
  destruct (String.eqb k id) eqn:E; simpl; rewrite E; [reflexivity | exact IH].
Qed.

Lemma get_assign_other (id other : string) (sub : Subscription) (s : Store) :
  other <> id -> get other (assign id sub s) = get other s.
Proof.
  intros Hne. induction s as [| [k v] s IH]; simpl; [reflexivity |].
  destruct (String.eqb_spec k id) as [-> | Hk]; simpl.
  - destruct (String.eqb_spec id other); [congruence | reflexivity].
  - destruct (String.eqb k other); [reflexivity | exact IH].
Qed.

Lemma set_is_assign (id : string) (sub old : Subscription) (s : Store) :
  get id s = Some old -> set id sub s = assign id sub s.
Proof.
  induction s as [| [k v] s IH]; simpl; [discriminate |].
  destruct (String.eqb k id); [reflexivity |].
  intros H. rewrite (IH H). reflexivity.
Qed.

Lemma assign_assign (id : string) (a b : Subscription) (s : Store) :
  assign id a (assign id b s) = assign id a s.
Proof.
  induction s as [| [k v] s IH]; simpl; [reflexivity |].
  destruct (String.eqb k id) eqn:E; simpl; rewrite E; [| rewrite IH]; reflexivity.
Qed.

Lemma get_delete_same (id : string) (s : Store) :
  NoDup (map fst s) -> get id (delete id s) = None.
Proof.
  induction s as [| [k v] s IH]; simpl; [reflexivity |].
  intros Hn. inversion Hn as [| ? ? Hk Hs]; subst.
  destruct (String.eqb_spec k id) as [-> | Hne]; simpl.
  - apply get_none_keys. exact Hk.
  - destruct (String.eqb_spec k id); [contradiction | apply IH; exact Hs].
Qed.

Lemma get_delete_other (id other : string) (s : Store) :
  other <> id -> get other (delete id s) = get other s.
Proof.
  intros Hne. induction s as [| [k v] s IH]; simpl; [reflexivity |].
  destruct (String.eqb_spec k id) as [-> | Hk]; simpl.
  - destruct (String.eqb_spec id other); [congruence | reflexivity].
  - destruct (String.eqb k other); [reflexivity | exact IH].
Qed.

Lemma delete_set_fresh (id : string) (sub : Subscription) (s : Store) :
  get id s = None -> delete id (set id sub s) = s.
Proof.
  induction s as [| [k v] s IH]; simpl.
  - rewrite String.eqb_refl. reflexivity.
  - destruct (String.eqb k id) eqn:E; [discriminate |].
    intros H. simpl. rewrite E, (IH H). reflexivity.
Qed.

Lemma In_set (id : string) (sub : Subscription) (s : Store) :
  In sub (map snd (set id sub s)).
Proof.
  induction s as [| [k v] s IH]; simpl; [left; reflexivity |].
  destruct (String.eqb k id); simpl; [left; reflexivity | right; exact IH].
Qed.

Lemma delete_keys_sub (id x : string) (s : Store) :
  In x (map fst (delete id s)) -> In x (map fst s).
Proof.
  induction s as [| [k v] s IH]; simpl; [intros [] |].
  destruct (String.eqb k id); simpl; [intros H; right; exact H |].
  intros [H | H]; [left; exact H | right; apply IH; exact H].
Qed.

Lemma consistent_delete (id : string) (s : Store) :
  consistent s -> consistent (delete id s).
Proof.
  intros [Hn Hf]. induction s as [| [k v] s IH]; simpl; [split; constructor |].
  inversion Hn as [| ? ? Hk Hs]; subst. inversion Hf as [| ? ? Hv Hrest]; subst.
  destruct (String.eqb k id); [split; assumption |].
  destruct (IH Hs Hrest) as [Hn' Hf'].
  split; simpl.
  - constructor; [| exact Hn']. intros Hin. apply Hk.
    apply (delete_keys_sub id). exact Hin.
  - constructor; assumption.
Qed.

Lemma consistent_assign (id : string) (sub : Subscription) (s : Store) :
  sub_id sub = id -> consistent s -> consistent (assign id sub s).
Proof.
  intros Hid [Hn Hf]. split; [rewrite keys_assign; exact Hn |].
  clear Hn. induction Hf as [| [k v] s Hv Hs IH]; simpl; [constructor |].
  destruct (String.eqb_spec k id) as [-> | Hne]; constructor;
    simpl; assumption.
Qed.

Lemma consistent_set (id : string) (sub : Subscription) (s : Store) :
  sub_id sub = id -> consistent s -> consistent (set id sub s).
Proof.
  intros Hid Hc. destruct (get id s) as [old |] eqn:E.
  - rewrite (set_is_assign _ _ _ _ E). apply consistent_assign; assumption.
  - destruct Hc as [Hn Hf]. split.
    + rewrite keys_set, E. apply NoDup_app; [exact Hn | repeat constructor; intros [] |].
      intros x Hx [<- | []]. apply get_none_keys in E. exact (E Hx).
    + clear Hn. induction Hf as [| [k v] s Hv Hs IH]; simpl.
      * repeat constructor. exact Hid.
      * simpl in E. destruct (String.eqb k id); [discriminate |].
        constructor; [exact Hv | apply IH; exact E].
Qed.

Section RouterFacts.

Variable url_parses : string -> bool.
Variable next_month : Z -> Z.

Local Notation "'subscribe'" := (Subscriptions.subscribe url_parses next_month).
Local Notation "'update'" := (Subscriptions.update url_parses next_month).
Local Notation "'getNextSendDate'" := (Subscriptions.getNextSendDate next_month).

(** What an accepted subscription request has stored. *)
Lemma subscribe_success now fresh store email url frequency store' sub :
  subscribe now fresh store email url frequency = (store', Success sub) ->
  store' = set fresh sub store
  /\ sub_id sub = fresh
  /\ Some (sub_email sub) = email
  /\ In (sub_frequency sub) validFreqs
  /\ sub_enabled sub = true
  /\ Monitor.valid_email (sub_email sub) = true
  /\ url_parses (sub_url sub) = true.
Proof.
  unfold Subscriptions.subscribe.
  destruct email as [[| c e] |]; try discriminate.
  destruct url as [[| d u] |]; try discriminate.
  destruct (Monitor.valid_email (String c e)) eqn:Ev; cbn [negb]; [| discriminate].
  destruct (url_parses (String d u)) eqn:Eu; cbn [negb]; [| discriminate].
  set (freq := match frequency with
               | Some f => if existsb (String.eqb f) validFreqs then f else "weekly"
               | None => "weekly"
               end).
  intros H. injection H as <- <-.
  cbn [sub_id sub_email sub_frequency sub_enabled sub_url].
  repeat split; try assumption.
  unfold freq. destruct frequency as [f |]; [| right; left; reflexivity].
  destruct (existsb (String.eqb f) validFreqs) eqn:Ex; [| right; left; reflexivity].
  apply existsb_exists in Ex. destruct Ex as (x & Hin & Hx).
  apply String.eqb_eq in Hx. subst x. exact Hin.
Qed.

(** X24. A subscription that has been accepted can be read back and
    removed again.  It is stored under the fresh identifier, enabled, with
    one of the three frequencies (weekly for any other request), an
    accepted address and a URL that parses; reading that identifier
    returns it, the listing for its address contains it, and every other
    identifier reads as before.  Deleting it answers with success, after
    which the identifier reads as 404; and when the identifier was new, the
    store is then exactly what it was before the subscription. *)
Theorem subscription_round_trip now fresh store email url frequency store' sub :
  subscribe now fresh store email url frequency = (store', Success sub) ->
  sub_id sub = fresh
  /\ In (sub_frequency sub) validFreqs
  /\ sub_enabled sub = true
  /\ Monitor.valid_email (sub_email sub) = true
  /\ url_parses (sub_url sub) = true
  /\ get_subscription store' fresh = Success sub
  /\ (exists l, list_subscriptions store' email = Listed l (List.length l)
                /\ In sub l)
  /\ (forall other, other <> fresh -> get other store' = get other store)
  /\ unsubscribe store' fresh = (delete fresh store', Deleted)
  /\ (NoDup (map fst store) ->
      get_subscription (delete fresh store') fresh = Status404)
  /\ (get fresh store = None -> delete fresh store' = store).
Proof.
  intros H. apply subscribe_success in H.
  destruct H as (-> & Hid & He & Hf & Hen & Hv & Hu).
  split; [exact Hid |]. split; [exact Hf |]. split; [exact Hen |].
  split; [exact Hv |]. split; [exact Hu |].
  split; [unfold get_subscription; rewrite get_set_same; reflexivity |].
  split.
  { subst email. unfold list_subscriptions.
    destruct (sub_email sub) as [| c e] eqn:E; [discriminate Hv |].
    eexists. split; [reflexivity |].
    apply filter_In. split; [apply In_set |].
    rewrite E. apply String.eqb_refl. }
  split; [intros other Hne; apply get_set_other; exact Hne |].
  split; [unfold unsubscribe; rewrite get_set_same; reflexivity |].
  split.
  { intros Hn. unfold get_subscription. rewrite get_delete_same; [reflexivity |].
    rewrite keys_set. destruct (get fresh store) eqn:E; [exact Hn |].
    apply NoDup_app; [exact Hn | repeat constructor; intros [] |].
    intros x Hx [<- | []]. apply get_none_keys in E. exact (E Hx). }
  apply delete_set_fresh.
Qed.

(** X25. An update that is rejected may have been applied in part.  For
    a stored subscription, a request with an unknown frequency is answered
    with 400 and changes nothing; but a request with a valid frequency and
    a URL that does not parse is answered with 400 'Invalid URL' after the
    frequency, the next send date and the enabled flag of the request have
    been stored: reading the subscription back shows them, with the old
    URL and without a new update time. *)
Theorem rejected_update_is_applied_in_part now store id sub
  (f : string) (enabled : option bool) (url : option string)
  (c : ascii) (u : string) :
  get id store = Some sub ->
  (f <> "" -> ~ In f validFreqs ->
   update now store id (Some f) enabled url
   = (store, Status400 "Invalid frequency"))
  /\ (In f validFreqs -> url_parses (String c u) = false ->
      let changed := apply_enabled enabled (with_frequency next_month now f sub) in
      update now store id (Some f) enabled (Some (String c u))
      = (assign id changed store, Status400 "Invalid URL")
      /\ get_subscription (assign id changed store) id = Success changed
      /\ sub_frequency changed = f
      /\ nextSendAt changed = getNextSendDate now f
      /\ sub_url changed = sub_url sub
      /\ sub_updatedAt changed = sub_updatedAt sub).
Proof.
  intros Hget. split.
  - intros Hne Hnot. unfold Subscriptions.update. rewrite Hget.
    destruct f as [| f0 f]; [contradiction |].
    destruct (existsb (String.eqb (String f0 f)) validFreqs) eqn:Ex; [| reflexivity].
    exfalso. apply existsb_exists in Ex. destruct Ex as (x & Hin & Hx).
    apply String.eqb_eq in Hx. subst x. exact (Hnot Hin).
  - intros Hin Hu changed. unfold Subscriptions.update. rewrite Hget.
    assert (Ex : existsb (String.eqb f) validFreqs = true).
    { apply existsb_exists. exists f. split; [exact Hin | apply String.eqb_refl]. }
    destruct f as [| f0 f]; [discriminate Ex |].
    rewrite Ex, Hu. fold (apply_enabled enabled
      (with_frequency next_month now (String f0 f) sub)). fold changed.
    split; [reflexivity |].
    split; [unfold get_subscription; rewrite (get_assign_same _ _ _ _ Hget); reflexivity |].
    unfold changed, apply_enabled. destruct enabled; repeat split.
Qed.

(** X26. The store stays a map of subscriptions under their own
    identifiers: when no identifier occurs twice and every subscription is
    stored under its identifier, the same holds after any subscription,
    update or deletion request, accepted or not.  Moreover an update never
    adds or removes an identifier, and an accepted update is read back with
    its update time set. *)
Theorem store_stays_consistent (store : Store) :
  consistent store ->
  (forall now fresh email url frequency,
      consistent (fst (subscribe now fresh store email url frequency)))
  /\ (forall now id frequency enabled url,
        consistent (fst (update now store id frequency enabled url))
        /\ map fst (fst (update now store id frequency enabled url))
           = map fst store
        /\ (forall sub,
              snd (update now store id frequency enabled url) = Success sub ->
              get_subscription (fst (update now store id frequency enabled url)) id
              = Success sub
              /\ sub_updatedAt sub = Some now))
  /\ (forall id, consistent (fst (unsubscribe store id))).
Proof.
  intros Hc. split; [| split].
  - intros now fresh email url frequency.
    destruct (subscribe now fresh store email url frequency) as [store' r] eqn:E.
    destruct r as [err | | sub | l n |];
      try (unfold Subscriptions.subscribe in E;
           repeat match type of E with
                  | context [match ?x with _ => _ end] => destruct x
                  end; injection E as <- _; exact Hc;
           fail).
    + unfold Subscriptions.subscribe in E.
      repeat match type of E with
             | context [match ?x with _ => _ end] => destruct x
             end; try discriminate E; injection E as <- _; exact Hc.
    + unfold Subscriptions.subscribe in E.
      repeat match type of E with
             | context [match ?x with _ => _ end] => destruct x
             end; discriminate E.
    + apply subscribe_success in E. destruct E as (-> & Hid & _).
      apply consistent_set; assumption.
    + unfold Subscriptions.subscribe in E.
      repeat match type of E with
             | context [match ?x with _ => _ end] => destruct x
             end; discriminate E.
    + unfold Subscriptions.subscribe in E.
      repeat match type of E with
             | context [match ?x with _ => _ end] => destruct x
             end; discriminate E.
  - intros now id frequency enabled url.
    unfold Subscriptions.update.
    destruct (get id store) as [sub |] eqn:Hget;
      [| split; [exact Hc | split; [reflexivity | discriminate]]].
    assert (Hid : sub_id sub = id).
    { destruct Hc as [_ Hf]. rewrite Forall_forall in Hf.
      apply (Hf (id, sub)). apply get_In. exact Hget. }
    set (after_frequency :=
           match frequency with
           | Some (String c f) =>
               if existsb (String.eqb (String c f)) validFreqs
               then Some (with_frequency next_month now (String c f) sub)
               else None
           | _ => Some sub
           end).
    assert (Haf : forall s1, after_frequency = Some s1 -> sub_id s1 = id).
    { unfold after_frequency. intros s1.
      destruct frequency as [[| c f] |]; try (intros H; injection H as <-; exact Hid).
      destruct (existsb _ validFreqs); [| discriminate].
      intros H; injection H as <-; exact Hid. }
    destruct after_frequency as [s1 |];
      [| split; [exact Hc | split; [reflexivity | discriminate]]].
    specialize (Haf s1 eq_refl).
    set (s2 := match enabled with Some e => with_enabled e s1 | None => s1 end).
    assert (H2 : sub_id s2 = id) by (unfold s2; destruct enabled; exact Haf).
    set (after_url :=
           match url with
           | Some (String c u) =>
               if url_parses (String c u) then Some (with_url (String c u) s2)
               else None
           | _ => Some s2
           end).
    assert (Hau : forall s3, after_url = Some s3 -> sub_id s3 = id).
    { unfold after_url. intros s3.
      destruct url as [[| c u] |]; try (intros H; injection H as <-; exact H2).
      destruct (url_parses _); [| discriminate].
      intros H; injection H as <-; exact H2. }
    destruct after_url as [s3 |]; cbn [fst snd].
    + specialize (Hau s3 eq_refl).
      cbn [sub_id with_updatedAt]. rewrite Hau.
      rewrite (set_is_assign id _ (with_updatedAt now s3));
        [| apply (get_assign_same _ _ _ _ Hget)].
      rewrite assign_assign.
      split; [apply consistent_assign; [exact Hau | exact Hc] |].
      split; [apply keys_assign |].
      intros sub' H. injection H as <-.
      split; [| reflexivity].
      unfold get_subscription. rewrite (get_assign_same _ _ _ _ Hget). reflexivity.
    + split; [apply consistent_assign; [exact H2 | exact Hc] |].
      split; [apply keys_assign | discriminate].
  - intros id. unfold unsubscribe.
    destruct (get id store); [apply consistent_delete |]; exact Hc.
Qed.

End RouterFacts.

Lemma subscription_round_trip_witness :
  get_subscription
    (fst (Subscriptions.subscribe https_urls thirty_days 0 "s-1" []
            (Some "ann@example.org") (Some "https://example.org") None))
    "s-1"
  = Success ann.
Proof.
  refine (proj1 (proj2 (proj2 (proj2 (proj2 (proj2
    (subscription_round_trip https_urls thirty_days 0 "s-1" []
       (Some "ann@example.org") (Some "https://example.org") None _ ann _))))))).
  vm_compute. reflexivity.
Defined.

Lemma rejected_update_is_applied_in_part_witness :
  Subscriptions.update https_urls thirty_days 50 [("s-1", ann)] "s-1"
    (Some "daily") None (Some "not a url")
  = ([("s-1", with_frequency thirty_days 50 "daily" ann)],
     Status400 "Invalid URL").
Proof.
  refine (proj1 (proj2 (rejected_update_is_applied_in_part https_urls
                          thirty_days 50 [("s-1", ann)] "s-1" ann "daily" None
                          None "n" "ot a url" eq_refl)
                   _ eq_refl)).
  left. reflexivity.
Defined.

Lemma store_stays_consistent_witness :
  consistent
    (fst (Subscriptions.update https_urls thirty_days 50 [("s-1", ann)] "s-1"
            (Some "daily") None (Some "not a url"))).
Proof.
  refine (proj1 (proj1 (proj2 (store_stays_consistent https_urls thirty_days
                                 [("s-1", ann)] _))
                   50 "s-1" (Some "daily") None (Some "not a url"))).
  split.
  - repeat constructor. simpl. intros [].
  - repeat constructor.
Defined.

(* ------------------------------------------------------------------ *)
(** * Properties of the compliance badge *)

Lemma find_split {X : Type} (p : X -> bool) (l : list X) (x : X) :
  find p l = Some x ->
  exists pre post,
    l = pre ++ x :: post /\ p x = true /\ (forall y, In y pre -> p y = false).
Proof.
  induction l as [| a l IH]; simpl; [discriminate |].
  destruct (p a) eqn:E.
  - intros H. injection H as ->. exists [], l.
    repeat split; [exact E | intros y []].
  - intros H. destruct (IH H) as (pre & post & -> & Hx & Hpre).
    exists (a :: pre), post. repeat split; [exact Hx |].
    intros y [<- | Hy]; [exact E | apply Hpre; exact Hy].
Qed.

(** The first match of the reversed list is the last match of the
    list. *)
Lemma find_rev_split {X : Type} (p : X -> bool) (l : list X) (x : X) :
  find p (rev l) = Some x ->
  exists pre post,
    l = pre ++ x :: post /\ p x = true /\ (forall y, In y post -> p y = false).
Proof.
  intros H. apply find_split in H. destruct H as (pre & post & E & Hx & Hpre).
  exists (rev post), (rev pre). split; [| split; [exact Hx |]].
  - rewrite <- (rev_involutive l), E, rev_app_distr. simpl.
    rewrite <- app_assoc. reflexivity.
  - intros y Hy. apply Hpre. apply in_rev. exact Hy.
Qed.

Lemma badge_own_put (id : string) (badge : Badge.BadgeRecord)
  (badges : Badge.Registry) :
  Badge.own id (Badge.put id badge badges) = Some badge.
Proof.
  induction badges as [| [k v] badges IH]; simpl.
  - rewrite String.eqb_refl. reflexivity.
  - destruct (String.eqb k id) eqn:E; simpl; rewrite E; [reflexivity | exact IH].
Qed.

Lemma badge_own_put_other (id other : string) (badge : Badge.BadgeRecord)
  (badges : Badge.Registry) :
  other <> id ->
  Badge.own other (Badge.put id badge badges) = Badge.own other badges.
Proof.
  intros Hne. induction badges as [| [k v] badges IH]; simpl.
  - destruct (String.eqb_spec id other); [congruence | reflexivity].
  - destruct (String.eqb_spec k id) as [-> | Hk]; simpl.
    + destruct (String.eqb_spec id other); [congruence | reflexivity].
    + destruct (String.eqb k other); [reflexivity | exact IH].
Qed.

Section BadgeFacts.

Variable md5_hex : string -> string.

Local Notation "'generate'" := (Badge.generate md5_hex).

(** What a badge request that is accepted has found and stored. *)
Lemma generate_issued issued now scanHistory badges url scanId badges' badgeId :
  generate issued now scanHistory badges url scanId
  = (badges', Badge.BadgeIssued badgeId) ->
  exists c u scan,
    url = Some (String c u)
    /\ badgeId = take 12 (md5_hex (String c u))
    /\ match scanId with
       | Some (String d i) =>
           find (fun s => String.eqb (rec_id s) (String d i)) scanHistory
       | _ =>
           find (fun s => Scan.includes (String c u) (Scan.url (result s)))
                (rev scanHistory)
       end = Some scan
    /\ Scan.complianceLevel (result scan) <> non_compliant
    /\ badges'
       = Badge.put badgeId
           {| Badge.b_url := Scan.url (result scan);
              Badge.b_score := Scan.score (result scan);
              Badge.b_level := Scan.complianceLevel (result scan);
              Badge.b_scanId := rec_id scan;
              Badge.issuedAt := issued;
              Badge.expiresAt := now + 30 * 24 * 60 * 60 * 1000 |} badges.
Proof.
  unfold Badge.generate.
  destruct url as [[| c u] |]; try discriminate.
  match goal with
  | |- context [match ?f with Some _ => _ | None => _ end = _] =>
      destruct f as [scan |] eqn:Ef
  end; [| discriminate].
  destruct (Scan.complianceLevel (result scan)) eqn:El; try discriminate;
    intros H; injection H as <- <-;
    exists c, u, scan; rewrite El;
    (split; [reflexivity |]); (split; [reflexivity |]);
    (split; [exact Ef |]); (split; [discriminate | reflexivity]).
Qed.

(** X27. A badge is only ever issued from a stored scan that is not
    'non-compliant', and a request that is refused leaves the registry as
    it is.  Without a scan identifier the scan taken is the most recent
    one whose URL contains the text of the request, so a later
    non-compliant scan of the site blocks the badge whatever earlier scans
    say; with a scan identifier it is the first scan with that identifier,
    whether or not its URL has anything to do with the text.  The badge
    stored under the identifier of the response carries the URL, score,
    level and identifier of that scan and expires thirty days after the
    request. *)
Theorem badge_is_issued_from_a_scan issued now scanHistory badges url scanId :
  let (badges', response) :=
    generate issued now scanHistory badges url scanId in
  (forall status error,
      response = Badge.BadgeRejected status error -> badges' = badges)
  /\ (forall badgeId, response = Badge.BadgeIssued badgeId ->
        exists scan pre post c u,
          url = Some (String c u)
          /\ scanHistory = pre ++ scan :: post
          /\ Scan.complianceLevel (result scan) <> non_compliant
          /\ Badge.own badgeId badges'
             = Some {| Badge.b_url := Scan.url (result scan);
                       Badge.b_score := Scan.score (result scan);
                       Badge.b_level := Scan.complianceLevel (result scan);
                       Badge.b_scanId := rec_id scan;
                       Badge.issuedAt := issued;
                       Badge.expiresAt := now + 2592000000 |}
          /\ (forall other, other <> badgeId ->
                Badge.own other badges' = Badge.own other badges)
          /\ (truthy scanId = false ->
              Scan.includes (String c u) (Scan.url (result scan)) = true
              /\ forall later, In later post ->
                   Scan.includes (String c u) (Scan.url (result later)) = false)
          /\ (truthy scanId = true ->
              Some (rec_id scan) = scanId
              /\ forall earlier, In earlier pre -> Some (rec_id earlier) <> scanId)).
Proof.
  destruct (generate issued now scanHistory badges url scanId)
    as [badges' response] eqn:E.
  split.
  - intros status error ->. unfold Badge.generate in E.
    destruct url as [[| c u] |]; try (injection E as <-; reflexivity).
    match type of E with
    | context [match ?f with Some _ => _ | None => _ end] =>
        destruct f as [scan |]
    end; [| injection E as <-; reflexivity].
    destruct (Scan.complianceLevel (result scan));
      first [discriminate E | injection E as <-; reflexivity].
  - intros badgeId ->. apply generate_issued in E.
    destruct E as (c & u & scan & -> & -> & Hfind & Hlevel & ->).
    destruct scanId as [[| d i] |].
    + apply find_rev_split in Hfind. destruct Hfind as (pre & post & -> & Hx & Hpost).
      exists scan, pre, post, c, u.
      split; [reflexivity |]. split; [reflexivity |]. split; [exact Hlevel |].
      split; [apply badge_own_put |].
      split; [intros other Hne; apply badge_own_put_other; exact Hne |].
      split; [intros _; split; assumption | discriminate].
    + apply find_split in Hfind. destruct Hfind as (pre & post & -> & Hx & Hpre).
      exists scan, pre, post, c, u.
      split; [reflexivity |]. split; [reflexivity |]. split; [exact Hlevel |].
      split; [apply badge_own_put |].
      split; [intros other Hne; apply badge_own_put_other; exact Hne |].
      split; [discriminate |]. intros _.
      apply String.eqb_eq in Hx. split; [rewrite Hx; reflexivity |].
      intros earlier Hin H. injection H as H.
      specialize (Hpre earlier Hin). apply String.eqb_neq in Hpre. exact (Hpre H).
    + apply find_rev_split in Hfind. destruct Hfind as (pre & post & -> & Hx & Hpost).
      exists scan, pre, post, c, u.
      split; [reflexivity |]. split; [reflexivity |]. split; [exact Hlevel |].
      split; [apply badge_own_put |].
      split; [intros other Hne; apply badge_own_put_other; exact Hne |].
      split; [intros _; split; assumption | discriminate].
Qed.

(** X28. What the image of a badge shows after it has been issued.
    Until its expiry, thirty days after the request, the text follows the
    level of the scan it was issued from: 'WCAG Compliant' for
    'compliant', 'Needs Work' for 'needs-improvement', and 'Non-Compliant'
    for 'partially-compliant', a level for which the badge is issued all
    the same.  After the expiry the text is 'Expired'.  At all times the
    score text is the score of that scan followed by '/100'. *)
Theorem issued_badge_face issued now scanHistory badges url scanId
  badges' badgeId :
  generate issued now scanHistory badges url scanId
  = (badges', Badge.BadgeIssued badgeId) ->
  exists scan,
    In scan scanHistory
    /\ forall t,
         let face := Badge.badge_svg t badges' badgeId in
         Badge.scoreText face
         = (NilZero.string_of_int (Z.to_int (Scan.score (result scan)))
            ++ "/100")%string
         /\ (now + 2592000000 < t ->
             Badge.text face = "Expired" /\ Badge.color face = "#9E9E9E")
         /\ (t <= now + 2592000000 ->
             Badge.text face
             = match Scan.complianceLevel (result scan) with
               | compliant => "WCAG Compliant"
               | needs_improvement => "Needs Work"
               | _ => "Non-Compliant"
               end).
Proof.
  intros E. apply generate_issued in E.
  destruct E as (c & u & scan & -> & -> & Hfind & Hlevel & ->).
  exists scan. split.
  { destruct scanId as [[| d i] |]; apply find_some in Hfind;
      try (apply in_rev; apply Hfind); apply Hfind. }
  intros t face. unfold face, Badge.badge_svg. rewrite badge_own_put.
  cbn [Badge.expiresAt Badge.b_score Badge.b_level].
  change (30 * 24 * 60 * 60 * 1000) with 2592000000.
  destruct (Z.ltb_spec (now + 2592000000) t) as [Hlt | Hge].
  - split; [reflexivity |]. split; [intros _; split; reflexivity | lia].
  - destruct (Scan.complianceLevel (result scan));
      (split; [reflexivity |]); (split; [lia | intros _; reflexivity]).
Qed.

End BadgeFacts.

Lemma issued_badge_face_witness :
  exists badges',
    Badge.generate BadgeSpec.digest 0 0 [BadgeSpec.blank_scan] []
      (Some "example.com") None
    = (badges', Badge.BadgeIssued "0123456789ab")
    /\ Badge.text (Badge.badge_svg 10 badges' "0123456789ab") = "Non-Compliant".
Proof.
  eexists. split; [vm_compute; reflexivity |].
  destruct (issued_badge_face BadgeSpec.digest 0 0 [BadgeSpec.blank_scan] []
              (Some "example.com") None _ "0123456789ab"
              ltac:(vm_compute; reflexivity))
    as (scan & [<- | []] & Hface).
  exact (proj2 (proj2 (Hface 10)) ltac:(vm_compute; discriminate)).
Defined.
